(** * rpoco: reflection registry and visitor dispatch

    A shallow embedding of [rpoco/rpoco.hpp]: the per-class [type_info]
    registry built by the [RPOCO] macro, the abstract [visitor] interface,
    and the family of [rpoco::visit<F>] specialisations that walk a value
    in either direction (consume = read, produce = write). *)

From Stdlib Require Import ZArith PrimFloat Uint63 Ascii String.
From Stdlib.Strings Require Import Byte.
From Stdlib Require OrdersEx.
From stdpp Require Import gmap strings list fin_maps.

Local Open Scope Z_scope.
Local Open Scope string_scope.
Local Open Scope list_scope.

(** ** Data model *)

(** [enum visit_type] (rpoco.hpp, lines 63-72). *)
Inductive visit_type :=
| vt_none | vt_error | vt_object | vt_array
| vt_null | vt_bool | vt_number | vt_string.

#[global] Instance visit_type_eq_dec : EqDecision visit_type.
Proof. solve_decision. Defined.

(** A C++ [double] is an IEEE binary64 value; the dispatch layer only moves
    doubles around, it never computes with them. *)
Definition double := PrimFloat.float.

(** The three pointer types with a [visit] specialisation: [F*],
    [std::shared_ptr<F>] and [std::unique_ptr<F>]. *)
Inductive ptr_kind := raw_ptr | shared_ptr | unique_ptr.

(** The static types [F] at which [rpoco::visit<F>] is instantiated: one
    constructor per specialisation in the header, [SClass] standing for
    the generic template (a class that carries the [RPOCO] macro, named by
    its class name). *)
Inductive shape :=
| SInt
| SDouble
| SString
| SChars (sz : nat)
| SVec (elt : shape)
| SMap (elt : shape)
| SPtr (k : ptr_kind) (tgt : shape)
| SClass (c : string)
| SNiltarget.

#[local] Unset Elimination Schemes.

(** Run-time values.  An object is the sequence of its member subobjects;
    a pointer (of any of the three kinds) is null or owns its pointee;
    a [std::map] is its sequence of entries in key order.

    Values are trees: a pointee has one owner.  Records in which two
    pointers share a pointee, or a pointer points at a member of a record
    that is visited as well, are not values of this type, and nothing
    below speaks of them.  The one alias the dispatch makes itself, the
    copied entry of the map production loop, is accounted for by [share]. *)
Inductive value :=
| VInt (i : Z)
| VDouble (d : double)
| VString (s : string)
| VChars (buf : list byte)
| VVec (elts : list value)
| VMap (entries : list (string * value))
| VPtr (pointee : option value)
| VObj (slots : list value)
| VNil.

#[local] Set Elimination Schemes.

(** [struct niltarget {}]. *)
Inductive niltarget := Niltarget.

(** [class member] together with its only subclass [field<F>]: the name,
    the offset of the member inside its object and the member's static
    type [F].  The pointer difference [m_offset] is represented by the
    index of the member's slot in the object. *)
Record member := Member {
  m_name : string;
  m_offset : nat;
  m_type : shape
}.

(** A [member*].  Every [member] object is allocated by
    [rpoco_type_info_expand] and pushed onto [fields] by [add], so the
    vector doubles as the store of these objects: a pointer is the position
    of its pointee in [fields], and [None] is the null pointer.  Two
    pointers are the same object exactly when they are the same position. *)
Abbreviation member_ptr := (option nat).

(** [class type_info]: the ordered [fields] vector (with the pointees
    stored in place), the name-indexed [m_named_fields] table and the
    [m_is_init] flag. *)
Record type_info := TypeInfo {
  fields : list member;
  m_named_fields : gmap string member_ptr;
  m_is_init : Z
}.

(** A [static rpoco::type_info ti;] before its first use. *)
Definition fresh_type_info : type_info :=
  {| fields := []; m_named_fields := ∅; m_is_init := 0 |}.

(** ** The registry ([type_info], rpoco.hpp lines 302-334) *)

(** Conversion of a [size_t] to [int] (two's complement wrap-around). *)
Definition to_int (z : Z) : Z := (z + 2 ^ 31) mod 2 ^ 32 - 2 ^ 31.

(** [int size() { return fields.size(); }] *)
Definition size (t : type_info) : Z :=
  to_int (Z.of_nat (length (fields t))).

(** [bool has(std::string id)] *)
Definition has (id : string) (t : type_info) : bool :=
  bool_decide (is_Some (m_named_fields t !! id)).

(** [member*& operator[](int idx)]: reading [fields[idx]]; an index outside
    the vector has no defined result. *)
Definition index_int (idx : Z) (t : type_info) : option member_ptr :=
  if bool_decide (0 <= idx < Z.of_nat (length (fields t)))
  then Some (Some (Z.to_nat idx)) else None.

(** [member*& operator[](std::string id)]: [m_named_fields[id]], which
    default-inserts a null pointer when [id] is absent.  Returns the pointer
    read and the table after the call. *)
Definition index_name (id : string) (t : type_info) : member_ptr * type_info :=
  match m_named_fields t !! id with
  | Some p => (p, t)
  | None =>
      (None,
       {| fields := fields t;
          m_named_fields := <[id := None]> (m_named_fields t);
          m_is_init := m_is_init t |})
  end.

(** Dereferencing a [member*]. *)
Definition deref (p : member_ptr) (t : type_info) : option member :=
  i ← p; fields t !! i.

(** Writing through the [std::string&] that [member::name()] returns. *)
Definition set_name (i : nat) (name : string) (t : type_info) : type_info :=
  {| fields :=
       alter (fun m => {| m_name := name; m_offset := m_offset m;
                          m_type := m_type m |}) i (fields t);
     m_named_fields := m_named_fields t;
     m_is_init := m_is_init t |}.

(** [int is_init()] *)
Definition is_init (t : type_info) : Z := m_is_init t.

(** [void add(member *fb)], called with a freshly allocated field: the new
    object gets the next position. *)
Definition add (fb : member) (t : type_info) : type_info :=
  {| fields := fields t ++ [fb];
     m_named_fields := <[m_name fb := Some (length (fields t))]> (m_named_fields t);
     m_is_init := m_is_init t |}.

(** [void init(initfun)], as executed by one
    thread holding [init_mutex]: the initialiser runs only when the flag is
    still clear, and the flag is set afterwards.  [initfun] has no result
    when it runs into undefined behaviour. *)
Definition init (initfun : type_info -> option type_info) (t : type_info)
  : option type_info :=
  if bool_decide (m_is_init t = 0) then
    t' ← initfun t;
    Some {| fields := fields t';
            m_named_fields := m_named_fields t';
            m_is_init := 1 |}
  else Some t.

(** ** The [RPOCO] macro (rpoco.hpp lines 34-51 and 337-359) *)

(** [std::isspace] in the C locale. *)
Definition isspace (c : ascii) : bool :=
  let n := nat_of_ascii c in
  bool_decide (n = 32%nat) || (bool_decide (9 <= n)%nat && bool_decide (n <= 13)%nat).

Definition is_sep (c : ascii) : bool :=
  isspace c || bool_decide (c = ","%char).

(** The loop that skips spaces and commas. *)
Fixpoint skip_seps (t : string) : string :=
  match t with
  | String c r => if is_sep c then skip_seps r else t
  | EmptyString => EmptyString
  end.

(** The token loop of [extract_macro_names].  [tok] holds the characters
    between the token start [s] and the cursor [t]; [skipping] is set while
    the inner separator-skipping loop is running. *)
Fixpoint extract_loop (t : string) (skipping : bool) (tok : string)
    (out : list string) : list string :=
  match t with
  | EmptyString => if skipping then out else
                     if bool_decide (tok = EmptyString) then out else out ++ [tok]
  | String c r =>
      if skipping then
        if is_sep c then extract_loop r true EmptyString out
        else extract_loop r false (String c EmptyString) out
      else
        if is_sep c then extract_loop r true EmptyString (out ++ [tok])
        else extract_loop r false (tok +:+ String c EmptyString) out
  end.

(** [std::vector<std::string> extract_macro_names(const char *t)] *)
Definition extract_macro_names (t : string) : list string :=
  extract_loop (skip_seps t) false EmptyString [].

(** What a class body [RPOCO(args)] fixes at compile time: the stringified
    argument list [#__VA_ARGS__], the members the arguments denote (for
    each, the slot its address resolves to and its static type), and the
    state of a value-initialised instance (what [F()] constructs). *)
Record class_decl := ClassDecl {
  c_args : string;
  c_members : list (nat * shape);
  c_new : list value
}.

(** [rpoco_type_info_expand(ti,names,idx,head,rest...)]: one [add] per
    argument, named by [names[idx]]; indexing past the end of [names] has
    no defined result. *)
Fixpoint rpoco_type_info_expand (ti : type_info) (names : list string)
    (idx : nat) (heads : list (nat * shape)) : option type_info :=
  match heads with
  | [] => Some ti
  | (off, H) :: rest =>
      name ← names !! idx;
      rpoco_type_info_expand
        (add {| m_name := name; m_offset := off; m_type := H |} ti)
        names (S idx) rest
  end.

(** The lambda handed to [init] by [rpoco_type_info_get]. *)
Definition rpoco_initfun (d : class_decl) (ti : type_info) : option type_info :=
  rpoco_type_info_expand ti (extract_macro_names (c_args d)) 0 (c_members d).

(** [rpoco_type_info_get()] on the class's static [ti]. *)
Definition rpoco_type_info_get (d : class_decl) (ti : type_info)
  : option type_info :=
  if bool_decide (is_init ti = 0) then init (rpoco_initfun d) ti else Some ti.

(** ** The visitor interface (rpoco.hpp lines 75-87) *)

(** [struct visitor]: the pure virtual operations, over the state [V] of the
    implementing object.  An operation that takes a C++ reference returns
    the value left in it.  The callback handed to [consume] runs on the
    visitor's state together with whatever the closure captured by
    reference, of a type [T] the visitor knows nothing about. *)
Class visitor (V : Type) := {
  peek : V -> visit_type * V;
  consume : forall {T : Type},
      visit_type -> (string -> V * T -> V * T) -> V * T -> bool * (V * T);
  produce_start : visit_type -> V -> V;
  produce_end : visit_type -> V -> V;
  visit_null : V -> V;
  visit_bool : bool -> V -> bool * V;
  visit_int : Z -> V -> Z * V;
  visit_double : double -> V -> double * V;
  visit_string : string -> V -> string * V;
  visit_chars : list byte -> nat -> V -> list byte * V
}.

(** ** Program state seen by the dispatch *)

(** What a [visit] call can reach besides the visitor: the function-local
    statics [ti] of the reflected classes (by class name), the number of
    [new F()] expressions evaluated so far, and the object being visited.
    [tgt = None] marks a run that has no result: the recursion budget of
    the model ran out, or memory did not have the layout the static types
    promise. *)
Record state := State {
  regs : gmap string type_info;
  news : nat;
  tgt : option value
}.

Definition set_tgt (x : option value) (s : state) : state :=
  {| regs := regs s; news := news s; tgt := x |}.

Definition set_regs (r : gmap string type_info) (s : state) : state :=
  {| regs := r; news := news s; tgt := tgt s |}.

Definition fail (s : state) : state := set_tgt None s.

(** The static [ti] of class [c]. *)
Definition registry (c : string) (r : gmap string type_info) : type_info :=
  default fresh_type_info (r !! c).

(** *** References into a value *)

(** A reference to a part of a value: how to read the part and how the
    whole looks after the part was written. *)
Record ref := Ref {
  ref_get : value -> option value;
  ref_put : value -> value -> value
}.

(** The member at offset [off] of an object:
    the cast of [p + m_offset] in [field<F>::visit]. *)
Definition slot (off : nat) : ref :=
  {| ref_get := fun w => match w with VObj l => l !! off | _ => None end;
     ref_put := fun x w => match w with VObj l => VObj (<[off := x]> l) | _ => w end |}.

(** Element [i] of a vector. *)
Definition elem (i : nat) : ref :=
  {| ref_get := fun w => match w with VVec l => l !! i | _ => None end;
     ref_put := fun x w => match w with VVec l => VVec (<[i := x]> l) | _ => w end |}.

(** The pointee of a non-null pointer. *)
Definition pointee_ref : ref :=
  {| ref_get := fun w => match w with VPtr p => p | _ => None end;
     ref_put := fun x w => match w with VPtr _ => VPtr (Some x) | _ => w end |}.

Fixpoint map_find (k : string) (m : list (string * value)) : option value :=
  match m with
  | [] => None
  | (k', x) :: r => if String.eqb k' k then Some x else map_find k r
  end.

Fixpoint map_set (k : string) (y : value) (m : list (string * value))
  : list (string * value) :=
  match m with
  | [] => []
  | (k', x) :: r =>
      if String.eqb k' k then (k', y) :: r else (k', x) :: map_set k y r
  end.

(** [mp[x]] on a [std::map]: the entries stay in key order, and a missing
    key is inserted with a value-initialised mapped value. *)
Fixpoint map_subscript (k : string) (dflt : value) (m : list (string * value))
  : list (string * value) :=
  match m with
  | [] => [(k, dflt)]
  | (k', x) :: r =>
      if String.eqb k' k then m
      else if String.ltb k k' then (k, dflt) :: m
      else (k', x) :: map_subscript k dflt r
  end.

(** The mapped value of key [k]. *)
Definition entry (k : string) : ref :=
  {| ref_get := fun w => match w with VMap m => map_find k m | _ => None end;
     ref_put := fun x w => match w with VMap m => VMap (map_set k x m) | _ => w end |}.

(** The first entry of [m] under key [k], with the entries after it.  The
    entries of a copied map that was added to are the old ones, in their
    order, with new ones in between. *)
Fixpoint map_seek (k : string) (m : list (string * value))
  : option (value * list (string * value)) :=
  match m with
  | [] => None
  | (k', x) :: r => if String.eqb k' k then Some (x, r) else map_seek k r
  end.

(** What a copy-constructed value shares with its original: values are
    copied, but a copied pointer (raw or shared) points at the pointee of
    the original.  [share old new] is the original once the copy has been
    left as [new]: what was written into a pointee shows in the original,
    and what was written into the copy itself (a leaf, a new element, a
    pointer set on the copy) is lost with the copy.  A set pointer is
    never re-seated by a visit, so the pointee of the copy is still the
    shared one.  (A type that holds a [std::unique_ptr] has no copy; a map
    of such a type does not compile.) *)
Fixpoint share (old new : value) : value :=
  match old, new with
  | VPtr (Some _), VPtr (Some y') => VPtr (Some y')
  | VVec l, VVec l' =>
      VVec ((fix go (l l' : list value) : list value :=
               match l, l' with
               | x :: r, x' :: r' => share x x' :: go r r'
               | _, _ => l
               end) l l')
  | VMap m, VMap m' =>
      VMap ((fix go (m m' : list (string * value)) : list (string * value) :=
               match m with
               | [] => []
               | (k, x) :: r =>
                   match map_seek k m' with
                   | Some (x', r') => (k, share x x') :: go r r'
                   | None => (k, x) :: go r m'
                   end
               end) m m')
  | VObj s, VObj s' =>
      VObj ((fix go (l l' : list value) : list value :=
               match l, l' with
               | x :: r, x' :: r' => share x x' :: go r r'
               | _, _ => l
               end) s s')
  | _, _ => old
  end.

(** Entry [i] of a map as the production loop has it: the loop variable
    [std::pair<std::string,F> p] is a copy of the entry. *)
Definition entry_copy (i : nat) : ref :=
  {| ref_get := fun w => match w with VMap m => snd <$> m !! i | _ => None end;
     ref_put := fun x' w =>
       match w with
       | VMap m => VMap (alter (fun p => (p.1, share p.2 x')) i m)
       | _ => w
       end |}.

(** ** The dispatch ([rpoco::visit<F>], rpoco.hpp lines 92-259) *)

Section dispatch.
Context {V : Type} `{!visitor V}.

(** The reflected classes of the program, by class name. *)
Variable decls : gmap string class_decl.

(** Value-initialisation [F()], as done by [new F()], [emplace_back()] and
    [std::map::operator[]]. *)
Definition value_init (F : shape) : option value :=
  match F with
  | SInt => Some (VInt 0)
  | SDouble => Some (VDouble 0%float)
  | SString => Some (VString EmptyString)
  | SChars sz => Some (VChars (replicate sz x00))
  | SVec _ => Some (VVec [])
  | SMap _ => Some (VMap [])
  | SPtr _ _ => Some (VPtr None)
  | SClass c => d ← decls !! c; Some (VObj (c_new d))
  | SNiltarget => Some VNil
  end.

(** Run [body] on the part of the visited object that [r] refers to and
    write the result back. *)
Definition zoom (r : ref) (body : V * state -> V * state) (st : V * state)
  : V * state :=
  match tgt st.2 with
  | None => st
  | Some whole =>
      match ref_get r whole with
      | None => (st.1, fail st.2)
      | Some part =>
          let st' := body (st.1, set_tgt (Some part) st.2) in
          (st'.1, set_tgt (part' ← tgt st'.2; Some (ref_put r part' whole)) st'.2)
      end
  end.

(** The lambda of [visit<niltarget>] (lines 168-172): it visits a fresh
    local [ntn]; the captured [nt] is not used.  [nil] stands for
    [rpoco::visit<niltarget>]. *)
Definition sink_callback (nil : V * option niltarget -> V * option niltarget)
    (propname : string) (st : V * option niltarget) : V * option niltarget :=
  match st.2 with
  | None => st
  | Some nt =>
      let st' := nil (st.1, Some Niltarget) in
      (st'.1, _ ← st'.2; Some nt)
  end.

(** [visit<niltarget>] (lines 147-175).  A [switch] with no matching case
    does nothing.  The locals [d], [b] and [str] are dropped after the leaf
    visit.  [n] bounds the depth of nested calls. *)
Fixpoint visit_niltarget (n : nat) (st : V * option niltarget)
  : V * option niltarget :=
  match n with
  | O => (st.1, None)
  | S n' =>
      match st.2 with
      | None => st
      | Some nt =>
          let '(vtn, v) := peek st.1 in
          match vtn with
          | vt_null => (visit_null v, Some nt)
          | vt_number => ((visit_double 0%float v).2, Some nt)
          | vt_bool => ((visit_bool false v).2, Some nt)
          | vt_string => ((visit_string EmptyString v).2, Some nt)
          | vt_array | vt_object =>
              (consume vtn (sink_callback (visit_niltarget n')) (v, Some nt)).2
          | vt_none | vt_error => (v, Some nt)
          end
      end
  end.

(** [field<F>::visit(v,p)] (lines 287-289), with [rec F] standing for
    [rpoco::visit<F>]. *)
Definition field_visit (rec : shape -> V * state -> V * state) (m : member)
    (st : V * state) : V * state :=
  zoom (slot (m_offset m)) (rec (m_type m)) st.

(** The lambda of the generic [visit<F>] (lines 97-107), for class [c]. *)
Definition class_callback (rec : shape -> V * state -> V * state)
    (nil : V * option niltarget -> V * option niltarget)
    (c : string) (n : string) (st : V * state) : V * state :=
  match tgt st.2 with
  | None => st
  | Some _ =>
      let ti := registry c (regs st.2) in
      if negb (has n ti) then
        let st' := nil (st.1, Some Niltarget) in
        (st'.1, match st'.2 with Some _ => st.2 | None => fail st.2 end)
      else
        let '(p, ti') := index_name n ti in
        let s := set_regs (<[c := ti']> (regs st.2)) st.2 in
        match deref p ti' with
        | None => (st.1, fail s)
        | Some m => field_visit rec m (st.1, s)
        end
  end.

(** One iteration of the production loop of [visit<F>] (lines 116-117):
    the visitor is handed the member's name by reference, then the member
    visits its field. *)
Definition class_produce_member (rec : shape -> V * state -> V * state)
    (c : string) (i : nat) (st : V * state) : V * state :=
  match tgt st.2 with
  | None => st
  | Some _ =>
      let ti := registry c (regs st.2) in
      match index_int (Z.of_nat i) ti with
      | Some (Some j) =>
          match fields ti !! j with
          | None => (st.1, fail st.2)
          | Some m =>
              let '(name', v) := visit_string (m_name m) st.1 in
              let ti' := set_name j name' ti in
              let s := set_regs (<[c := ti']> (regs st.2)) st.2 in
              match index_int (Z.of_nat i) ti' ≫= (fun p => deref p ti') with
              | None => (v, fail s)
              | Some m' => field_visit rec m' (v, s)
              end
          end
      | _ => (st.1, fail st.2)
      end
  end.

(** The generic [visit<F>] (lines 92-121) for a class [c] that carries
    [RPOCO].  [size()] does not change while the loop runs, so the loop
    bound is read once. *)
Definition visit_class (rec : shape -> V * state -> V * state)
    (nil : V * option niltarget -> V * option niltarget)
    (c : string) (st : V * state) : V * state :=
  match tgt st.2 with
  | Some (VObj _) =>
      match d ← decls !! c; rpoco_type_info_get d (registry c (regs st.2)) with
      | None => (st.1, fail st.2)
      | Some ti =>
          let st1 := (st.1, set_regs (<[c := ti]> (regs st.2)) st.2) in
          let '(reading, st2) := consume vt_object (class_callback rec nil c) st1 in
          if reading then st2
          else
            let st3 := (produce_start vt_object st2.1, st2.2) in
            let st4 :=
              foldl (fun st i => class_produce_member rec c i st) st3
                    (seq 0 (Z.to_nat (size (registry c (regs st3.2))))) in
            (produce_end vt_object st4.1, st4.2)
      end
  | _ => (st.1, fail st.2)
  end.

(** The lambda of the map visit (lines 126-129): [visit<F>(v, mp[x])]. *)
Definition map_callback (rec : V * state -> V * state) (F : shape)
    (x : string) (st : V * state) : V * state :=
  match tgt st.2, value_init F with
  | Some (VMap mp), Some dflt =>
      zoom (entry x) rec
           (st.1, set_tgt (Some (VMap (map_subscript x dflt mp))) st.2)
  | None, _ => st
  | _, _ => (st.1, fail st.2)
  end.

(** Iteration [i] of the production loop of the map visit (lines
    136-139): the loop variable is a copy of the entry, so the key the
    visitor may write is lost, and of the mapped value only the pointees
    are the map's own. *)
Definition map_produce_entry (rec : V * state -> V * state)
    (i : nat) (st : V * state) : V * state :=
  match tgt st.2 with
  | None => st
  | Some (VMap m) =>
      match m !! i with
      | Some p =>
          let v := (visit_string p.1 st.1).2 in
          zoom (entry_copy i) rec (v, st.2)
      | None => (st.1, fail st.2)
      end
  | Some _ => (st.1, fail st.2)
  end.

(** [visit<std::map<std::string,F>>] (lines 124-142). *)
Definition visit_map (rec : V * state -> V * state) (F : shape)
    (st : V * state) : V * state :=
  match tgt st.2 with
  | Some (VMap _) =>
      let '(reading, st2) := consume vt_object (map_callback rec F) st in
      if reading then st2
      else
        let st3 := (produce_start vt_object st2.1, st2.2) in
        let st4 :=
          foldl (fun st i => map_produce_entry rec i st) st3
                (seq 0 (match tgt st3.2 with
                        | Some (VMap mp) => length mp
                        | _ => 0%nat
                        end)) in
        (produce_end vt_object st4.1, st4.2)
  | _ => (st.1, fail st.2)
  end.

(** The lambda of the vector visit (lines 180-184):
    [vp.emplace_back(); visit<F>(v, vp.back())]. *)
Definition vector_callback (rec : V * state -> V * state) (F : shape)
    (x : string) (st : V * state) : V * state :=
  match tgt st.2, value_init F with
  | Some (VVec vp), Some dflt =>
      zoom (elem (length vp)) rec
           (st.1, set_tgt (Some (VVec (vp ++ [dflt]))) st.2)
  | None, _ => st
  | _, _ => (st.1, fail st.2)
  end.

(** [visit<std::vector<F>>] (lines 178-195). *)
Definition visit_vector (rec : V * state -> V * state) (F : shape)
    (st : V * state) : V * state :=
  match tgt st.2 with
  | Some (VVec _) =>
      let '(reading, st2) := consume vt_array (vector_callback rec F) st in
      if reading then st2
      else
        let st3 := (produce_start vt_array st2.1, st2.2) in
        let st4 :=
          foldl (fun st i => zoom (elem i) rec st) st3
                (seq 0 (match tgt st3.2 with Some (VVec vp) => length vp | _ => 0%nat end)) in
        (produce_end vt_array st4.1, st4.2)
  | _ => (st.1, fail st.2)
  end.

(** [visit<F*>], [visit<std::shared_ptr<F>>] and
    [visit<std::unique_ptr<F>>] (lines 201-235): the three bodies are the
    same up to how the new object is stored.  The second [peek] is only
    evaluated when the first did not answer [vt_null]. *)
Definition visit_pointer (rec : V * state -> V * state) (F : shape)
    (st : V * state) : V * state :=
  match tgt st.2 with
  | Some (VPtr fp) =>
      let '(k1, v1) := peek st.1 in
      let '(wanted, v2) :=
        if bool_decide (k1 ≠ vt_null) then
          let '(k2, v2) := peek v1 in (bool_decide (k2 ≠ vt_none), v2)
        else (false, v1) in
      let s :=
        if wanted && bool_decide (fp = None) then
          {| regs := regs st.2; news := S (news st.2);
             tgt := x ← value_init F; Some (VPtr (Some x)) |}
        else st.2 in
      match tgt s with
      | Some (VPtr (Some _)) => zoom pointee_ref rec (v2, s)
      | Some (VPtr None) => (visit_null v2, s)
      | _ => (v2, fail s)
      end
  | _ => (st.1, fail st.2)
  end.

(** [visit<int>], [visit<double>], [visit<std::string>] and
    [visit<char[SZ]>] (lines 238-259): one leaf call each. *)
Definition visit_leaf_int (st : V * state) : V * state :=
  match tgt st.2 with
  | Some (VInt ip) =>
      let '(ip', v) := visit_int ip st.1 in (v, set_tgt (Some (VInt ip')) st.2)
  | _ => (st.1, fail st.2)
  end.

Definition visit_leaf_double (st : V * state) : V * state :=
  match tgt st.2 with
  | Some (VDouble ip) =>
      let '(ip', v) := visit_double ip st.1 in (v, set_tgt (Some (VDouble ip')) st.2)
  | _ => (st.1, fail st.2)
  end.

Definition visit_leaf_string (st : V * state) : V * state :=
  match tgt st.2 with
  | Some (VString str) =>
      let '(str', v) := visit_string str st.1 in (v, set_tgt (Some (VString str')) st.2)
  | _ => (st.1, fail st.2)
  end.

Definition visit_leaf_chars (SZ : nat) (st : V * state) : V * state :=
  match tgt st.2 with
  | Some (VChars str) =>
      let '(str', v) := visit_chars str SZ st.1 in (v, set_tgt (Some (VChars str')) st.2)
  | _ => (st.1, fail st.2)
  end.

(** [visit<niltarget>] on a member of type [niltarget]. *)
Definition visit_nil_member (nil : V * option niltarget -> V * option niltarget)
    (st : V * state) : V * state :=
  match tgt st.2 with
  | Some VNil =>
      let st' := nil (st.1, Some Niltarget) in
      (st'.1, match st'.2 with Some _ => st.2 | None => fail st.2 end)
  | _ => (st.1, fail st.2)
  end.

(** [rpoco::visit<F>(v,f)]: template resolution on the static type [F].
    [n] bounds the depth of nested [visit] calls; a call that would go
    deeper has no result. *)
Fixpoint visit (n : nat) (F : shape) (st : V * state) {struct n} : V * state :=
  match n with
  | O => (st.1, fail st.2)
  | S n' =>
      match tgt st.2 with
      | None => st
      | Some _ =>
          match F with
          | SInt => visit_leaf_int st
          | SDouble => visit_leaf_double st
          | SString => visit_leaf_string st
          | SChars SZ => visit_leaf_chars SZ st
          | SVec F' => visit_vector (visit n' F') F' st
          | SMap F' => visit_map (visit n' F') F' st
          | SPtr _ F' => visit_pointer (visit n' F') F' st
          | SClass c => visit_class (visit n') (visit_niltarget n') c st
          | SNiltarget => visit_nil_member (visit_niltarget n') st
          end
      end
  end.

End dispatch.

(** ** Visitors *)

(** *** The calls a dispatch makes *)

(** One constructor per operation of [visitor] that a producing dispatch
    calls, with the arguments of the call. *)
Inductive call :=
| CStart (vt : visit_type)
| CEnd (vt : visit_type)
| CNull
| CInt (x : Z)
| CDouble (x : double)
| CString (k : string)
| CChars (buf : list byte) (sz : nat).

(** A visitor that records the calls made on it, in order, and otherwise
    behaves as the header asks of a querying visitor: [peek] answers
    [vt_none], [consume] returns false without running the callback, and
    the referenced values are left alone. *)
Definition recorder := list call.

#[global] Instance recorder_visitor : visitor recorder := {|
  peek := fun v => (vt_none, v);
  consume := fun T vt out st => (false, st);
  produce_start := fun vt v => (v ++ [CStart vt])%list;
  produce_end := fun vt v => (v ++ [CEnd vt])%list;
  visit_null := fun v => (v ++ [CNull])%list;
  visit_bool := fun b v => (b, v);
  visit_int := fun x v => (x, (v ++ [CInt x])%list);
  visit_double := fun x v => (x, (v ++ [CDouble x])%list);
  visit_string := fun k v => (k, (v ++ [CString k])%list);
  visit_chars := fun buf sz v => (buf, (v ++ [CChars buf sz])%list)
|}.

(** *** A document format *)

#[local] Unset Elimination Schemes.

(** The documents of the format: the closed set of kinds of [visit_type]
    that carry data. *)
Inductive doc :=
| DNull
| DBool (b : bool)
| DInt (i : Z)
| DDouble (d : double)
| DString (s : string)
| DArray (items : list doc)
| DObject (entries : list (string * doc)).

#[local] Set Elimination Schemes.

(** The number unit of an integer, read as a [double]. *)
Definition double_of_int (i : Z) : double :=
  if bool_decide (i < 0) then (- PrimFloat.of_uint63 (Uint63.of_Z (- i)))%float
  else PrimFloat.of_uint63 (Uint63.of_Z i).

(** An open composite of the document writer: its kind, the key waiting
    for its value (objects only) and the children written so far. *)
Record frame := Frame {
  f_kind : visit_type;
  f_key : option string;
  f_items : list (string * doc)
}.

(** Appending a finished document to an open composite.  In an object the
    units alternate between key and value: a string unit written while no
    key is waiting is the key of the next child. *)
Definition frame_add (d : doc) (f : frame) : frame :=
  if bool_decide (f_kind f = vt_object) then
    match f_key f, d with
    | Some k, _ => {| f_kind := f_kind f; f_key := None;
                      f_items := f_items f ++ [(k, d)] |}
    | None, DString s => {| f_kind := f_kind f; f_key := Some s;
                            f_items := f_items f |}
    | None, _ => f
    end
  else {| f_kind := f_kind f; f_key := None;
          f_items := f_items f ++ [(EmptyString, d)] |}.

(** Modelled from the spec: the header declares [visitor] with pure virtual
    operations only, and its implementations (the format collaborators,
    [rpoco/rpocojson.hpp] that test.cpp includes) are not among the
    sources.  This is the writing visitor of the spec's visitor contract,
    for the document format above: [peek] answers [vt_none], [consume]
    returns false without calling the callback, [produce_start] and
    [produce_end] bracket a composite, and a leaf operation writes its
    unit and leaves the referenced value alone.  The state is the stack of
    open composites, innermost first, over a root that collects the
    finished documents. *)
Definition doc_writer := list frame.

Definition doc_add (d : doc) (w : doc_writer) : doc_writer :=
  match w with
  | f :: r => frame_add d f :: r
  | [] => []
  end.

Definition frame_close (f : frame) : doc :=
  if bool_decide (f_kind f = vt_object) then DObject (f_items f)
  else DArray (f_items f).*2.

#[global] Instance doc_writer_visitor : visitor doc_writer := {|
  peek := fun v => (vt_none, v);
  consume := fun T vt out st => (false, st);
  produce_start := fun vt v =>
    {| f_kind := vt; f_key := None; f_items := [] |} :: v;
  produce_end := fun vt v =>
    match v with
    | f :: r => doc_add (frame_close f) r
    | [] => []
    end;
  visit_null := doc_add DNull;
  visit_bool := fun b v => (b, doc_add (DBool b) v);
  visit_int := fun x v => (x, doc_add (DInt x) v);
  visit_double := fun x v => (x, doc_add (DDouble x) v);
  visit_string := fun k v => (k, doc_add (DString k) v);
  visit_chars := fun buf sz v => (buf, doc_add (DString (string_of_list_byte buf)) v)
|}.

(** A writer with nothing written, and the documents a writer finished. *)
Definition doc_writer_init : doc_writer :=
  [{| f_kind := vt_none; f_key := None; f_items := [] |}].


(** Modelled from the spec: the reading visitor of the same format, absent
    from the sources like the writer.  It holds the unread documents at the
    current nesting level and an [ok] flag; once the input disagrees with
    what is asked for, the flag is cleared and the visitor does nothing
    more.  [consume] runs the callback once per child, in the order of the
    document, with the child as the only unread unit, and expects the
    callback to read that unit.  A [double] is read from either number
    unit, a character buffer from a string of its size. *)
Record reader := Reader {
  input : list doc;
  ok : bool
}.

Definition reader_of (l : list doc) : reader := {| input := l; ok := true |}.

Definition advance (r : list doc) (v : reader) : reader :=
  {| input := r; ok := ok v |}.

Definition reject (v : reader) : reader :=
  {| input := input v; ok := false |}.

(** The kind of the next unread unit. *)
Definition reader_peek (v : reader) : visit_type :=
  if ok v then
    match input v with
    | DObject _ :: _ => vt_object
    | DArray _ :: _ => vt_array
    | DNull :: _ => vt_null
    | DBool _ :: _ => vt_bool
    | DInt _ :: _ | DDouble _ :: _ => vt_number
    | DString _ :: _ => vt_string
    | [] => vt_error
    end
  else vt_error.

(** Reading one leaf: [pick] selects the payload of a matching unit. *)
Definition reader_leaf {A : Type} (pick : doc -> option A) (old : A)
    (v : reader) : A * reader :=
  if ok v then
    match input v with
    | e :: r =>
        match pick e with
        | Some a => (a, advance r v)
        | None => (old, reject v)
        end
    | [] => (old, reject v)
    end
  else (old, v).

(** The children of a composite of kind [vt], each with the name it is
    announced by. *)
Definition children (vt : visit_type) (d : doc) : option (list (string * doc)) :=
  match vt, d with
  | vt_object, DObject entries => Some entries
  | vt_array, DArray items => Some ((fun d => (EmptyString, d)) <$> items)
  | _, _ => None
  end.

(** One child: the callback runs with the child as the unread input and
    has to read it; a callback that returns with the child, or a part of
    it, still unread leaves the reader out of step with its input, and the
    reader rejects. *)
Definition reader_child {T : Type} (out : string -> reader * T -> reader * T)
    (st : reader * T) (kd : string * doc) : reader * T :=
  if ok st.1 then
    let st' := out kd.1 (advance [kd.2] st.1, st.2) in
    if bool_decide (input st'.1 = []) then st' else (reject st'.1, st'.2)
  else st.

Definition reader_consume {T : Type} (vt : visit_type)
    (out : string -> reader * T -> reader * T) (st : reader * T)
  : bool * (reader * T) :=
  if ok st.1 then
    match input st.1 with
    | d :: r =>
        match children vt d with
        | Some kds =>
            let st' := foldl (reader_child out) st kds in
            (true, (advance r st'.1, st'.2))
        | None => (true, (reject st.1, st.2))
        end
    | [] => (true, (reject st.1, st.2))
    end
  else (true, st).

#[global] Instance reader_visitor : visitor reader := {|
  peek := fun v => (reader_peek v, v);
  consume := @reader_consume;
  produce_start := fun vt v => v;
  produce_end := fun vt v => v;
  visit_null := fun v =>
    (reader_leaf (fun e => match e with DNull => Some tt | _ => None end) tt v).2;
  visit_bool :=
    reader_leaf (fun e => match e with DBool b => Some b | _ => None end);
  visit_int :=
    reader_leaf (fun e => match e with DInt i => Some i | _ => None end);
  visit_double :=
    reader_leaf (fun e => match e with
                          | DDouble d => Some d
                          | DInt i => Some (double_of_int i)
                          | _ => None end);
  visit_string :=
    reader_leaf (fun e => match e with DString s => Some s | _ => None end);
  visit_chars := fun buf sz =>
    reader_leaf (fun e => match e with
                          | DString s =>
                              if bool_decide (String.length s = sz)
                              then Some (list_byte_of_string s) else None
                          | _ => None end) buf
|}.

(** ** The classes of test.cpp *)

Definition Ser1 : class_decl :=
  {| c_args := "x"; c_members := [(0%nat, SInt)]; c_new := [VInt 0] |}.

Definition Ser2 : class_decl :=
  {| c_args := "a,sub";
     c_members := [(0%nat, SInt); (1%nat, SClass "Ser1")];
     c_new := [VInt 0; VObj [VInt 0]] |}.

Definition Ser2P : class_decl :=
  {| c_args := "a,sub";
     c_members := [(0%nat, SInt); (1%nat, SPtr raw_ptr (SClass "Ser1"))];
     c_new := [VInt 0; VPtr None] |}.

Definition SerVI : class_decl :=
  {| c_args := "ints"; c_members := [(0%nat, SVec SInt)]; c_new := [VVec []] |}.

(** A class that lists its member [x] twice. *)
Definition Twice : class_decl :=
  {| c_args := "x, x"; c_members := [(0%nat, SInt); (0%nat, SInt)];
     c_new := [VInt 0] |}.

Definition test_decls : gmap string class_decl :=
  <["Ser1" := Ser1]> (<["Ser2" := Ser2]> (<["Ser2P" := Ser2P]> (<["SerVI" := SerVI]> ∅))).

(** Before the first [visit]: no registry built, nothing allocated. *)
Definition start (x : value) : state :=
  {| regs := ∅; news := 0; tgt := Some x |}.

(** The calls a production makes, from a fresh process. *)
Definition calls (decls : gmap string class_decl) (n : nat) (F : shape)
    (x : value) : recorder * state :=
  visit decls n F (([] : recorder), start x).

(** [to_json(&x)] in the document format. *)
Definition produce (decls : gmap string class_decl) (n : nat) (F : shape)
    (x : value) : doc_writer * state :=
  visit decls n F (doc_writer_init, start x).

(** [parse(str,x)] in the document format. *)
Definition consume_into (decls : gmap string class_decl) (n : nat) (F : shape)
    (d : doc) (x : value) : reader * state :=
  visit decls n F (reader_of [d], start x).

(** ** Specification vocabulary *)

(** The registry of a class right after its first [rpoco_type_info_get]. *)
Definition built (d : class_decl) : option type_info :=
  rpoco_type_info_get d fresh_type_info.

(** The members of a class in the order the [RPOCO] argument list names
    them: the k-th argument with the k-th extracted name. *)
Definition declared (d : class_decl) : list member :=
  zip_with (fun name '(off, H) => {| m_name := name; m_offset := off; m_type := H |})
           (extract_macro_names (c_args d)) (c_members d).

(** The position, counted from [base], of the last member of [l] that is
    named [n]. *)
Fixpoint last_named (n : string) (l : list member) (base : nat) : option nat :=
  match l with
  | [] => None
  | m :: r =>
      match last_named n r (S base) with
      | Some j => Some j
      | None => if decide (m_name m = n) then Some base else None
      end
  end.

(** The name table points every name at the last member that carries it. *)
Definition names_resolve (t : type_info) : Prop :=
  ∀ n, m_named_fields t !! n = Some <$> last_named n (fields t) 0.

(** *** Producing visitors *)

(** What the header asks of a visitor that is queried for data: [peek]
    answers [vt_none], [consume] declines without running the callback,
    and a leaf operation does not write through its reference. *)
Class producer (V : Type) `{!visitor V} : Prop := {
  producer_peek : ∀ v : V, peek v = (vt_none, v);
  producer_consume : ∀ (T : Type) vt (out : string → V * T → V * T) st,
      consume vt out st = (false, st);
  producer_int : ∀ x (v : V), (visit_int x v).1 = x;
  producer_double : ∀ x (v : V), (visit_double x v).1 = x;
  producer_string : ∀ k (v : V), (visit_string k v).1 = k;
  producer_chars : ∀ buf sz (v : V), (visit_chars buf sz v).1 = buf
}.

(** Making a recorded call on a visitor. *)
Definition play_call {V : Type} `{!visitor V} (c : call) (v : V) : V :=
  match c with
  | CStart vt => produce_start vt v
  | CEnd vt => produce_end vt v
  | CNull => visit_null v
  | CInt x => (visit_int x v).2
  | CDouble x => (visit_double x v).2
  | CString k => (visit_string k v).2
  | CChars buf sz => (visit_chars buf sz v).2
  end.

Definition play {V : Type} `{!visitor V} (cs : list call) (v : V) : V :=
  foldl (fun v c => play_call c v) v cs.

#[global] Arguments play : simpl never.

Section semantics.
Variable decls : gmap string class_decl.

(** The calls that producing [x] at static type [F] makes, as a function
    of the value alone; [None] when the nesting is deeper than [n] or the
    value does not have the layout of [F]. *)
Fixpoint trace (n : nat) (F : shape) (x : value) : option (list call) :=
  match n with
  | O => None
  | S n' =>
      match F, x with
      | SInt, VInt i => Some [CInt i]
      | SDouble, VDouble d => Some [CDouble d]
      | SString, VString s => Some [CString s]
      | SChars sz, VChars b => Some [CChars b sz]
      | SVec F', VVec l =>
          cs ← mapM (trace n' F') l;
          Some (CStart vt_array :: concat cs ++ [CEnd vt_array])
      | SMap F', VMap mp =>
          cs ← mapM (fun p : string * value =>
                       c ← trace n' F' p.2; Some (CString p.1 :: c)) mp;
          Some (CStart vt_object :: concat cs ++ [CEnd vt_object])
      | SPtr _ F', VPtr None => Some [CNull]
      | SPtr _ F', VPtr (Some x') => trace n' F' x'
      | SClass c, VObj slots =>
          d ← decls !! c;
          ti ← built d;
          cs ← mapM (fun m : member =>
                       x' ← slots !! m_offset m;
                       c ← trace n' (m_type m) x';
                       Some (CString (m_name m) :: c))
                    (take (Z.to_nat (size ti)) (fields ti));
          Some (CStart vt_object :: concat cs ++ [CEnd vt_object])
      | SNiltarget, VNil => match n' with O => None | S _ => Some [] end
      | _, _ => None
      end
  end.

(** Every registry in use is the one its class declaration builds. *)
Definition regs_ok (r : gmap string type_info) : Prop :=
  ∀ c ti, r !! c = Some ti → ∃ d, decls !! c = Some d ∧ built d = Some ti.

End semantics.

(** What it means for a run [res] of [visit] from visitor state [v] and
    program state [s] to agree with [trace]: the visitor received exactly
    the calls of the trace, the visited value and the allocation count are
    as before, and the registries in use grew consistently; a value with
    no trace leaves the run without result. *)
Definition produces {V : Type} `{!visitor V} (decls : gmap string class_decl)
    (tr : option (list call)) (v : V) (s : state) (res : V * state) : Prop :=
  match tr with
  | Some cs =>
      ∃ r', res = (play cs v, set_regs r' s) ∧ regs_ok decls r' ∧ regs s ⊆ r'
  | None => tgt res.2 = None
  end.

(** *** The visitor contract *)

(** What the dispatch relies on of any visitor.  The callback handed to
    [consume] is the visitor's only access to what the closure captured,
    so a property of the captured state that every run of the callback
    keeps holds after [consume].  And one visitor serves one direction: it
    either reads, and then [consume] never declines, or it is queried, and
    then it does not write through the reference of a string it is shown. *)
Class contract (V : Type) `{!visitor V} : Prop := {
  contract_consume :
    ∀ (T : Type) (Q : T → Prop) vt (out : string → V * T → V * T) (st : V * T),
      Q st.2 → (∀ k st', Q st'.2 → Q (out k st').2) → Q (consume vt out st).2.2;
  contract_direction :
    (∀ (T : Type) vt (out : string → V * T → V * T) (st : V * T),
        (consume vt out st).1 = true) ∨
    (∀ k (v : V), (visit_string k v).1 = k)
}.

(** The registries are consistent and extend [r0]. *)
Definition regs_kept (decls : gmap string class_decl)
    (r0 : gmap string type_info) (s : state) : Prop :=
  regs_ok decls (regs s) ∧ r0 ⊆ regs s.

(** A visitor that breaks the contract: it declines [consume] like a
    queried visitor, yet writes through every string reference. *)
Definition scribbler := unit.

#[global] Instance scribbler_visitor : visitor scribbler := {|
  peek := fun v => (vt_none, v);
  consume := fun T vt out st => (false, st);
  produce_start := fun vt v => v;
  produce_end := fun vt v => v;
  visit_null := fun v => v;
  visit_bool := fun b v => (b, v);
  visit_int := fun x v => (x, v);
  visit_double := fun x v => (x, v);
  visit_string := fun k v => ("scribble", v);
  visit_chars := fun buf sz v => (buf, v)
|}.

(** *** Documents *)

(** The nesting depth of a document: a scalar has depth 1. *)
Fixpoint doc_depth (d : doc) : nat :=
  match d with
  | DArray items =>
      S ((fix go (l : list doc) : nat :=
            match l with
            | [] => O
            | d :: l => Nat.max (doc_depth d) (go l)
            end) items)
  | DObject entries =>
      S ((fix go (l : list (string * doc)) : nat :=
            match l with
            | [] => O
            | kd :: l => Nat.max (doc_depth kd.2) (go l)
            end) entries)
  | _ => 1
  end.

(** *** Round trips *)

(** Static types whose production never starts with the null unit and
    never is empty: everything but a pointer and [niltarget]. *)
Definition opaque (F : shape) : bool :=
  match F with
  | SPtr _ _ | SNiltarget => false
  | _ => true
  end.

(** The keys of a [std::map] come in strictly increasing order. *)
Definition keys_sorted (mp : list (string * value)) : Prop :=
  ∀ i j p q, (i < j)%nat → mp !! i = Some p → mp !! j = Some q →
             String.ltb p.1 q.1 = true.

Section round_trip.
Variable decls : gmap string class_decl.

(** The document that producing [x] at static type [F] writes. *)
Fixpoint doc_of (n : nat) (F : shape) (x : value) : option doc :=
  match n with
  | O => None
  | S n' =>
      match F, x with
      | SInt, VInt i => Some (DInt i)
      | SDouble, VDouble d => Some (DDouble d)
      | SString, VString s => Some (DString s)
      | SChars sz, VChars b => Some (DString (string_of_list_byte b))
      | SVec F', VVec l => DArray <$> mapM (doc_of n' F') l
      | SMap F', VMap mp =>
          DObject <$> mapM (fun p : string * value =>
                              d ← doc_of n' F' p.2; Some (p.1, d)) mp
      | SPtr _ F', VPtr None => Some DNull
      | SPtr _ F', VPtr (Some x') => doc_of n' F' x'
      | SClass c, VObj slots =>
          d ← decls !! c;
          ti ← built d;
          DObject <$> mapM (fun m : member =>
                              x' ← slots !! m_offset m;
                              dd ← doc_of n' (m_type m) x';
                              Some (m_name m, dd))
                           (take (Z.to_nat (size ti)) (fields ti))
      | _, _ => None
      end
  end.

#[local] Unset Elimination Schemes.

(** A freshly constructed value: containers are empty, pointers are unset,
    an object has blank declared members and elsewhere what its
    constructor leaves. *)
Inductive blank : shape → value → Prop :=
| blank_int i : blank SInt (VInt i)
| blank_double x : blank SDouble (VDouble x)
| blank_string s : blank SString (VString s)
| blank_chars sz b : blank (SChars sz) (VChars b)
| blank_vec F : blank (SVec F) (VVec [])
| blank_map F : blank (SMap F) (VMap [])
| blank_ptr k F : blank (SPtr k F) (VPtr None)
| blank_class c d slots :
    decls !! c = Some d →
    length slots = length (c_new d) →
    (∀ off F, (off, F) ∈ c_members d → ∃ y, slots !! off = Some y ∧ blank F y) →
    (∀ i, i ∉ (c_members d).*1 → slots !! i = c_new d !! i) →
    blank (SClass c) (VObj slots).

(** A class declaration the round trip can rely on: the argument list
    yields a name per member, the names and the members are pairwise
    different, and a value-initialised instance is blank. *)
Record class_ok (c : string) (d : class_decl) : Prop := {
  ok_names : (length (c_members d) ≤ length (extract_macro_names (c_args d)))%nat;
  ok_size : Z.of_nat (length (c_members d)) < 2 ^ 31;
  ok_names_distinct :
    NoDup (take (length (c_members d)) (extract_macro_names (c_args d)));
  ok_members_distinct : NoDup (c_members d).*1;
  ok_new : blank (SClass c) (VObj (c_new d))
}.

Definition decls_ok : Prop := ∀ c d, decls !! c = Some d → class_ok c d.

(** A value of static type [F] that a document can carry: buffers have
    their size, map keys are sorted, a pointer does not point at a pointer
    or at a niltarget, and an object holds a transportable value in every
    declared member and elsewhere what its constructor leaves. *)
Inductive transportable : shape → value → Prop :=
| tr_int i : transportable SInt (VInt i)
| tr_double x : transportable SDouble (VDouble x)
| tr_string s : transportable SString (VString s)
| tr_chars sz b : length b = sz → transportable (SChars sz) (VChars b)
| tr_vec F l :
    Forall (transportable F) l → transportable (SVec F) (VVec l)
| tr_map F mp :
    keys_sorted mp → Forall (fun p => transportable F p.2) mp →
    transportable (SMap F) (VMap mp)
| tr_null k F : opaque F = true → transportable (SPtr k F) (VPtr None)
| tr_ptr k F x :
    opaque F = true → transportable F x →
    transportable (SPtr k F) (VPtr (Some x))
| tr_class c d slots :
    decls !! c = Some d →
    length slots = length (c_new d) →
    (∀ off F, (off, F) ∈ c_members d →
              ∃ x, slots !! off = Some x ∧ transportable F x) →
    (∀ i, i ∉ (c_members d).*1 → slots !! i = c_new d !! i) →
    transportable (SClass c) (VObj slots).

#[local] Set Elimination Schemes.

End round_trip.

(** The members [ms] of [cur] overwritten with those of [sx]. *)
Definition overlay (ms : list member) (sx cur : list value) : list value :=
  foldl (fun acc m =>
           match sx !! m_offset m with
           | Some x => <[m_offset m := x]> acc
           | None => acc
           end) cur ms.

(** A reading visit that takes the next document and leaves [x] in the
    visited object. *)
Definition reads_back (decls : gmap string class_decl) (n : nat) (F : shape)
    (x : value) (v : reader) (r : list doc) (s : state) : Prop :=
  (visit decls n F (v, s)).1 = advance r v ∧
  tgt (visit decls n F (v, s)).2 = Some x.

(** Every reading visit within depth [n] reads back what was produced. *)
Definition reads_back_all (decls : gmap string class_decl) (n : nat) : Prop :=
  ∀ F x y d (v : reader) r s,
    transportable decls F x → blank decls F y →
    doc_of decls n F x = Some d →
    regs_ok decls (regs s) → tgt s = Some y →
    ok v = true → input v = d :: r →
    reads_back decls n F x v r s.

(** The nesting depth of a value: the depth of [visit] calls that walking
    it takes at most. *)
Fixpoint value_depth (x : value) : nat :=
  match x with
  | VVec l =>
      S ((fix go (l : list value) : nat :=
            match l with
            | [] => O
            | x :: l => Nat.max (value_depth x) (go l)
            end) l)
  | VMap mp =>
      S ((fix go (l : list (string * value)) : nat :=
            match l with
            | [] => O
            | p :: l => Nat.max (value_depth p.2) (go l)
            end) mp)
  | VPtr (Some x) => S (value_depth x)
  | VObj slots =>
      S ((fix go (l : list value) : nat :=
            match l with
            | [] => O
            | x :: l => Nat.max (value_depth x) (go l)
            end) slots)
  | _ => 1
  end.



(** ** Concurrent first use *)

(** Where a thread stands in [rpoco_type_info_get] and the [init] it may
    call.  Every step is one access to shared memory; between two steps of
    one thread the others may run.  The flag is a sequentially consistent
    atomic and the table is only touched by the holder of [init_mutex] or
    after the flag was seen set, so the interleaving of these steps is all
    there is to the executions. *)
Inductive thread_pc :=
| pc_check                (* before [ti.is_init()] in [rpoco_type_info_get] *)
| pc_lock                 (* flag seen clear: before taking [init_mutex] *)
| pc_recheck              (* mutex held: before the second load of the flag *)
| pc_expand (idx : nat)   (* in [initfun]: before the [add] of argument [idx] *)
| pc_store                (* [initfun] returned: before [m_is_init.store(1)] *)
| pc_unlock               (* before the lock guard releases the mutex *)
| pc_done.                (* returned the address of [ti] *)

(** The threads and what they share: the static [ti], the holder of its
    [init_mutex], and a count of the times [initfun] was entered. *)
Record machine := Machine {
  threads : list thread_pc;
  shared_ti : type_info;
  mutex : option nat;
  init_runs : nat
}.

Definition machine_start (N : nat) : machine :=
  {| threads := replicate N pc_check; shared_ti := fresh_type_info;
     mutex := None; init_runs := 0 |}.

Definition set_flag (t : type_info) : type_info :=
  {| fields := fields t; m_named_fields := m_named_fields t; m_is_init := 1 |}.

(** One step of thread [t]; [None] when the thread has returned, waits for
    the mutex, or does not exist. *)
Definition thread_step (d : class_decl) (t : nat) (σ : machine) : option machine :=
  let goto pc := <[t := pc]> (threads σ) in
  pc ← threads σ !! t;
  match pc with
  | pc_check =>
      Some {| threads := goto (if bool_decide (is_init (shared_ti σ) = 0)
                               then pc_lock else pc_done);
              shared_ti := shared_ti σ; mutex := mutex σ;
              init_runs := init_runs σ |}
  | pc_lock =>
      match mutex σ with
      | None => Some {| threads := goto pc_recheck; shared_ti := shared_ti σ;
                        mutex := Some t; init_runs := init_runs σ |}
      | Some _ => None
      end
  | pc_recheck =>
      if bool_decide (m_is_init (shared_ti σ) = 0) then
        Some {| threads := goto (pc_expand 0); shared_ti := shared_ti σ;
                mutex := mutex σ; init_runs := S (init_runs σ) |}
      else
        Some {| threads := goto pc_unlock; shared_ti := shared_ti σ;
                mutex := mutex σ; init_runs := init_runs σ |}
  | pc_expand idx =>
      match c_members d !! idx with
      | Some (off, H) =>
          name ← extract_macro_names (c_args d) !! idx;
          Some {| threads := goto (pc_expand (S idx));
                  shared_ti := add {| m_name := name; m_offset := off;
                                      m_type := H |} (shared_ti σ);
                  mutex := mutex σ; init_runs := init_runs σ |}
      | None =>
          Some {| threads := goto pc_store; shared_ti := shared_ti σ;
                  mutex := mutex σ; init_runs := init_runs σ |}
      end
  | pc_store =>
      Some {| threads := goto pc_unlock; shared_ti := set_flag (shared_ti σ);
              mutex := mutex σ; init_runs := init_runs σ |}
  | pc_unlock =>
      Some {| threads := goto pc_done; shared_ti := shared_ti σ;
              mutex := None; init_runs := init_runs σ |}
  | pc_done => None
  end.

(** Running a schedule: the threads take their steps in the given order;
    a thread that cannot step when it is scheduled just loses its turn. *)
Definition run_schedule (d : class_decl) (sched : list nat) (σ : machine) : machine :=
  foldl (fun σ t => default σ (thread_step d t σ)) σ sched.

(** The program counters at which a thread holds the mutex. *)
Definition holds_mutex (pc : thread_pc) : bool :=
  match pc with
  | pc_recheck | pc_expand _ | pc_store | pc_unlock => true
  | _ => false
  end.

(** What holds in every state the threads can reach. *)
Record machine_inv (d : class_decl) (σ : machine) : Prop := {
  inv_holder : ∀ t pc, threads σ !! t = Some pc → holds_mutex pc = true →
                       mutex σ = Some t;
  inv_mutex : ∀ t, mutex σ = Some t →
                   ∃ pc, threads σ !! t = Some pc ∧ holds_mutex pc = true;
  inv_flag : m_is_init (shared_ti σ) = 0 ∨ m_is_init (shared_ti σ) = 1;
  inv_runs : (init_runs σ ≤ 1)%nat;
  inv_built : m_is_init (shared_ti σ) = 1 →
              built d = Some (shared_ti σ) ∧ init_runs σ = 1%nat;
  inv_done : ∀ t, threads σ !! t = Some pc_done → m_is_init (shared_ti σ) = 1;
  inv_unlock : ∀ t, threads σ !! t = Some pc_unlock →
                    m_is_init (shared_ti σ) = 1;
  inv_expand : ∀ t idx, threads σ !! t = Some (pc_expand idx) →
      m_is_init (shared_ti σ) = 0 ∧ init_runs σ = 1%nat ∧
      rpoco_type_info_expand fresh_type_info (extract_macro_names (c_args d)) 0
        (take idx (c_members d)) = Some (shared_ti σ);
  inv_store : ∀ t, threads σ !! t = Some pc_store →
      m_is_init (shared_ti σ) = 0 ∧ init_runs σ = 1%nat ∧
      rpoco_type_info_expand fresh_type_info (extract_macro_names (c_args d)) 0
        (c_members d) = Some (shared_ti σ);
  inv_idle : mutex σ = None → m_is_init (shared_ti σ) = 0 →
             shared_ti σ = fresh_type_info ∧ init_runs σ = 0%nat;
  inv_recheck : ∀ t, threads σ !! t = Some pc_recheck →
                m_is_init (shared_ti σ) = 0 →
                shared_ti σ = fresh_type_info ∧ init_runs σ = 0%nat
}.

#[global] Instance thread_pc_eq_dec : EqDecision thread_pc.
Proof. solve_decision. Defined.

(** All the threads have returned from [rpoco_type_info_get]. *)
Definition finished (σ : machine) : Prop :=
  Forall (fun pc => pc = pc_done) (threads σ).

(** A bound on the steps a thread still takes before it returns, and the
    sum over the threads. *)
Definition steps_left (d : class_decl) (pc : thread_pc) : nat :=
  match pc with
  | pc_check => length (c_members d) + 6
  | pc_lock => length (c_members d) + 5
  | pc_recheck => length (c_members d) + 4
  | pc_expand idx => (length (c_members d) - idx) + 3
  | pc_store => 2
  | pc_unlock => 1
  | pc_done => 0
  end.

Definition work_left (d : class_decl) (σ : machine) : nat :=
  sum_list (steps_left d <$> threads σ).

(** The state [N] threads reach from their first call under a schedule. *)
Definition reached (d : class_decl) (N : nat) (sched : list nat) : machine :=
  run_schedule d sched (machine_start N).

(** A schedule of three threads on [Ser2]: all three see the flag clear
    before thread 0 takes the mutex; thread 1 asks for the mutex while
    thread 0 holds it and loses its turn; threads 1 and 2 then take the
    mutex in turn (thread 2 waiting twice) and find the flag set. *)
Definition three_threads : list nat :=
  [0; 1; 2; 0; 1; 0; 0; 0; 0; 0; 0; 1; 2; 1; 2; 1; 2; 2; 2]%nat.




(** ** Vocabulary for the argument list of [RPOCO] *)

(** No character of [s] is a separator of [extract_macro_names]. *)
Fixpoint sep_free (s : string) : bool :=
  match s with
  | EmptyString => true
  | String c r => negb (is_sep c) && sep_free r
  end.

(** Every character of [s] is a separator. *)
Fixpoint all_seps (s : string) : bool :=
  match s with
  | EmptyString => true
  | String c r => is_sep c && all_seps r
  end.

(** A name as [extract_macro_names] can return it. *)
Definition is_name (s : string) : bool :=
  negb (bool_decide (s = EmptyString)) && sep_free s.

(** An argument list written out: each name with the run of separators
    that follows it. *)
Fixpoint joined (items : list (string * string)) : string :=
  match items with
  | [] => EmptyString
  | (name, seps) :: rest => name +:+ seps +:+ joined rest
  end.

(** The names are names, the runs are runs of separators, and only the
    last run may be empty. *)
Fixpoint well_joined (items : list (string * string)) : bool :=
  match items with
  | [] => true
  | (name, seps) :: rest =>
      is_name name && all_seps seps &&
      (negb (bool_decide (seps = EmptyString)) || bool_decide (rest = [])) &&
      well_joined rest
  end.

(** ** Counting the steps of a run *)

(** The number of turns of a schedule in which the scheduled thread did
    take a step. *)
Fixpoint steps_taken (d : class_decl) (sched : list nat) (σ : machine) : nat :=
  match sched with
  | [] => 0
  | t :: rest =>
      match thread_step d t σ with
      | Some σ' => S (steps_taken d rest σ')
      | None => steps_taken d rest σ
      end
  end.

(** ** Members outside the [RPOCO] list *)

(** The visited object is still an object of the same size whose members
    at the offsets not in [offs] are those of [slots]; nothing is asked of
    a run without result. *)
Definition outside_kept (offs : list nat) (slots : list value) (s : state) : Prop :=
  match tgt s with
  | None => True
  | Some (VObj slots') =>
      length slots' = length slots ∧ ∀ i, i ∉ offs → slots' !! i = slots !! i
  | Some _ => False
  end.

(** A class that lists one of its two members:
    [struct Partial { int x; int y; RPOCO(x) }]. *)
Definition Partial : class_decl :=
  {| c_args := "x"; c_members := [(0%nat, SInt)]; c_new := [VInt 0; VInt 0] |}.

Definition partial_decls : gmap string class_decl := {[ "Partial" := Partial ]}.

(** ** Values of a static type *)

(** Every class of the table yields a name for each argument of its
    macro, and has fewer than 2^31 of them. *)
Definition decls_cover (decls : gmap string class_decl) : Prop :=
  ∀ c d, decls !! c = Some d →
         (length (c_members d) ≤ length (extract_macro_names (c_args d)))%nat ∧
         Z.of_nat (length (c_members d)) < 2 ^ 31.

#[local] Unset Elimination Schemes.

(** [x] is laid out as an object of static type [F] is: a buffer has its
    size, the keys of a map are in order, a pointer is unset or holds an
    object of its pointee type, and an object of a class has the members
    of the class, with an object of its type at the offset of every
    argument of the macro. *)
Inductive typed (decls : gmap string class_decl) : shape → value → Prop :=
| ty_int i : typed decls SInt (VInt i)
| ty_double x : typed decls SDouble (VDouble x)
| ty_string s : typed decls SString (VString s)
| ty_chars sz b : length b = sz → typed decls (SChars sz) (VChars b)
| ty_vec F l : Forall (typed decls F) l → typed decls (SVec F) (VVec l)
| ty_map F mp :
    keys_sorted mp → Forall (fun p => typed decls F p.2) mp →
    typed decls (SMap F) (VMap mp)
| ty_null k F : typed decls (SPtr k F) (VPtr None)
| ty_ptr k F x : typed decls F x → typed decls (SPtr k F) (VPtr (Some x))
| ty_class c d slots :
    decls !! c = Some d →
    length slots = length (c_new d) →
    (∀ off F, (off, F) ∈ c_members d →
              ∃ x, slots !! off = Some x ∧ typed decls F x) →
    typed decls (SClass c) (VObj slots)
| ty_nil : typed decls SNiltarget VNil.



#[local] Set Elimination Schemes.

(** No pointer in [x] is set. *)
Fixpoint pointer_free (x : value) : bool :=
  match x with
  | VPtr None => true
  | VPtr (Some _) => false
  | VVec l => forallb pointer_free l
  | VMap m => forallb (fun p => pointer_free p.2) m
  | VObj l => forallb pointer_free l
  | _ => true
  end.

(** ** The map production loop *)

(** What the production loop keeps of a map, after its first [k]
    iterations: the size and the keys, the entries not visited yet, and
    of a visited entry all but what its copy shares. *)
Definition map_loop_inv (mp : list (string * value)) (k : nat) (s : state) : Prop :=
  tgt s = None ∨
  ∃ mp', tgt s = Some (VMap mp') ∧ length mp' = length mp ∧
         ∀ j p, mp !! j = Some p →
                ∃ p', mp' !! j = Some p' ∧ p'.1 = p.1 ∧
                      ((j < k)%nat → ∃ y', p'.2 = share p.2 y') ∧
                      ((k ≤ j)%nat → p'.2 = p.2).


(** * Properties *)

(** ** The registry *)

Lemma to_int_small (z : Z) : 0 <= z < 2 ^ 31 → to_int z = z.
Proof.
  intros Hz. unfold to_int.
  rewrite Z.mod_small by lia. lia.
Qed.

Lemma to_int_le (z : Z) : 0 <= z → to_int z <= z.
Proof.
  intros Hz. unfold to_int.
  pose proof (Z.mod_le (z + 2 ^ 31) (2 ^ 32)). lia.
Qed.

Lemma size_small (t : type_info) :
  Z.of_nat (length (fields t)) < 2 ^ 31 →
  Z.to_nat (size t) = length (fields t).
Proof.
  intros Hlen. unfold size. rewrite to_int_small by lia. lia.
Qed.

Lemma size_le (t : type_info) : (Z.to_nat (size t) ≤ length (fields t))%nat.
Proof.
  unfold size. pose proof (to_int_le (Z.of_nat (length (fields t)))). lia.
Qed.

Lemma index_int_lt (i : nat) (t : type_info) :
  (i < length (fields t))%nat → index_int (Z.of_nat i) t = Some (Some i).
Proof.
  intros Hi. unfold index_int.
  rewrite bool_decide_eq_true_2 by lia. by rewrite Nat2Z.id.
Qed.

Lemma has_true (id : string) (t : type_info) :
  has id t = true ↔ is_Some (m_named_fields t !! id).
Proof. unfold has. apply bool_decide_eq_true. Qed.

Lemma has_false (id : string) (t : type_info) :
  has id t = false ↔ m_named_fields t !! id = None.
Proof.
  unfold has. rewrite bool_decide_eq_false. symmetry. apply eq_None_not_Some.
Qed.

Lemma index_name_has (id : string) (t : type_info) :
  has id t = true →
  ∃ p, m_named_fields t !! id = Some p ∧ index_name id t = (p, t).
Proof.
  intros [p Hp]%has_true. exists p. split; [done |].
  unfold index_name. by rewrite Hp.
Qed.

Lemma last_named_snoc (n : string) (l : list member) (m : member) (base : nat) :
  last_named n (l ++ [m]) base =
  if decide (m_name m = n) then Some (base + length l)%nat
  else last_named n l base.
Proof.
  revert base. induction l as [| a l IH]; intros base; simpl.
  - rewrite Nat.add_0_r. by destruct (decide _).
  - rewrite IH. destruct (decide (m_name m = n)).
    + f_equal. lia.
    + done.
Qed.

Lemma last_named_Some (n : string) (l : list member) (base j : nat) :
  last_named n l base = Some j →
  (base ≤ j)%nat ∧ (∃ m, l !! (j - base)%nat = Some m ∧ m_name m = n) ∧
  ∀ k m, (j - base < k)%nat → l !! k = Some m → m_name m ≠ n.
Proof.
  revert base j. induction l as [| a l IH]; intros base j; simpl; [done |].
  destruct (last_named n l (S base)) as [j' |] eqn:Hl.
  - intros [= ->]. destruct (IH _ _ Hl) as (Hle & (m & Hm & Hn) & Hlast).
    split; [lia |]. split.
    + exists m. split; [| done].
      replace (j - base)%nat with (S (j - S base)) by lia. done.
    + intros k m' Hk Hm'. destruct k as [| k]; [lia |].
      simpl in Hm'. eapply Hlast; [| done]. lia.
  - destruct (decide (m_name a = n)) as [Ha |]; [| done].
    intros [= <-]. split; [lia |]. split.
    + exists a. by rewrite Nat.sub_diag.
    + intros k m' Hk Hm'. destruct k as [| k]; [lia |]. simpl in Hm'.
      clear -Hl Hm'. revert base k Hl Hm'.
      induction l as [| b l IH]; intros base k; simpl; [done |].
      destruct (last_named n l (S (S base))) eqn:Hl'; [done |].
      destruct (decide (m_name b = n)); [done |]. intros _.
      destruct k as [| k]; simpl; [naive_solver | eauto].
Qed.

Lemma last_named_None (n : string) (l : list member) (base : nat) :
  last_named n l base = None ↔ ∀ m, m ∈ l → m_name m ≠ n.
Proof.
  revert base. induction l as [| a l IH]; intros base; simpl.
  - split; [| done]. intros _ m Hm. by apply not_elem_of_nil in Hm.
  - destruct (last_named n l (S base)) eqn:Hl.
    + split; [done |]. intros Hall.
      assert (last_named n l (S base) = None) as Hn; [| congruence].
      apply IH. intros m Hm. apply Hall. by right.
    + destruct (decide (m_name a = n)) as [Ha | Ha].
      * split; [done |]. intros Hall. exfalso. eapply Hall; [left | done].
      * split; [| done]. intros _ m [-> | Hm]%elem_of_cons; [done |].
        by eapply IH.
Qed.

Lemma names_resolve_fresh : names_resolve fresh_type_info.
Proof. intros n. simpl. apply lookup_empty. Qed.

Lemma names_resolve_add (fb : member) (t : type_info) :
  names_resolve t → names_resolve (add fb t).
Proof.
  intros Ht n. simpl. rewrite last_named_snoc. simpl.
  destruct (decide (m_name fb = n)) as [-> | Hne].
  - by rewrite lookup_insert_eq.
  - rewrite lookup_insert_ne by done. apply Ht.
Qed.

(** What [rpoco_type_info_expand] does to a registry. *)
Lemma expand_spec (names : list string) (heads : list (nat * shape)) :
  ∀ (ti ti' : type_info) (idx : nat),
    rpoco_type_info_expand ti names idx heads = Some ti' →
    fields ti' =
      fields ti ++
      zip_with (fun name '(off, H) => {| m_name := name; m_offset := off; m_type := H |})
               (drop idx names) heads ∧
    (length heads ≤ length (drop idx names))%nat ∧
    m_is_init ti' = m_is_init ti ∧
    (names_resolve ti → names_resolve ti').
Proof.
  induction heads as [| [off H] rest IH]; intros ti ti' idx; simpl.
  - intros [= <-]. rewrite zip_with_nil_r, app_nil_r. repeat split; try done.
    lia.
  - destruct (names !! idx) as [name |] eqn:Hname; simpl; [| done].
    intros Hrest. destruct (IH _ _ _ Hrest) as (Hf & Hlen & Hi & Hr).
    rewrite (drop_S _ _ _ Hname). simpl. split.
    + rewrite Hf. simpl. by rewrite <- app_assoc.
    + split; [lia |]. split; [done |].
      intros Hti. by apply Hr, names_resolve_add.
Qed.

Lemma expand_total (names : list string) (heads : list (nat * shape)) :
  ∀ (ti : type_info) (idx : nat),
    (length heads ≤ length (drop idx names))%nat →
    is_Some (rpoco_type_info_expand ti names idx heads).
Proof.
  induction heads as [| [off H] rest IH]; intros ti idx Hlen; simpl; [done |].
  simpl in Hlen. rewrite length_drop in Hlen.
  destruct (lookup_lt_is_Some_2 names idx) as [name Hname]; [lia |].
  rewrite Hname. simpl. apply IH. rewrite length_drop. lia.
Qed.

(** The first [rpoco_type_info_get] yields the declared members in
    declaration order, a name table that resolves every name to the last
    member carrying it, and a set flag. *)
Lemma built_spec (d : class_decl) (ti : type_info) :
  built d = Some ti →
  fields ti = declared d ∧
  (length (c_members d) ≤ length (extract_macro_names (c_args d)))%nat ∧
  m_is_init ti = 1 ∧
  names_resolve ti.
Proof.
  unfold built, rpoco_type_info_get, init, rpoco_initfun. simpl.
  destruct (rpoco_type_info_expand _ _ _ _) as [t' |] eqn:Hexp; simpl; [| done].
  intros [= <-]. simpl.
  destruct (expand_spec _ _ _ _ _ Hexp) as (Hf & Hlen & _ & Hr).
  rewrite drop_0 in Hf, Hlen. simpl in Hf.
  repeat split; try done.
  intros n. simpl. apply (Hr names_resolve_fresh).
Qed.

Lemma built_total (d : class_decl) :
  (length (c_members d) ≤ length (extract_macro_names (c_args d)))%nat →
  is_Some (built d).
Proof.
  intros Hlen. unfold built, rpoco_type_info_get, init, rpoco_initfun. simpl.
  destruct (expand_total (extract_macro_names (c_args d)) (c_members d)
              fresh_type_info 0) as [t' Ht'].
  - by rewrite drop_0.
  - rewrite Ht'. simpl. eauto.
Qed.

Lemma declared_length (d : class_decl) :
  (length (c_members d) ≤ length (extract_macro_names (c_args d)))%nat →
  length (declared d) = length (c_members d).
Proof. intros Hlen. unfold declared. rewrite length_zip_with. lia. Qed.

(** Once the flag is set, [rpoco_type_info_get] and [init] return the
    registry as it is. *)
Lemma get_initialised (d : class_decl) (ti : type_info) :
  m_is_init ti ≠ 0 → rpoco_type_info_get d ti = Some ti.
Proof.
  intros Hi. unfold rpoco_type_info_get, is_init.
  by rewrite bool_decide_eq_false_2.
Qed.

Lemma init_initialised (f : type_info → option type_info) (ti : type_info) :
  m_is_init ti ≠ 0 → init f ti = Some ti.
Proof. intros Hi. unfold init. by rewrite bool_decide_eq_false_2. Qed.

Lemma get_built (d : class_decl) (ti : type_info) :
  built d = Some ti → rpoco_type_info_get d ti = Some ti.
Proof.
  intros (_ & _ & Hi & _)%built_spec. apply get_initialised. lia.
Qed.

Lemma set_name_same (i : nat) (m : member) (t : type_info) :
  fields t !! i = Some m → set_name i (m_name m) t = t.
Proof.
  intros Hm. unfold set_name. destruct t as [fs nf fl]. simpl in *. f_equal.
  apply list_eq. intros j. destruct (decide (i = j)) as [<- | Hne].
  - rewrite list_lookup_alter_eq, Hm. simpl. by destruct m.
  - by rewrite list_lookup_alter_ne.
Qed.

(** C9: for every registry [t] and name [n] that [has] does not know,
    [operator[](std::string)] returns a null [member] pointer and inserts an
    entry for [n]: afterwards [has(n)] is true.  The ordered field list is
    left as it was. *)
Theorem index_name_absent_inserts (t : type_info) (n : string) :
  has n t = false →
  (index_name n t).1 = None ∧
  has n (index_name n t).2 = true ∧
  (index_name n t).2 ≠ t ∧
  fields (index_name n t).2 = fields t.
Proof.
  intros Hn%has_false. unfold index_name. rewrite Hn. simpl.
  repeat split.
  - apply has_true. simpl. rewrite lookup_insert_eq. eauto.
  - intros Heq. apply (f_equal (fun t => m_named_fields t !! n)) in Heq.
    simpl in Heq. rewrite lookup_insert_eq, Hn in Heq. done.
Qed.

Lemma index_name_absent_inserts_witness :
  has "y" {| fields := [{| m_name := "x"; m_offset := 0; m_type := SInt |}];
             m_named_fields := {[ "x" := Some 0%nat ]};
             m_is_init := 1 |} = false ∧
  has "y" (index_name "y"
             {| fields := [{| m_name := "x"; m_offset := 0; m_type := SInt |}];
                m_named_fields := {[ "x" := Some 0%nat ]};
                m_is_init := 1 |}).2 = true.
Proof.
  split; [reflexivity |].
  apply (index_name_absent_inserts _ "y"). reflexivity.
Defined.

(** ** Producing *)

Lemma set_regs_same (s : state) : set_regs (regs s) s = s.
Proof. by destruct s. Qed.

Lemma set_tgt_same (s : state) : set_tgt (tgt s) s = s.
Proof. by destruct s. Qed.

Lemma mapM_fmap_option {A B C : Type} (f : B → option C) (g : A → B) (l : list A) :
  mapM f (g <$> l) = mapM (f ∘ g) l.
Proof. induction l as [| a l IH]; [done |]. cbn. by rewrite IH. Qed.


Lemma mapM_seq_take {A B : Type} (f : A → option B) (l : list A) (k : nat) :
  (k ≤ length l)%nat →
  mapM (fun i => x ← l !! i; f x) (seq 0 k) = mapM f (take k l).
Proof.
  revert k. induction l as [| a l IH]; intros k Hk; simpl in Hk.
  - by replace k with 0%nat by lia.
  - destruct k as [| k]; [done |]. cbn.
    rewrite <- fmap_S_seq, mapM_fmap_option.
    rewrite <- IH by lia. done.
Qed.

(** A copy that was left as it was made changes nothing. *)
Lemma share_same : ∀ x : value, share x x = x.
Proof.
  fix IH 1. intros [i | d | s | b | l | m | [y |] | l |]; simpl; try done.
  - f_equal. induction l as [| x r IHr]; [done |]. by rewrite IH, IHr.
  - f_equal. induction m as [| [k x] r IHr]; [done |]. simpl.
    rewrite String.eqb_refl. by rewrite IH, IHr.
  - f_equal. induction l as [| x r IHr]; [done |]. by rewrite IH, IHr.
Qed.

Lemma alter_same {A : Type} (f : A → A) (l : list A) (i : nat) (x : A) :
  l !! i = Some x → f x = x → alter f i l = l.
Proof.
  intros Hx Hf. apply list_eq. intros j. destruct (decide (i = j)) as [<- | Hne].
  - by rewrite list_lookup_alter_eq, Hx; simpl; rewrite Hf.
  - by rewrite list_lookup_alter_ne.
Qed.

Section producing.
Context {V : Type} `{!visitor V} `{!producer V}.
Variable decls : gmap string class_decl.

Lemma play_app (cs1 cs2 : list call) (v : V) :
  play (cs1 ++ cs2) v = play cs2 (play cs1 v).
Proof. unfold play. apply foldl_app. Qed.

Lemma play_cons (c : call) (cs : list call) (v : V) :
  play (c :: cs) v = play cs (play_call c v).
Proof. done. Qed.

Lemma play_snoc (c : call) (cs : list call) (v : V) :
  play (cs ++ [c]) v = play_call c (play cs v).
Proof. by rewrite play_app. Qed.

Lemma regs_ok_lookup (r : gmap string type_info) (c : string) (d : class_decl)
    (ti : type_info) :
  regs_ok decls r → decls !! c = Some d → built d = Some ti →
  rpoco_type_info_get d (registry c r) = Some ti ∧
  regs_ok decls (<[c := ti]> r) ∧ r ⊆ <[c := ti]> r.
Proof.
  intros Hr Hd Hb. unfold registry.
  destruct (r !! c) as [ti' |] eqn:Hc; simpl.
  - destruct (Hr _ _ Hc) as (d' & Hd' & Hb').
    assert (ti' = ti) as -> by congruence.
    rewrite insert_id by done. split; [by apply get_built |]. done.
  - split; [done |]. split.
    + intros c' ti' [[<- <-] | [_ Hin]]%lookup_insert_Some; eauto.
    + by apply insert_subseteq.
Qed.

Lemma regs_ok_lookup_fail (r : gmap string type_info) (c : string) (d : class_decl) :
  regs_ok decls r → decls !! c = Some d → built d = None →
  rpoco_type_info_get d (registry c r) = None.
Proof.
  intros Hr Hd Hb. unfold registry.
  destruct (r !! c) as [ti' |] eqn:Hc; simpl; [| done].
  destruct (Hr _ _ Hc) as (d' & Hd' & Hb'). congruence.
Qed.

(** Visiting a part in place, for a visit that agrees with a trace. *)
Lemma zoom_produces (r : ref) (body : V * state → V * state)
    (tr : option (list call)) (whole part : value) (v : V) (s : state) :
  tgt s = Some whole →
  ref_get r whole = Some part →
  ref_put r part whole = whole →
  produces decls tr v (set_tgt (Some part) s) (body (v, set_tgt (Some part) s)) →
  produces decls tr v s (zoom r body (v, s)).
Proof.
  intros Hs Hget Hput Hbody. unfold zoom. simpl. rewrite Hs, Hget.
  destruct tr as [cs |]; simpl in *.
  - destruct Hbody as (r' & -> & Hr' & Hsub). exists r'. simpl.
    rewrite Hput. split; [| done]. f_equal. destruct s; simpl in *. by subst.
  - by rewrite Hbody.
Qed.

Lemma zoom_produces_missing (r : ref) (body : V * state → V * state)
    (whole : value) (v : V) (s : state) :
  tgt s = Some whole → ref_get r whole = None →
  tgt (zoom r body (v, s)).2 = None.
Proof. intros Hs Hget. unfold zoom. simpl. by rewrite Hs, Hget. Qed.

(** A loop whose every iteration agrees with a trace agrees with the
    concatenation of the traces. *)
Lemma foldl_produces {A : Type} (step : V * state → A → V * state)
    (tr : A → option (list call)) (items : list A) :
  (∀ a v s, tgt s = None → tgt (step (v, s) a).2 = None) →
  ∀ (P : state → Prop),
  (∀ s r', P s → regs_ok decls r' → regs s ⊆ r' → P (set_regs r' s)) →
  (∀ a v s, a ∈ items → P s → regs_ok decls (regs s) →
            produces decls (tr a) v s (step (v, s) a)) →
  ∀ v s, P s → regs_ok decls (regs s) →
    produces decls (@concat call <$> mapM tr items) v s (foldl step (v, s) items).
Proof.
  intros Hfail P HP. induction items as [| a items IH]; intros Hstep v s Hs Hr.
  - simpl. exists (regs s). by rewrite set_regs_same.
  - cbn. specialize (Hstep a v s) as Ha. specialize (Ha ltac:(left) Hs Hr).
    destruct (tr a) as [cs |] eqn:Htr; cbn in *.
    + destruct Ha as (r1 & -> & Hr1 & Hsub1).
      specialize (IH (fun a' v' s' H => Hstep a' v' s' (list_elem_of_further _ _ _ H))
                     (play cs v) (set_regs r1 s) (HP _ _ Hs Hr1 Hsub1) Hr1).
      destruct (mapM tr items) as [css |]; cbn in *.
      * destruct IH as (r2 & -> & Hr2 & Hsub2). exists r2.
        rewrite play_app. split; [by destruct s |]. split; [done |].
        by etrans.
      * done.
    + clear IH Hstep. revert Ha. generalize (step (v, s) a). intros st Hst.
      induction items as [| b items IH] in st, Hst |- *; simpl; [done |].
      apply IH. destruct st as [v' s']. by apply Hfail.
Qed.

Lemma produces_prefix (c : call) (tr : option (list call)) (v : V) (s : state)
    (res : V * state) :
  produces decls tr (play_call c v) s res →
  produces decls (cons c <$> tr) v s res.
Proof.
  destruct tr as [cs |]; simpl; [| done].
  intros (r' & -> & Hr' & Hsub). by exists r'.
Qed.

Lemma produces_bracket (vt : visit_type) (m : option (list (list call))) (v : V)
    (s : state) (res : V * state) :
  produces decls (@concat call <$> m) (produce_start vt v) s res →
  produces decls (cs ← m; Some (CStart vt :: concat cs ++ [CEnd vt])) v s
           (produce_end vt res.1, res.2).
Proof.
  destruct m as [css |]; simpl; [| done].
  intros (r' & -> & Hr' & Hsub). exists r'. simpl.
  by rewrite play_cons, play_snoc.
Qed.

Lemma produces_leaf (c : call) (v v' : V) (s : state) (x : value) :
  regs_ok decls (regs s) → tgt s = Some x → v' = play_call c v →
  produces decls (Some [c]) v s (v', set_tgt (Some x) s).
Proof.
  intros Hr Hx ->. exists (regs s). split; [| done].
  rewrite set_regs_same, <- Hx, set_tgt_same. done.
Qed.

(** The production loop of a class, one member at a time. *)
Lemma class_produce_member_produces (rec : shape → V * state → V * state)
    (n : nat) (c : string) (ti : type_info) (slots : list value) (i : nat)
    (v : V) (s : state) :
  (∀ F x v s, regs_ok decls (regs s) → tgt s = Some x →
              produces decls (trace decls n F x) v s (rec F (v, s))) →
  (i < length (fields ti))%nat →
  tgt s = Some (VObj slots) → regs s !! c = Some ti → regs_ok decls (regs s) →
  produces decls
    (m ← fields ti !! i; x' ← slots !! m_offset m;
     cs ← trace decls n (m_type m) x'; Some (CString (m_name m) :: cs))
    v s (class_produce_member rec c i (v, s)).
Proof.
  intros Hrec Hi Hs Hc Hr. unfold class_produce_member. simpl. rewrite Hs.
  unfold registry. rewrite Hc. simpl.
  rewrite index_int_lt by done.
  destruct (lookup_lt_is_Some_2 (fields ti) i Hi) as [m Hm]. rewrite Hm. simpl.
  destruct (visit_string (m_name m) v) as [name' v1] eqn:Hvs.
  assert (name' = m_name m) as ->.
  { pose proof (producer_string (m_name m) v) as Hp. by rewrite Hvs in Hp. }
  rewrite (set_name_same _ _ _ Hm), (insert_id _ _ _ Hc).
  rewrite index_int_lt by done. simpl. unfold deref. simpl. rewrite Hm.
  rewrite set_regs_same. unfold field_visit.
  assert (v1 = play_call (CString (m_name m)) v) as -> by (simpl; by rewrite Hvs).
  destruct (slots !! m_offset m) as [x' |] eqn:Hx'; simpl.
  - apply (produces_prefix (CString (m_name m))).
    eapply zoom_produces; [done | done | |].
    + simpl. f_equal. by apply list_insert_id.
    + by apply Hrec.
  - by eapply zoom_produces_missing.
Qed.

(** A producing visitor receives exactly the calls of [trace], and the
    visit returns the value, the allocation count and every registry
    already built as they were. *)
Lemma visit_produces (n : nat) :
  ∀ F x (v : V) s,
    regs_ok decls (regs s) → tgt s = Some x →
    produces decls (trace decls n F x) v s (visit decls n F (v, s)).
Proof.
  induction n as [| n IH]; intros F x v s Hr Hx; [done |].
  cbn [visit trace]. simpl. rewrite Hx.
  destruct F as [| | | sz | F' | F' | k F' | c |].
  - unfold visit_leaf_int. simpl. rewrite Hx. destruct x; try done.
    destruct (visit_int i v) as [i' v'] eqn:Hv.
    pose proof (producer_int i v) as Hp. rewrite Hv in Hp. simpl in Hp. subst i'.
    apply produces_leaf; [done | done |]. simpl. by rewrite Hv.
  - unfold visit_leaf_double. simpl. rewrite Hx. destruct x; try done.
    destruct (visit_double d v) as [i' v'] eqn:Hv.
    pose proof (producer_double d v) as Hp. rewrite Hv in Hp. simpl in Hp. subst i'.
    apply produces_leaf; [done | done |]. simpl. by rewrite Hv.
  - unfold visit_leaf_string. simpl. rewrite Hx. destruct x; try done.
    destruct (visit_string s0 v) as [i' v'] eqn:Hv.
    pose proof (producer_string s0 v) as Hp. rewrite Hv in Hp. simpl in Hp. subst i'.
    apply produces_leaf; [done | done |]. simpl. by rewrite Hv.
  - unfold visit_leaf_chars. simpl. rewrite Hx. destruct x; try done.
    destruct (visit_chars buf sz v) as [i' v'] eqn:Hv.
    pose proof (producer_chars buf sz v) as Hp. rewrite Hv in Hp. simpl in Hp. subst i'.
    apply produces_leaf; [done | done |]. simpl. by rewrite Hv.
  - (* vector *)
    unfold visit_vector. simpl. rewrite Hx. destruct x as [| | | | l | | | |]; try done.
    rewrite producer_consume. simpl. rewrite Hx.
    apply (produces_bracket vt_array).
    assert (mapM (trace decls n F') l =
            mapM (fun i => x ← l !! i; trace decls n F' x) (seq 0 (length l))) as ->.
    { rewrite mapM_seq_take by done. by rewrite take_ge. }
    apply (foldl_produces (fun st i => zoom (elem i) (visit decls n F') st)
             (fun i => x ← l !! i; trace decls n F' x) _
             ) with (P := fun s => tgt s = Some (VVec l)); try done.
    + intros a v0 s0 Hs0. unfold zoom. simpl. by rewrite Hs0.
    + intros i v0 s0 Hi%elem_of_seq Hs0 Hr0.
      destruct (lookup_lt_is_Some_2 l i) as [xi Hxi]; [lia |]. rewrite Hxi. simpl.
      eapply zoom_produces; [done | done | |].
      * simpl. f_equal. by apply list_insert_id.
      * by apply IH.
  - (* map *)
    unfold visit_map. simpl. rewrite Hx. destruct x as [| | | | | mp | | |]; try done.
    rewrite producer_consume. simpl. rewrite Hx.
    apply (produces_bracket vt_object).
    assert (mapM (fun p : string * value =>
                    c ← trace decls n F' p.2; Some (CString p.1 :: c)) mp =
            mapM (fun i => p ← mp !! i; c ← trace decls n F' p.2;
                           Some (CString p.1 :: c)) (seq 0 (length mp))) as ->.
    { rewrite mapM_seq_take by done. by rewrite take_ge. }
    apply (foldl_produces (fun st i => map_produce_entry (visit decls n F') i st)
             (fun i => p ← mp !! i; c ← trace decls n F' p.2;
                       Some (CString p.1 :: c)))
      with (P := fun s => tgt s = Some (VMap mp)); try done.
    + intros a v0 s0 Hs0. unfold map_produce_entry. simpl. by rewrite Hs0.
    + intros i v0 s0 Hi%elem_of_seq Hs0 Hr0.
      destruct (lookup_lt_is_Some_2 mp i) as [p Hp]; [lia |]. rewrite Hp. simpl.
      unfold map_produce_entry. simpl. rewrite Hs0, Hp.
      apply (produces_prefix (CString p.1)).
      eapply (zoom_produces (entry_copy i) _ _ (VMap mp) p.2); [done | | |].
      * simpl. by rewrite Hp.
      * simpl. f_equal. apply (alter_same _ _ _ p Hp).
        rewrite share_same. by destruct p.
      * by apply IH.
  - (* pointers *)
    unfold visit_pointer. simpl. rewrite Hx. destruct x as [| | | | | | p | |]; try done.
    rewrite !producer_peek. simpl. rewrite Hx.
    destruct p as [x' |].
    + eapply zoom_produces; [done | done | done |]. by apply IH.
    + exists (regs s). by rewrite set_regs_same.
  - (* classes *)
    unfold visit_class. simpl. rewrite Hx.
    destruct x as [| | | | | | | slots |]; try done.
    destruct (decls !! c) as [d |] eqn:Hd; simpl; [| done].
    destruct (built d) as [ti |] eqn:Hb; simpl.
    + destruct (regs_ok_lookup _ _ _ _ Hr Hd Hb) as (-> & Hr1 & Hsub1).
      rewrite producer_consume. simpl.
      assert (registry c (<[c:=ti]> (regs s)) = ti) as Hreg.
      { unfold registry. by rewrite lookup_insert_eq. }
      rewrite !Hreg.
      assert (produces decls
                (cs ← mapM (fun m : member =>
                       x' ← slots !! m_offset m;
                       c ← trace decls n (m_type m) x';
                       Some (CString (m_name m) :: c))
                    (take (Z.to_nat (size ti)) (fields ti));
                 Some (CStart vt_object :: concat cs ++ [CEnd vt_object]))
                v (set_regs (<[c := ti]> (regs s)) s)
                (produce_end vt_object
                   (foldl (fun st i => class_produce_member (visit decls n) c i st)
                      (produce_start vt_object v, set_regs (<[c := ti]> (regs s)) s)
                      (seq 0 (Z.to_nat (size ti)))).1,
                 (foldl (fun st i => class_produce_member (visit decls n) c i st)
                      (produce_start vt_object v, set_regs (<[c := ti]> (regs s)) s)
                      (seq 0 (Z.to_nat (size ti)))).2)) as Hloop.
      { apply (produces_bracket vt_object).
        rewrite <- mapM_seq_take by apply size_le.
        apply (foldl_produces
                 (fun st i => class_produce_member (visit decls n) c i st)
                 (fun i => m ← fields ti !! i; x' ← slots !! m_offset m;
                           cs ← trace decls n (m_type m) x';
                           Some (CString (m_name m) :: cs)))
          with (P := fun s => tgt s = Some (VObj slots) ∧ regs s !! c = Some ti).
        - intros a v0 s0 Hs0. unfold class_produce_member. simpl. by rewrite Hs0.
        - intros s0 r' [Hs0 Hc0] _ Hsub. split; [done |]. simpl.
          by eapply lookup_weaken.
        - intros i v0 s0 Hi%elem_of_seq [Hs0 Hc0] Hr0.
          apply class_produce_member_produces; try done.
          pose proof (size_le ti). lia.
        - split; [done |]. simpl. apply lookup_insert_eq.
        - done. }
      destruct (mapM _ _) as [css |]; simpl in *; [| done].
      destruct Hloop as (r' & Heq & Hr' & Hsub'). exists r'.
      split; [| split; [done | by etrans]].
      rewrite Heq. by destruct s.
    + by rewrite (regs_ok_lookup_fail _ _ _ Hr Hd Hb).
  - (* niltarget members *)
    unfold visit_nil_member. simpl. rewrite Hx. destruct x; try done.
    destruct n as [| n']; [done |]. simpl. rewrite producer_peek. simpl.
    exists (regs s). by rewrite set_regs_same.
Qed.

End producing.

(** *** The two producing visitors *)

#[global] Instance recorder_producer : producer recorder.
Proof. by split. Qed.

#[global] Instance doc_writer_producer : producer doc_writer.
Proof. by split. Qed.

Lemma play_recorder (cs : list call) (v : recorder) : play cs v = v ++ cs.
Proof.
  revert v. induction cs as [| c cs IH]; intros v.
  - by rewrite app_nil_r.
  - rewrite play_cons, IH. rewrite (cons_middle c), app_assoc. f_equal.
    by destruct c.
Qed.

Lemma regs_ok_empty (decls : gmap string class_decl) : regs_ok decls ∅.
Proof. intros c ti Hc. by rewrite lookup_empty in Hc. Qed.

Lemma calls_trace (decls : gmap string class_decl) (n : nat) (F : shape)
    (x : value) (cs : list call) :
  trace decls n F x = Some cs →
  (calls decls n F x).1 = cs ∧ tgt (calls decls n F x).2 = Some x.
Proof.
  intros Htr. unfold calls.
  pose proof (visit_produces decls n F x ([] : recorder) (start x)
                (regs_ok_empty decls) eq_refl) as Hp.
  rewrite Htr in Hp. destruct Hp as (r' & -> & _ & _). simpl.
  by rewrite play_recorder.
Qed.

Lemma calls_no_trace (decls : gmap string class_decl) (n : nat) (F : shape)
    (x : value) :
  trace decls n F x = None → tgt (calls decls n F x).2 = None.
Proof.
  intros Htr. unfold calls.
  pose proof (visit_produces decls n F x ([] : recorder) (start x)
                (regs_ok_empty decls) eq_refl) as Hp.
  by rewrite Htr in Hp.
Qed.

Lemma declared_lookup (d : class_decl) (k : nat) (m : member) :
  declared d !! k = Some m ↔
  ∃ off H, extract_macro_names (c_args d) !! k = Some (m_name m) ∧
           c_members d !! k = Some (off, H) ∧
           m = {| m_name := m_name m; m_offset := off; m_type := H |}.
Proof.
  unfold declared. rewrite lookup_zip_with_Some. split.
  - intros (name & [off H] & -> & Hn & Hm). by exists off, H.
  - intros (off & H & Hn & Hm & Heq). exists (m_name m), (off, H).
    by rewrite <- Heq.
Qed.

Lemma value_depth_elem (l : list value) (x : value) (n : nat) :
  ((fix go (l : list value) : nat :=
      match l with
      | [] => O
      | x :: l => Nat.max (value_depth x) (go l)
      end) l ≤ n)%nat →
  x ∈ l → (value_depth x ≤ n)%nat.
Proof.
  induction l as [| a l IH]; intros Hn Hx; [by apply not_elem_of_nil in Hx |].
  apply elem_of_cons in Hx as [-> | Hx]; [lia |]. apply IH; [lia | done].
Qed.

Lemma value_depth_entry (l : list (string * value)) (p : string * value) (n : nat) :
  ((fix go (l : list (string * value)) : nat :=
      match l with
      | [] => O
      | p :: l => Nat.max (value_depth p.2) (go l)
      end) l ≤ n)%nat →
  p ∈ l → (value_depth p.2 ≤ n)%nat.
Proof.
  induction l as [| a l IH]; intros Hn Hx; [by apply not_elem_of_nil in Hx |].
  apply elem_of_cons in Hx as [-> | Hx]; [lia |]. apply IH; [lia | done].
Qed.

Lemma value_depth_slot (slots : list value) (i : nat) (x : value) (n : nat) :
  (value_depth (VObj slots) ≤ n)%nat → slots !! i = Some x →
  (value_depth x < n)%nat.
Proof.
  intros Hn Hx. destruct n as [| n]; [simpl in Hn; lia |].
  apply Nat.lt_succ_r. eapply value_depth_elem; [| by eapply list_elem_of_lookup_2].
  simpl in Hn. lia.
Qed.

(** Enough depth gives the calls: a value that is laid out as its static
    type says has a trace at every depth beyond its own nesting depth. *)
Lemma trace_total (decls : gmap string class_decl) (n : nat) :
  decls_cover decls →
  ∀ F x, typed decls F x → (value_depth x < n)%nat →
         is_Some (trace decls n F x).
Proof.
  intros Hdecls. induction n as [| n IH]; intros F x Hty Hn; [lia |].
  inversion Hty as [i | x0 | s0 | sz b Hb | F' l Hl | F' mp Hsorted Hmp
                    | k F' | k F' x' Hx'
                    | c dc sx Hdc Hlen Hmem |]; subst;
    cbn [trace]; try done.
  - assert (is_Some (mapM (trace decls n F') l)) as [cs ->]; [| done].
    apply mapM_is_Some, Forall_forall. intros x Hx. simpl.
    apply IH; [by eapply Forall_forall in Hl |].
    enough (value_depth x ≤ n - 1)%nat by (simpl in Hn; lia).
    eapply value_depth_elem; [| done]. simpl in Hn. lia.
  - assert (is_Some (mapM (fun p : string * value =>
                             c ← trace decls n F' p.2; Some (CString p.1 :: c)) mp))
      as [cs ->]; [| done].
    apply mapM_is_Some, Forall_forall. intros p Hp. simpl.
    destruct (IH F' p.2) as [d Hd].
    + by eapply Forall_forall in Hmp.
    + enough (value_depth p.2 ≤ n - 1)%nat by (simpl in Hn; lia).
      eapply value_depth_entry; [| done]. simpl in Hn. lia.
    + by rewrite Hd.
  - apply IH; [done |]. simpl in Hn. lia.
  - rewrite Hdc. cbn [mbind option_bind].
    destruct (Hdecls c dc Hdc) as [Hnames Hsmall].
    destruct (built_total dc Hnames) as [ti Hb].
    rewrite Hb. cbn [mbind option_bind].
    pose proof (built_spec dc ti Hb) as (Hf & _).
    assert (is_Some (mapM (fun m : member =>
                             x' ← sx !! m_offset m;
                             c ← trace decls n (m_type m) x';
                             Some (CString (m_name m) :: c))
                          (take (Z.to_nat (size ti)) (fields ti))))
      as [cs ->]; [| done].
    apply mapM_is_Some, Forall_forall. intros m Hm. simpl.
    apply elem_of_take in Hm as (j & Hj & _). rewrite Hf in Hj.
    apply declared_lookup in Hj as (off & H' & _ & Hmem_j & Heq).
    destruct (Hmem off H') as (xm & Hxm & Htym); [by eapply list_elem_of_lookup_2 |].
    rewrite Heq. simpl. rewrite Hxm. simpl.
    destruct (IH H' xm) as [d Hd]; [done | |].
    + enough (value_depth xm ≤ n - 1)%nat by (simpl in Hn; lia).
      eapply value_depth_elem; [| by eapply list_elem_of_lookup_2].
      simpl in Hn. lia.
    + by rewrite Hd.
  - destruct n as [| n]; [simpl in Hn; lia | done].
Qed.

(** The trace of an object: the bracket, and between its two halves, for
    each member the registry lists, the name followed by the calls of
    producing the member. *)
Lemma trace_class (decls : gmap string class_decl) (c : string) (d : class_decl)
    (ti : type_info) (n : nat) (slots : list value) (cs : list call) :
  decls !! c = Some d → built d = Some ti →
  Z.of_nat (length (fields ti)) < 2 ^ 31 →
  trace decls (S n) (SClass c) (VObj slots) = Some cs →
  cs =
    [CStart vt_object] ++
    concat ((fun m => CString (m_name m) ::
                      (calls decls n (m_type m)
                             (default VNil (slots !! m_offset m))).1)
            <$> fields ti) ++
    [CEnd vt_object] ∧
  ∀ m, m ∈ fields ti →
       ∃ x, slots !! m_offset m = Some x ∧
            tgt (calls decls n (m_type m) x).2 = Some x.
Proof.
  intros Hd Hb Hlen Htr.
  cbn [trace] in Htr. rewrite Hd in Htr. cbn [mbind option_bind] in Htr.
  rewrite Hb in Htr. cbn [mbind option_bind] in Htr.
  rewrite size_small in Htr by done.
  rewrite take_ge in Htr by done.
  destruct (mapM _ (fields ti)) as [css |] eqn:Hcss; simpl in Htr; [| done].
  injection Htr as <-. apply mapM_Some in Hcss. split.
  - simpl. do 2 f_equal. clear -Hcss.
    induction Hcss as [| m cs ms css Hm _ IH]; [done |].
    rewrite fmap_cons, !concat_cons. f_equal; [| done].
    destruct (slots !! m_offset m) as [xm |]; simpl in *; [| done].
    destruct (trace decls n (m_type m) xm) as [tr |] eqn:Htr; simpl in *; [| done].
    injection Hm as <-. f_equal. by destruct (calls_trace _ _ _ _ _ Htr) as [-> _].
  - intros m Hm. apply list_elem_of_lookup in Hm as [i Hi].
    destruct (Forall2_lookup_l _ _ _ _ _ Hcss Hi) as (cm & _ & Hcm).
    destruct (slots !! m_offset m) as [xm |]; simpl in *; [| done].
    destruct (trace decls n (m_type m) xm) as [tr |] eqn:Htr; simpl in *; [| done].
    exists xm. split; [done |]. by destruct (calls_trace _ _ _ _ _ Htr) as [_ ->].
Qed.

(** The classes of test.cpp name every argument of their macros. *)
Lemma test_decls_cover : decls_cover test_decls.
Proof.
  intros c d Hc. unfold test_decls in Hc.
  repeat (apply lookup_insert_Some in Hc as [[<- <-] | [_ Hc]]);
    [| | | | by rewrite lookup_empty in Hc];
    (split; [vm_compute; lia | done]).
Qed.

Lemma members_forall (l : list (nat * shape)) (P : nat → shape → Prop) :
  Forall (fun p => P p.1 p.2) l → ∀ off F, (off, F) ∈ l → P off F.
Proof. intros Hl off F Hin. by apply (proj1 (Forall_forall _ _) Hl (off, F)). Qed.

Lemma test_ser1_typed (i : Z) : typed test_decls (SClass "Ser1") (VObj [VInt i]).
Proof.
  apply (ty_class _ _ Ser1); [done | done |].
  apply members_forall. repeat constructor. simpl. eexists. split; [done | constructor].
Qed.

Lemma test_ser2_typed (a i : Z) :
  typed test_decls (SClass "Ser2") (VObj [VInt a; VObj [VInt i]]).
Proof.
  apply (ty_class _ _ Ser2); [done | done |].
  apply members_forall. repeat constructor; simpl; eexists; (split; [done |]).
  - constructor.
  - apply test_ser1_typed.
Qed.

Lemma last_named_unique (nm : string) (l : list member) (j : nat) (m : member) :
  l !! j = Some m → m_name m = nm →
  (∀ k m', (j < k)%nat → l !! k = Some m' → m_name m' ≠ nm) →
  last_named nm l 0 = Some j.
Proof.
  intros Hj Hm Hlast. destruct (last_named nm l 0) as [j' |] eqn:Hl.
  - apply last_named_Some in Hl as (_ & (m' & Hm' & Hn') & Hlast').
    rewrite Nat.sub_0_r in Hm', Hlast'. f_equal.
    destruct (decide (j' < j)%nat) as [Hlt |]; [by destruct (Hlast' _ _ Hlt Hj) |].
    destruct (decide (j < j')%nat) as [Hlt |]; [by destruct (Hlast _ _ Hlt Hm') |].
    lia.
  - rewrite last_named_None in Hl. destruct (Hl m); [| done].
    by eapply list_elem_of_lookup_2.
Qed.

(** C3: producing a record of a class with N declared members hands the
    visitor the object bracket and, in between, exactly N children: for
    each declared member, in the order of the [RPOCO] argument list, its
    name followed by the calls that produce its value.  The production
    has a result: it returns with the record and the allocation count as
    they were, and so does the production of every member.  This holds
    for every querying visitor and from every program state whose
    registries are as built, for a record laid out as its class says and
    nested no deeper than the recursion budget.  The name table
    [m_named_fields] plays no part. *)
Theorem produce_declaration_order {V : Type} `{!visitor V} `{!producer V}
    (decls : gmap string class_decl) (c : string) (d : class_decl) (n : nat)
    (slots : list value) (v : V) (s : state) :
  decls_cover decls →
  decls !! c = Some d →
  typed decls (SClass c) (VObj slots) →
  (value_depth (VObj slots) ≤ n)%nat →
  regs_ok decls (regs s) → tgt s = Some (VObj slots) →
  length (declared d) = length (c_members d) ∧
  (visit decls (S n) (SClass c) (v, s)).1 =
    play ([CStart vt_object] ++
          concat ((fun m => CString (m_name m) ::
                            (calls decls n (m_type m)
                                   (default VNil (slots !! m_offset m))).1)
                  <$> declared d) ++
          [CEnd vt_object]) v ∧
  tgt (visit decls (S n) (SClass c) (v, s)).2 = Some (VObj slots) ∧
  news (visit decls (S n) (SClass c) (v, s)).2 = news s ∧
  (∀ m, m ∈ declared d →
        ∃ x, slots !! m_offset m = Some x ∧
             tgt (calls decls n (m_type m) x).2 = Some x).
Proof.
  intros Hdecls Hd Hty Hn Hr Hs.
  destruct (Hdecls c d Hd) as [Hnames Hlen].
  pose proof (declared_length d Hnames) as Hdl. split; [done |].
  destruct (built_total d Hnames) as [ti Hb].
  destruct (built_spec d ti Hb) as (Hf & _).
  destruct (trace_total decls (S n) Hdecls _ _ Hty) as [cs Htr]; [lia |].
  pose proof (visit_produces decls (S n) (SClass c) (VObj slots) v s Hr Hs) as Hp.
  rewrite Htr in Hp. destruct Hp as (r' & -> & _ & _).
  destruct (trace_class decls c d ti n slots cs Hd Hb) as [-> Hmem];
    [by rewrite Hf, Hdl | done |].
  rewrite Hf in Hmem |- *. by destruct s.
Qed.

Lemma produce_declaration_order_witness :
  (calls test_decls 4 (SClass "Ser2") (VObj [VInt 2; VObj [VInt 1]])).1 =
    [CStart vt_object; CString "a"; CInt 2; CString "sub";
     CStart vt_object; CString "x"; CInt 1; CEnd vt_object;
     CEnd vt_object] ∧
  tgt (calls test_decls 4 (SClass "Ser2") (VObj [VInt 2; VObj [VInt 1]])).2 =
    Some (VObj [VInt 2; VObj [VInt 1]]).
Proof.
  destruct (produce_declaration_order test_decls "Ser2" Ser2 3
              [VInt 2; VObj [VInt 1]] ([] : recorder)
              (start (VObj [VInt 2; VObj [VInt 1]])))
    as (_ & Hcalls & Hres & _).
  - apply test_decls_cover.
  - reflexivity.
  - apply test_ser2_typed.
  - simpl. lia.
  - apply regs_ok_empty.
  - reflexivity.
  - split; [| exact Hres]. unfold calls. rewrite Hcalls. reflexivity.
Defined.

(** A known name is routed to the member the name table points at. *)
Lemma class_callback_known {V : Type} `{!visitor V}
    (rec : shape → V * state → V * state)
    (nil : V * option niltarget → V * option niltarget)
    (c nm : string) (ti : type_info) (j : nat) (mj : member) (v : V) (s : state) :
  is_Some (tgt s) → regs s !! c = Some ti →
  m_named_fields ti !! nm = Some (Some j) → fields ti !! j = Some mj →
  class_callback rec nil c nm (v, s) = field_visit rec mj (v, s).
Proof.
  intros [x Hx] Hc Hnm Hj.
  assert (has nm ti = true) as Hhas by (apply has_true; eauto).
  assert (index_name nm ti = (Some j, ti)) as Hidx.
  { unfold index_name. by rewrite Hnm. }
  assert (deref (Some j) ti = Some mj) as Hder by done.
  assert (registry c (regs s) = ti) as Hreg.
  { unfold registry. by rewrite Hc. }
  unfold class_callback. cbn [fst snd]. rewrite Hx, Hreg, Hhas, Hidx. cbn [negb].
  by rewrite Hder, (insert_id _ _ _ Hc), set_regs_same.
Qed.

(** C10: when the [RPOCO] argument list names two members alike (positions
    [i] < [j], [j] the last of that name), the registry is built all the
    same; the ordered field list holds both descriptors and [size] counts
    both; the production of a record that is laid out as the class says
    returns with the record as it was, having emitted one child per
    argument, and the children at both positions carry the shared name,
    each followed by the calls of its own member; the name-indexed lookup
    and the consuming callback resolve the name to the member added
    last. *)
Theorem duplicate_names (decls : gmap string class_decl) (c : string)
    (d : class_decl) (i j : nat) (nm : string) :
  decls !! c = Some d →
  (length (c_members d) ≤ length (extract_macro_names (c_args d)))%nat →
  Z.of_nat (length (c_members d)) < 2 ^ 31 →
  (i < j < length (c_members d))%nat →
  extract_macro_names (c_args d) !! i = Some nm →
  extract_macro_names (c_args d) !! j = Some nm →
  (∀ k, (j < k < length (c_members d))%nat →
        extract_macro_names (c_args d) !! k ≠ Some nm) →
  ∃ ti mi mj,
    built d = Some ti ∧
    size ti = Z.of_nat (length (c_members d)) ∧
    fields ti !! i = Some mi ∧ fields ti !! j = Some mj ∧
    declared d !! i = Some mi ∧ declared d !! j = Some mj ∧
    m_name mi = nm ∧ m_name mj = nm ∧
    has nm ti = true ∧
    index_name nm ti = (Some j, ti) ∧
    (∀ n slots,
        decls_cover decls →
        typed decls (SClass c) (VObj slots) →
        (value_depth (VObj slots) ≤ n)%nat →
        ∃ children,
          (calls decls (S n) (SClass c) (VObj slots)).1 =
            [CStart vt_object] ++ concat children ++ [CEnd vt_object] ∧
          tgt (calls decls (S n) (SClass c) (VObj slots)).2 =
            Some (VObj slots) ∧
          length children = length (c_members d) ∧
          children !! i =
            Some (CString nm ::
                  (calls decls n (m_type mi)
                         (default VNil (slots !! m_offset mi))).1) ∧
          children !! j =
            Some (CString nm ::
                  (calls decls n (m_type mj)
                         (default VNil (slots !! m_offset mj))).1)) ∧
    (∀ (V : Type) (H : visitor V) rec nil (v : V) (s : state),
        is_Some (tgt s) → regs s !! c = Some ti →
        class_callback rec nil c nm (v, s) = field_visit rec mj (v, s)).
Proof.
  intros Hd Hnames Hlen [Hij Hj] Hni Hnj Hlast.
  destruct (built_total d Hnames) as [ti Hb].
  destruct (built_spec d ti Hb) as (Hf & _ & _ & Hres).
  pose proof (declared_length d Hnames) as Hdl.
  destruct (lookup_lt_is_Some_2 (declared d) i) as [mi Hmi]; [lia |].
  destruct (lookup_lt_is_Some_2 (declared d) j) as [mj Hmj]; [lia |].
  pose proof Hmi as (offi & Hi' & Hnmi & _ & _)%declared_lookup.
  pose proof Hmj as (offj & Hj' & Hnmj & _ & _)%declared_lookup.
  assert (m_name mi = nm) as Hmin by congruence.
  assert (m_name mj = nm) as Hmjn by congruence.
  assert (m_named_fields ti !! nm = Some (Some j)) as Hlook.
  { rewrite Hres, Hf. erewrite last_named_unique; [done | done | done |].
    intros k m' Hk Hm' Hn'.
    pose proof Hm' as (off & H' & Hnk & _ & _)%declared_lookup.
    apply (Hlast k); [| congruence].
    apply lookup_lt_Some in Hm'. lia. }
  exists ti, mi, mj. rewrite Hf.
  split; [done |]. split.
  { unfold size. rewrite Hf, Hdl. by apply to_int_small; lia. }
  do 6 (split; [done |]). split; [apply has_true; eauto |]. split.
  { unfold index_name. by rewrite Hlook. }
  split.
  - intros n slots Hdecls Hty Hn.
    destruct (trace_total decls (S n) Hdecls _ _ Hty) as [cs Htr]; [lia |].
    destruct (calls_trace _ _ _ _ _ Htr) as [-> ->].
    destruct (trace_class decls c d ti n slots cs Hd Hb) as [-> _];
      [by rewrite Hf, Hdl | done |].
    eexists. split; [done |]. split; [done |].
    rewrite length_fmap, Hf, Hdl. split; [done |].
    rewrite !list_lookup_fmap, Hmi, Hmj. simpl. by rewrite Hmin, Hmjn.
  - intros V H rec nil v s Hs Hc.
    eapply class_callback_known; [done | done | done |]. by rewrite Hf.
Qed.

Lemma duplicate_names_witness :
  ∃ ti mi mj children,
    built Twice = Some ti ∧
    size ti = 2 ∧
    fields ti !! 0%nat = Some mi ∧ fields ti !! 1%nat = Some mj ∧
    index_name "x" ti = (Some 1%nat, ti) ∧
    (calls {[ "Twice" := Twice ]} 3 (SClass "Twice") (VObj [VInt 5])).1 =
      [CStart vt_object] ++ concat children ++ [CEnd vt_object] ∧
    tgt (calls {[ "Twice" := Twice ]} 3 (SClass "Twice") (VObj [VInt 5])).2 =
      Some (VObj [VInt 5]) ∧
    children !! 0%nat = Some [CString "x"; CInt 5] ∧
    children !! 1%nat = Some [CString "x"; CInt 5].
Proof.
  destruct (duplicate_names {[ "Twice" := Twice ]} "Twice" Twice 0 1 "x")
    as (ti & mi & mj & Hb & Hsz & Hi & Hj & Hdi & Hdj & _ & _ & _ & Hix & Hprod & _).
  - reflexivity.
  - vm_compute. lia.
  - vm_compute. reflexivity.
  - vm_compute. lia.
  - reflexivity.
  - reflexivity.
  - intros k Hk. vm_compute in Hk. lia.
  - destruct (Hprod 2%nat [VInt 5]) as (children & Hc & Hres & _ & Hci & Hcj).
    + intros c d [<- <-]%lookup_singleton_Some. split; [vm_compute; lia | done].
    + apply (ty_class _ _ Twice); [done | done |].
      apply members_forall.
      repeat constructor; simpl; eexists; (split; [done | constructor]).
    + simpl. lia.
    + vm_compute in Hdi, Hdj. injection Hdi as <-. injection Hdj as <-.
      eexists ti, _, _, children.
      exact (conj Hb (conj Hsz (conj Hi (conj Hj (conj Hix
               (conj Hc (conj Hres (conj Hci Hcj)))))))).
Defined.

(** ** References, pointers and vectors *)

Lemma zoom_eq {V : Type} (r : ref) (body : V * state → V * state)
    (whole part : value) (v : V) (s : state) :
  tgt s = Some whole → ref_get r whole = Some part →
  zoom r body (v, s) =
    ((body (v, set_tgt (Some part) s)).1,
     set_tgt (x' ← tgt (body (v, set_tgt (Some part) s)).2;
              Some (ref_put r x' whole))
             (body (v, set_tgt (Some part) s)).2).
Proof. intros Hs Hget. unfold zoom. simpl. by rewrite Hs, Hget. Qed.

Lemma zoom_failed {V : Type} (r : ref) (body : V * state → V * state)
    (st : V * state) :
  tgt st.2 = None → zoom r body st = st.
Proof. intros Hs. unfold zoom. by rewrite Hs. Qed.

Lemma visit_pointer_alloc {V : Type} `{!visitor V}
    (decls : gmap string class_decl) (rec : V * state → V * state) (F : shape)
    (v v1 v2 : V) (k1 k2 : visit_type) (s : state) (x0 : value) :
  tgt s = Some (VPtr None) →
  peek v = (k1, v1) → k1 ≠ vt_null → peek v1 = (k2, v2) → k2 ≠ vt_none →
  value_init decls F = Some x0 →
  visit_pointer decls rec F (v, s) =
    ((rec (v2, {| regs := regs s; news := S (news s); tgt := Some x0 |})).1,
     set_tgt (x' ← tgt (rec (v2, {| regs := regs s; news := S (news s);
                                    tgt := Some x0 |})).2;
              Some (VPtr (Some x')))
             (rec (v2, {| regs := regs s; news := S (news s); tgt := Some x0 |})).2).
Proof.
  intros Hs Hp1 Hk1 Hp2 Hk2 Hinit. unfold visit_pointer.
  simpl. rewrite Hs, Hp1. rewrite bool_decide_eq_true_2 by done.
  rewrite Hp2. rewrite bool_decide_eq_true_2 by done. simpl.
  rewrite Hinit. simpl.
  by rewrite (zoom_eq pointee_ref _ (VPtr (Some x0)) x0).
Qed.

(** C5: the three pointer visits ([F*], [shared_ptr<F>], [unique_ptr<F>])
    behave alike.  (1) When the visitor announces null and the pointer is
    unset, the pointer stays unset, nothing is allocated and the null unit
    is visited.  (2) When the visitor announces a unit that is neither
    null nor none and the pointer is unset, exactly one instance is
    allocated, value-initialised, and then populated by the visit of its
    own type; the pointer owns the result.  (3) When the visitor is
    producing (it announces none) and the pointer is unset, null is
    emitted.  (4) A set pointer is never re-allocated: the visit recurses
    into the instance it holds. *)
Theorem pointer_semantics {V : Type} `{!visitor V}
    (decls : gmap string class_decl) (k : ptr_kind) (F : shape) (n : nat)
    (v : V) (s : state) :
  (∀ v1,
      tgt s = Some (VPtr None) → peek v = (vt_null, v1) →
      visit decls (S n) (SPtr k F) (v, s) = (visit_null v1, s)) ∧
  (∀ k1 v1 k2 v2 x0,
      tgt s = Some (VPtr None) →
      peek v = (k1, v1) → k1 ≠ vt_null → peek v1 = (k2, v2) → k2 ≠ vt_none →
      value_init decls F = Some x0 →
      ∃ st', st' = visit decls n F
                     (v2, {| regs := regs s; news := S (news s); tgt := Some x0 |}) ∧
             visit decls (S n) (SPtr k F) (v, s) =
               (st'.1, set_tgt (x' ← tgt st'.2; Some (VPtr (Some x'))) st'.2)) ∧
  (∀ v1 v2,
      tgt s = Some (VPtr None) →
      peek v = (vt_none, v1) → peek v1 = (vt_none, v2) →
      visit decls (S n) (SPtr k F) (v, s) = (visit_null v2, s)) ∧
  (∀ x k1 v1,
      tgt s = Some (VPtr (Some x)) → peek v = (k1, v1) →
      ∃ st', st' = visit decls n F
                     (if bool_decide (k1 ≠ vt_null) then (peek v1).2 else v1,
                      set_tgt (Some x) s) ∧
             news (set_tgt (Some x) s) = news s ∧
             visit decls (S n) (SPtr k F) (v, s) =
               (st'.1, set_tgt (x' ← tgt st'.2; Some (VPtr (Some x'))) st'.2)).
Proof.
  repeat split.
  - intros v1 Hs Hp. cbn [visit]. simpl. rewrite Hs. unfold visit_pointer.
    simpl. rewrite Hs, Hp. simpl. by rewrite Hs.
  - intros k1 v1 k2 v2 x0 Hs Hp1 Hk1 Hp2 Hk2 Hinit. eexists. split; [done |].
    cbn [visit]. simpl. rewrite Hs.
    by apply (visit_pointer_alloc decls _ F v v1 v2 k1 k2).
  - intros v1 v2 Hs Hp1 Hp2. cbn [visit]. simpl. rewrite Hs. unfold visit_pointer.
    simpl. rewrite Hs, Hp1. simpl. rewrite Hp2. simpl. by rewrite Hs.
  - intros x k1 v1 Hs Hp1. eexists. split; [done |]. split; [done |].
    cbn [visit]. simpl. rewrite Hs. unfold visit_pointer.
    simpl. rewrite Hs, Hp1.
    destruct (bool_decide (k1 ≠ vt_null)).
    + destruct (peek v1) as [k2 v2]. simpl. rewrite andb_false_r, Hs.
      by rewrite (zoom_eq pointee_ref _ (VPtr (Some x)) x).
    + simpl. rewrite Hs.
      by rewrite (zoom_eq pointee_ref _ (VPtr (Some x)) x).
Qed.

Lemma pointer_semantics_witness :
  consume_into test_decls 3 (SPtr raw_ptr (SClass "Ser1")) DNull (VPtr None)
    = (reader_of [], start (VPtr None)) ∧
  tgt (consume_into test_decls 3 (SPtr shared_ptr (SClass "Ser1"))
         (DObject [("x", DInt 1)]) (VPtr None)).2
    = Some (VPtr (Some (VObj [VInt 1]))) ∧
  news (consume_into test_decls 3 (SPtr unique_ptr (SClass "Ser1"))
         (DObject [("x", DInt 1)]) (VPtr None)).2 = 1%nat.
Proof.
  split.
  - destruct (pointer_semantics test_decls raw_ptr (SClass "Ser1") 2
                (reader_of [DNull]) (start (VPtr None))) as (Hnull & _).
    unfold consume_into. rewrite (Hnull (reader_of [DNull])); reflexivity.
  - split; reflexivity.
Defined.

(** *** Reading children *)

Lemma reader_child_eq {T : Type} (out : string → reader * T → reader * T)
    (v : reader) (t : T) (k : string) (d : doc) :
  reader_child out (v, t) (k, d) =
    if ok v then
      if bool_decide (input (out k (advance [d] v, t)).1 = [])
      then out k (advance [d] v, t)
      else (reject (out k (advance [d] v, t)).1, (out k (advance [d] v, t)).2)
    else (v, t).
Proof. done. Qed.

(** A child that its callback has read. *)
Lemma reader_child_read {T : Type} (out : string → reader * T → reader * T)
    (v v' : reader) (t t' : T) (k : string) (d : doc) :
  ok v = true → out k (advance [d] v, t) = (v', t') → input v' = [] →
  reader_child out (v, t) (k, d) = (v', t').
Proof.
  intros Hv Hout Hin. rewrite reader_child_eq, Hv, Hout. simpl.
  by rewrite Hin.
Qed.

Lemma reader_children_rejected {T : Type}
    (out : string → reader * T → reader * T) (kds : list (string * doc))
    (st : reader * T) :
  ok st.1 = false → foldl (reader_child out) st kds = st.
Proof.
  intros Hok. induction kds as [| kd kds IH]; [done |]. simpl.
  unfold reader_child at 2. by rewrite Hok.
Qed.

Lemma vector_callback_failed {V : Type} `{!visitor V}
    (decls : gmap string class_decl) (rec : V * state → V * state) (F : shape)
    (x : string) (st : V * state) :
  tgt st.2 = None → vector_callback decls rec F x st = st.
Proof. intros Hst. unfold vector_callback. by rewrite Hst. Qed.

Lemma vector_callback_eq {V : Type} `{!visitor V}
    (decls : gmap string class_decl) (rec : V * state → V * state) (F : shape)
    (x : string) (v : V) (s : state) (vp : list value) (dflt : value) :
  tgt s = Some (VVec vp) → value_init decls F = Some dflt →
  vector_callback decls rec F x (v, s) =
    ((rec (v, set_tgt (Some dflt) s)).1,
     set_tgt (x' ← tgt (rec (v, set_tgt (Some dflt) s)).2;
              Some (VVec (vp ++ [x'])))
             (rec (v, set_tgt (Some dflt) s)).2).
Proof.
  intros Hs Hinit. unfold vector_callback. simpl. rewrite Hs, Hinit.
  rewrite (zoom_eq (elem (length vp)) _ (VVec (vp ++ [dflt])) dflt).
  - simpl. destruct (rec _) as [v' s']. simpl. f_equal.
    destruct (tgt s') as [x' |]; simpl; [| done].
    rewrite insert_app_r_alt by done. by rewrite Nat.sub_diag.
  - done.
  - simpl. rewrite lookup_app_r by done. by rewrite Nat.sub_diag.
Qed.

(** ** Built registries are never modified *)

Section keeping.
Context {V : Type} `{!visitor V} `{!contract V}.
Variable decls : gmap string class_decl.
Variable r0 : gmap string type_info.

#[local] Abbreviation kept := (regs_kept decls r0).

Lemma kept_set_tgt (x : option value) (s : state) : kept s → kept (set_tgt x s).
Proof. done. Qed.

Lemma kept_fail (s : state) : kept s → kept (fail s).
Proof. done. Qed.

Lemma zoom_kept (r : ref) (body : V * state → V * state) (st : V * state) :
  (∀ st, kept st.2 → kept (body st).2) →
  kept st.2 → kept (zoom r body st).2.
Proof.
  intros Hbody Hst. unfold zoom. destruct (tgt st.2) as [whole |]; [| done].
  destruct (ref_get r whole) as [part |]; [| done]. simpl.
  apply kept_set_tgt, Hbody. done.
Qed.

Lemma foldl_kept {A : Type} (step : V * state → A → V * state) (l : list A)
    (st : V * state) :
  (∀ st a, kept st.2 → kept (step st a).2) →
  kept st.2 → kept (foldl step st l).2.
Proof.
  intros Hstep. revert st. induction l as [| a l IH]; intros st Hst; [done |].
  simpl. by apply IH, Hstep.
Qed.

Lemma class_callback_kept (rec : shape → V * state → V * state)
    (nil : V * option niltarget → V * option niltarget) (c n : string)
    (st : V * state) :
  (∀ F st, kept st.2 → kept (rec F st).2) →
  kept st.2 → kept (class_callback rec nil c n st).2.
Proof.
  intros Hrec Hst. unfold class_callback.
  destruct (tgt st.2); [| done].
  destruct (has n (registry c (regs st.2))) eqn:Hhas; simpl.
  - destruct (index_name_has _ _ Hhas) as (p & Hp & ->).
    assert (<[c := registry c (regs st.2)]> (regs st.2) = regs st.2) as Hsame.
    { unfold registry in *. destruct (regs st.2 !! c) as [ti |] eqn:Hc; simpl in *.
      - by apply insert_id.
      - by rewrite lookup_empty in Hp. }
    rewrite Hsame, set_regs_same.
    destruct (deref p _); simpl; [| done].
    unfold field_visit. apply zoom_kept; [| done]. intros. by apply Hrec.
  - by destruct (nil _).2.
Qed.

Lemma class_produce_member_kept (rec : shape → V * state → V * state)
    (c : string) (i : nat) (st : V * state) :
  (∀ k (v : V), (visit_string k v).1 = k) →
  (∀ F st, kept st.2 → kept (rec F st).2) →
  kept st.2 → kept (class_produce_member rec c i st).2.
Proof.
  intros Hstr Hrec Hst. unfold class_produce_member.
  destruct (tgt st.2); [| done].
  destruct (index_int _ _) as [[j |] |] eqn:Hidx; [| done | done].
  destruct (fields _ !! j) as [m |] eqn:Hm; [| done].
  destruct (visit_string (m_name m) st.1) as [name' v'] eqn:Hvs.
  assert (name' = m_name m) as ->.
  { pose proof (Hstr (m_name m) st.1) as Hp. by rewrite Hvs in Hp. }
  rewrite (set_name_same _ _ _ Hm).
  assert (<[c := registry c (regs st.2)]> (regs st.2) = regs st.2) as Hsame.
  { unfold registry in *. destruct (regs st.2 !! c) as [ti |] eqn:Hc; simpl in *.
    - by apply insert_id.
    - done. }
  rewrite Hsame, set_regs_same.
  destruct (index_int _ _ ≫= _); simpl; [| done].
  unfold field_visit. apply zoom_kept; [| done]. intros. by apply Hrec.
Qed.

Lemma visit_class_kept (rec : shape → V * state → V * state)
    (nil : V * option niltarget → V * option niltarget) (c : string)
    (st : V * state) :
  (∀ F st, kept st.2 → kept (rec F st).2) →
  kept st.2 → kept (visit_class decls rec nil c st).2.
Proof.
  intros Hrec Hst. unfold visit_class.
  destruct (tgt st.2) as [[| | | | | | | slots |] |]; try done.
  destruct (decls !! c) as [d |] eqn:Hd; simpl; [| done].
  destruct (rpoco_type_info_get d _) as [ti |] eqn:Hget; [| done].
  assert (kept (set_regs (<[c := ti]> (regs st.2)) st.2)) as Hst1.
  { destruct Hst as [Hok Hsub].
    destruct (built d) as [ti' |] eqn:Hb.
    - destruct (regs_ok_lookup decls _ _ _ _ Hok Hd Hb) as (Hget' & Hok' & Hsub').
      assert (ti' = ti) as -> by congruence.
      split; [done |]. simpl. by etrans.
    - rewrite (regs_ok_lookup_fail decls _ _ _ Hok Hd Hb) in Hget. done. }
  pose proof (contract_consume state kept vt_object
                (class_callback rec nil c)
                (st.1, set_regs (<[c := ti]> (regs st.2)) st.2) Hst1) as Hcons.
  destruct (consume _ _ _) as [reading st2] eqn:Hc. simpl in Hcons.
  assert (kept st2.2) as Hst2.
  { apply Hcons. intros. by apply class_callback_kept. }
  destruct reading; [done |]. simpl.
  destruct contract_direction as [Hread | Hstr].
  - specialize (Hread state vt_object (class_callback rec nil c)
                  (st.1, set_regs (<[c := ti]> (regs st.2)) st.2)).
    rewrite Hc in Hread. done.
  - apply (foldl_kept (fun st i => class_produce_member rec c i st)); [| done].
    intros. by apply class_produce_member_kept.
Qed.

(** No visit modifies a registry that has been built: the registries stay
    the ones their declarations build, and every registry in use before
    the visit is the same after it. *)
Lemma visit_kept (n : nat) :
  ∀ F (st : V * state), kept st.2 → kept (visit decls n F st).2.
Proof.
  induction n as [| n IH]; intros F st Hst; [done |].
  cbn [visit]. destruct (tgt st.2) as [x |] eqn:Hx; [| done].
  destruct F as [| | | sz | F' | F' | k F' | c |].
  - unfold visit_leaf_int. rewrite Hx. destruct x; try done.
    by destruct (visit_int _ _).
  - unfold visit_leaf_double. rewrite Hx. destruct x; try done.
    by destruct (visit_double _ _).
  - unfold visit_leaf_string. rewrite Hx. destruct x; try done.
    by destruct (visit_string _ _).
  - unfold visit_leaf_chars. rewrite Hx. destruct x; try done.
    by destruct (visit_chars _ _ _).
  - unfold visit_vector. rewrite Hx. destruct x; try done.
    pose proof (contract_consume state kept vt_array
                  (vector_callback decls (visit decls n F') F') st Hst) as Hcons.
    destruct (consume _ _ _) as [reading st2]. simpl in Hcons.
    assert (kept st2.2) as Hst2.
    { apply Hcons. intros k st' Hst'. unfold vector_callback.
      destruct (tgt st'.2) as [[| | | | vp | | | |] |]; try done.
      destruct (value_init decls F'); [| done].
      apply zoom_kept; [| done]. intros. by apply IH. }
    destruct reading; [done |]. simpl.
    apply (foldl_kept (fun st i => zoom (elem i) (visit decls n F') st)); [| done].
    intros. apply zoom_kept; [| done]. intros. by apply IH.
  - unfold visit_map. rewrite Hx. destruct x; try done.
    pose proof (contract_consume state kept vt_object
                  (map_callback decls (visit decls n F') F') st Hst) as Hcons.
    destruct (consume _ _ _) as [reading st2]. simpl in Hcons.
    assert (kept st2.2) as Hst2.
    { apply Hcons. intros k st' Hst'. unfold map_callback.
      destruct (tgt st'.2) as [[| | | | | mp | | |] |]; try done.
      destruct (value_init decls F'); [| done].
      apply zoom_kept; [| done]. intros. by apply IH. }
    destruct reading; [done |]. simpl.
    apply (foldl_kept (fun st i => map_produce_entry (visit decls n F') i st));
      [| done].
    intros st' i Hst'. unfold map_produce_entry.
    destruct (tgt st'.2) as [[| | | | | m | | |] |]; try done.
    destruct (m !! i); [| done].
    apply zoom_kept; [| done]. intros. by apply IH.
  - unfold visit_pointer. rewrite Hx. destruct x as [| | | | | | fp | |]; try done.
    destruct (peek st.1) as [k1 v1].
    destruct (if bool_decide (k1 ≠ vt_null) then _ else _) as [wanted v2].
    set (s' := if wanted && bool_decide (fp = None) then _ else st.2).
    assert (kept s') as Hs' by (subst s'; by destruct (wanted && _)).
    clearbody s'. destruct (tgt s') as [[| | | | | | [x' |] | |] |]; try done.
    apply (zoom_kept pointee_ref _ (v2, s')); [| done]. intros. by apply IH.
  - apply visit_class_kept; [| done]. intros. by apply IH.
  - unfold visit_nil_member. rewrite Hx. destruct x; try done.
    by destruct (visit_niltarget _ _).2.
Qed.

End keeping.

(** ** The contract instances *)

#[global] Instance recorder_contract : contract recorder.
Proof. split; [done | by right]. Qed.

#[global] Instance doc_writer_contract : contract doc_writer.
Proof. split; [done | by right]. Qed.

#[global] Instance reader_contract : contract reader.
Proof.
  split; [| by left; intros; unfold consume; simpl; unfold reader_consume;
              repeat case_match].
  intros T Q vt out st Hst Hout. simpl. unfold reader_consume.
  destruct (ok st.1); [| done].
  destruct (input st.1) as [| d r]; [done |].
  destruct (children vt d) as [kds |]; [| done]. simpl.
  generalize dependent st. induction kds as [| kd kds IH]; intros st Hst; [done |].
  simpl. apply IH. unfold reader_child. destruct (ok st.1); [| done].
  simpl. case_bool_decide; simpl; by apply Hout.
Qed.

(** C7, as amended: a [FieldDescriptor] is an accessor, and a visitor
    that keeps the visitor contract leaves it alone.  (1) The k-th
    descriptor of a built registry carries the name, the offset and the
    static type of the k-th declared member.  (2) Visiting a descriptor
    against an object hands the visit of the member's type exactly the
    member at the descriptor's offset and stores what that visit leaves
    in the same member; the other members of the object are as before.
    Objects here are trees: no pointee is shared with another member.
    (3) Under the visitor contract (the callback is the visitor's only
    access to the captured state, and a visitor that declines [consume]
    does not write through the string it is shown) no visit modifies a
    registry that has been built: every registry is afterwards the one
    its class builds, and the ones built before are unchanged. *)
Theorem descriptor_accessor {V : Type} `{!visitor V} `{!contract V}
    (decls : gmap string class_decl) :
  (∀ d ti k off F name,
      built d = Some ti →
      c_members d !! k = Some (off, F) →
      extract_macro_names (c_args d) !! k = Some name →
      fields ti !! k = Some {| m_name := name; m_offset := off; m_type := F |}) ∧
  (∀ (rec : shape → V * state → V * state) m (v : V) s slots x,
      tgt s = Some (VObj slots) → slots !! m_offset m = Some x →
      ∃ st', st' = rec (m_type m) (v, set_tgt (Some x) s) ∧
             field_visit rec m (v, s) =
               (st'.1,
                set_tgt (x' ← tgt st'.2; Some (VObj (<[m_offset m := x']> slots)))
                        st'.2)) ∧
  (∀ n F (st : V * state),
      regs_ok decls (regs st.2) →
      regs_ok decls (regs (visit decls n F st).2) ∧
      ∀ c ti, regs st.2 !! c = Some ti →
              regs (visit decls n F st).2 !! c = Some ti).
Proof.
  split; [| split].
  - intros d ti k off F name (Hf & _)%built_spec Hk Hn. rewrite Hf.
    apply declared_lookup. by exists off, F.
  - intros rec m v s slots x Hs Hx. eexists. split; [done |].
    unfold field_visit. by rewrite (zoom_eq (slot (m_offset m)) _ (VObj slots) x).
  - intros n F st Hok.
    destruct (visit_kept decls (regs st.2) n F st) as [Hok' Hsub]; [done |].
    split; [done |]. intros c ti Hc. by eapply lookup_weaken.
Qed.

Lemma descriptor_accessor_witness :
  regs (consume_into test_decls 3 (SClass "Ser2")
          (DObject [("sub", DObject [("x", DInt 5)])])
          (VObj [VInt 2; VObj [VInt 1]])).2 !! "Ser1"
    = built Ser1 ∧
  tgt (consume_into test_decls 3 (SClass "Ser2")
          (DObject [("sub", DObject [("x", DInt 5)])])
          (VObj [VInt 2; VObj [VInt 1]])).2
    = Some (VObj [VInt 2; VObj [VInt 5]]) ∧
  regs_ok test_decls
    (regs (consume_into test_decls 3 (SClass "Ser2")
             (DObject [("sub", DObject [("x", DInt 5)])])
             (VObj [VInt 2; VObj [VInt 1]])).2).
Proof.
  split; [reflexivity |]. split; [reflexivity |].
  apply (descriptor_accessor (V := reader) test_decls).
  apply regs_ok_empty.
Defined.

(** C7 as stated fails: the production loop hands the visitor the
    descriptor's own name, [v.visit(member->name())], by reference.  A
    visitor that declines [consume] and writes through the strings it is
    shown renames the descriptor in the registry that was built before:
    the visit returns with the record as it was, the descriptor of [x] is
    called [scribble] from then on while the name table still knows it as
    [x], and the registry is no longer the one the class builds. *)
Lemma descriptor_accessor_counterexample :
  m_name <$> fields (default fresh_type_info (built Ser1)) = ["x"] ∧
  tgt (visit test_decls 2 (SClass "Ser1")
         ((tt : scribbler),
          set_regs {[ "Ser1" := default fresh_type_info (built Ser1) ]}
                   (start (VObj [VInt 1])))).2 = Some (VObj [VInt 1]) ∧
  m_name <$> fields (registry "Ser1"
      (regs (visit test_decls 2 (SClass "Ser1")
               ((tt : scribbler),
                set_regs {[ "Ser1" := default fresh_type_info (built Ser1) ]}
                         (start (VObj [VInt 1])))).2))
    = ["scribble"] ∧
  has "x" (registry "Ser1"
      (regs (visit test_decls 2 (SClass "Ser1")
               ((tt : scribbler),
                set_regs {[ "Ser1" := default fresh_type_info (built Ser1) ]}
                         (start (VObj [VInt 1])))).2)) = true ∧
  has "scribble" (registry "Ser1"
      (regs (visit test_decls 2 (SClass "Ser1")
               ((tt : scribbler),
                set_regs {[ "Ser1" := default fresh_type_info (built Ser1) ]}
                         (start (VObj [VInt 1])))).2)) = false ∧
  regs (visit test_decls 2 (SClass "Ser1")
          ((tt : scribbler),
           set_regs {[ "Ser1" := default fresh_type_info (built Ser1) ]}
                    (start (VObj [VInt 1])))).2 !! "Ser1" ≠ built Ser1.
Proof. repeat split; try reflexivity. by vm_compute. Qed.

(** ** The discard sink *)

Lemma doc_depth_items (items : list doc) (d : doc) (n : nat) :
  (doc_depth (DArray items) ≤ S n)%nat → d ∈ items → (doc_depth d ≤ n)%nat.
Proof.
  simpl. intros Hn Hd. apply le_S_n in Hn.
  induction items as [| a items IH]; [by apply not_elem_of_nil in Hd |].
  apply elem_of_cons in Hd as [-> | Hd]; [lia |]. apply IH; [lia | done].
Qed.

Lemma doc_depth_entries (entries : list (string * doc)) (kd : string * doc) (n : nat) :
  (doc_depth (DObject entries) ≤ S n)%nat → kd ∈ entries → (doc_depth kd.2 ≤ n)%nat.
Proof.
  simpl. intros Hn Hd. apply le_S_n in Hn.
  induction entries as [| a entries IH]; [by apply not_elem_of_nil in Hd |].
  apply elem_of_cons in Hd as [-> | Hd]; [lia |]. apply IH; [lia | done].
Qed.

Lemma doc_depth_children (vt : visit_type) (d : doc) (kds : list (string * doc))
    (kd : string * doc) (n : nat) :
  children vt d = Some kds → (doc_depth d ≤ S n)%nat → kd ∈ kds →
  (doc_depth kd.2 ≤ n)%nat.
Proof.
  destruct vt, d; simpl; try done; intros [= <-] Hn Hkd.
  - by eapply doc_depth_entries.
  - apply list_elem_of_fmap in Hkd as (d' & -> & Hd'). simpl.
    by eapply doc_depth_items.
Qed.

Lemma doc_depth_pos (d : doc) : (1 ≤ doc_depth d)%nat.
Proof. destruct d; simpl; lia. Qed.

(** Children that the sink drains leave the reader in order and the
    captured niltarget as it was. *)
Lemma sink_children (nil : reader * option niltarget → reader * option niltarget)
    (kds : list (string * doc)) :
  (∀ kd (v : reader) nt, kd ∈ kds → ok v = true →
     nil (advance [kd.2] v, Some nt) = (advance [] v, Some nt)) →
  ∀ (v : reader) nt, ok v = true →
    ∃ v', foldl (reader_child (sink_callback nil)) (v, Some nt) kds = (v', Some nt) ∧
          ok v' = true.
Proof.
  induction kds as [| kd kds IH]; intros Hnil v nt Hv; [by exists v |].
  simpl. unfold reader_child at 2. simpl. rewrite Hv.
  unfold sink_callback. simpl. rewrite Hnil by (done || left). simpl.
  apply IH; [| done]. intros. apply Hnil; [by right | done].
Qed.

(** Whatever document is next, the sink reads exactly that document. *)
Lemma sink_drains (n : nat) :
  ∀ (d : doc) (r : list doc) (v : reader) (nt : niltarget),
    ok v = true → input v = d :: r → (doc_depth d ≤ n)%nat →
    visit_niltarget n (v, Some nt) = (advance r v, Some nt).
Proof.
  induction n as [| n IH]; intros d r v nt Hok Hin Hn.
  { pose proof (doc_depth_pos d). lia. }
  assert (∀ vt kds, children vt d = Some kds →
            (consume vt (sink_callback (visit_niltarget n)) (v, Some nt)).2
            = (advance r v, Some nt)) as Hcomposite.
  { intros vt kds Hkds. simpl. unfold reader_consume. simpl.
    rewrite Hok, Hin, Hkds. simpl.
    destruct (sink_children (visit_niltarget n) kds) with (v := v) (nt := nt)
      as (v' & -> & Hv'); [| done |].
    - intros kd v0 nt0 Hkd Hv0.
      rewrite (IH kd.2 [] (advance [kd.2] v0) nt0); [done | done | done |].
      by eapply doc_depth_children.
    - simpl. unfold advance. by rewrite Hv', Hok. }
  cbn [visit_niltarget]. simpl. unfold reader_peek. rewrite Hok, Hin.
  destruct d as [| b | i | x | s | items | entries];
    try (unfold reader_leaf; by rewrite Hok, Hin).
  - by apply (Hcomposite vt_array ((fun d => (EmptyString, d)) <$> items)).
  - by apply (Hcomposite vt_object entries).
Qed.

(** C6: the discard sink.  (1) It peeks once and acts on the kind: one
    leaf visit into a local for a scalar, a [consume] of that kind for a
    composite, nothing otherwise.  (2) The callback of that [consume]
    runs the sink once, on a fresh niltarget, for each child it is called
    for.  (3) On the document reader the sink reads exactly the next
    document, however deeply nested, and leaves the reader in order at the
    unit after it.  (4) All it has of its caller is the niltarget, and
    that comes back as it was. *)
Theorem discard_sink :
  (∀ (V : Type) (H : visitor V) (n : nat) (v : V) (nt : niltarget),
      visit_niltarget (S n) (v, Some nt) =
        match (peek v).1 with
        | vt_null => (visit_null (peek v).2, Some nt)
        | vt_number => ((visit_double 0%float (peek v).2).2, Some nt)
        | vt_bool => ((visit_bool false (peek v).2).2, Some nt)
        | vt_string => ((visit_string EmptyString (peek v).2).2, Some nt)
        | vt_array | vt_object =>
            (consume (peek v).1 (sink_callback (visit_niltarget n))
                     ((peek v).2, Some nt)).2
        | vt_none | vt_error => ((peek v).2, Some nt)
        end) ∧
  (∀ (V : Type) (H : visitor V) (nil : V * option niltarget → V * option niltarget)
     (propname : string) (v : V) (nt : niltarget),
      sink_callback nil propname (v, Some nt) =
        ((nil (v, Some Niltarget)).1, _ ← (nil (v, Some Niltarget)).2; Some nt)) ∧
  (∀ (n : nat) (d : doc) (r : list doc) (nt : niltarget),
      (doc_depth d ≤ n)%nat →
      visit_niltarget n (reader_of (d :: r), Some nt) = (reader_of r, Some nt)) ∧
  (∀ (V : Type) (H : visitor V) (n : nat) (st : V * option niltarget),
      (visit_niltarget n st).2 = st.2 ∨ (visit_niltarget n st).2 = None).
Proof.
  split; [| split; [| split]].
  - intros V H n v nt. cbn [visit_niltarget]. simpl.
    destruct (peek v) as [vtn v1]. simpl. by destruct vtn.
  - done.
  - intros n d r nt Hn. by apply (sink_drains n d r).
  - intros V H n [v [[] |]]; destruct n as [| n]; simpl; auto.
    destruct (peek v) as [[] v1]; auto;
      destruct (consume _ _ _) as [b [v2 [[] |]]]; auto.
Qed.

Lemma discard_sink_witness :
  visit_niltarget 3
    (reader_of [DArray [DInt 1; DObject [("k", DNull)]]; DString "next"],
     Some Niltarget)
  = (reader_of [DString "next"], Some Niltarget).
Proof.
  destruct discard_sink as (_ & _ & Hdrain & _). apply Hdrain.
  simpl. lia.
Defined.

(** ** Unknown fields *)

(** An unknown name is routed to the sink, and the state the callback
    captured is as before. *)
Lemma class_callback_unknown {V : Type} `{!visitor V}
    (rec : shape → V * state → V * state)
    (nil : V * option niltarget → V * option niltarget)
    (c name : string) (v : V) (s : state) :
  is_Some (tgt s) → has name (registry c (regs s)) = false →
  class_callback rec nil c name (v, s) =
    ((nil (v, Some Niltarget)).1,
     match (nil (v, Some Niltarget)).2 with Some _ => s | None => fail s end).
Proof.
  intros [x Hx] Hhas. unfold class_callback. simpl. by rewrite Hx, Hhas.
Qed.







(** ** The document writer *)






(** ** Reading back *)

Lemma string_compare_refl (k : string) : (k ?= k)%string = Eq.
Proof.
  pose proof (String.compare_antisym k k) as H.
  destruct (k ?= k)%string; simpl in H; congruence.
Qed.

Lemma string_ltb_neq (a b : string) :
  String.ltb a b = true → String.eqb a b = false ∧ String.ltb b a = false.
Proof.
  unfold String.ltb. intros Hab. split.
  - apply String.eqb_neq. intros ->. by rewrite string_compare_refl in Hab.
  - rewrite String.compare_antisym. by destruct (a ?= b)%string.
Qed.

Lemma map_subscript_append (k : string) (dflt : value) (mp : list (string * value)) :
  (∀ p, p ∈ mp → String.ltb p.1 k = true) →
  map_subscript k dflt mp = mp ++ [(k, dflt)].
Proof.
  induction mp as [| [k' x] mp IH]; intros Hlt; [done |]. simpl.
  destruct (string_ltb_neq k' k) as [-> ->]; [apply (Hlt (k', x)); left |].
  rewrite IH; [done |]. intros p Hp. apply Hlt. by right.
Qed.

Lemma map_find_append (k : string) (x : value) (mp : list (string * value)) :
  (∀ p, p ∈ mp → String.ltb p.1 k = true) →
  map_find k (mp ++ [(k, x)]) = Some x.
Proof.
  induction mp as [| [k' x'] mp IH]; intros Hlt; simpl.
  - by rewrite String.eqb_refl.
  - destruct (string_ltb_neq k' k) as [-> _]; [apply (Hlt (k', x')); left |].
    apply IH. intros p Hp. apply Hlt. by right.
Qed.

Lemma map_set_append (k : string) (x y : value) (mp : list (string * value)) :
  (∀ p, p ∈ mp → String.ltb p.1 k = true) →
  map_set k y (mp ++ [(k, x)]) = mp ++ [(k, y)].
Proof.
  induction mp as [| [k' x'] mp IH]; intros Hlt; simpl.
  - by rewrite String.eqb_refl.
  - destruct (string_ltb_neq k' k) as [-> _]; [apply (Hlt (k', x')); left |].
    rewrite IH; [done |]. intros p Hp. apply Hlt. by right.
Qed.

Lemma length_string_of_list_byte (b : list byte) :
  String.length (string_of_list_byte b) = length b.
Proof.
  unfold string_of_list_byte.
  induction b as [| a b IH]; simpl; [done | by rewrite IH].
Qed.

Lemma overlay_cons (m : member) (ms : list member) (sx cur : list value) :
  overlay (m :: ms) sx cur =
    overlay ms sx (match sx !! m_offset m with
                   | Some x => <[m_offset m := x]> cur
                   | None => cur
                   end).
Proof. done. Qed.

Lemma overlay_lookup (ms : list member) (sx : list value) :
  ∀ (cur : list value) (i : nat),
    length cur = length sx →
    overlay ms sx cur !! i =
      if decide (i ∈ m_offset <$> ms) then sx !! i else cur !! i.
Proof.
  induction ms as [| m ms IH]; intros cur i Hlen; [done |].
  rewrite overlay_cons, fmap_cons.
  destruct (sx !! m_offset m) as [x |] eqn:Hx.
  - rewrite IH by (by rewrite length_insert).
    destruct (decide (i ∈ m_offset <$> ms)) as [Hin | Hin].
    + rewrite decide_True; [done | by right].
    + destruct (decide (i = m_offset m)) as [-> | Hne].
      * rewrite decide_True by left. rewrite list_lookup_insert_eq; [done |].
        apply lookup_lt_Some in Hx. lia.
      * rewrite decide_False by (intros [? | ?]%elem_of_cons; done).
        by rewrite list_lookup_insert_ne.
  - rewrite IH by done.
    destruct (decide (i ∈ m_offset <$> ms)) as [Hin | Hin].
    + rewrite decide_True; [done | by right].
    + destruct (decide (i = m_offset m)) as [-> | Hne].
      * rewrite decide_True by left. rewrite Hx.
        apply lookup_ge_None_2. apply lookup_ge_None_1 in Hx. lia.
      * by rewrite decide_False by (intros [? | ?]%elem_of_cons; done).
Qed.

Section reading.
Variable decls : gmap string class_decl.
Hypothesis Hdecls : decls_ok decls.

Lemma value_init_blank (F : shape) (x : value) :
  transportable decls F x →
  ∃ y0, value_init decls F = Some y0 ∧ blank decls F y0.
Proof.
  intros Htr.
  inversion Htr as [| | | | | | | | c d slots Hd Hlen Hmem Hund]; subst; simpl;
    try (eexists; split; [done | constructor]).
  exists (VObj (c_new d)). rewrite Hd. split; [done |].
  by destruct (Hdecls c d Hd).
Qed.

Lemma doc_of_opaque (n : nat) (F : shape) (x : value) (d : doc) :
  opaque F = true → doc_of decls n F x = Some d →
  d ≠ DNull.
Proof.
  destruct n as [| n]; [done |]. cbn [doc_of].
  destruct F, x; try done; intros _; try (by intros [= <-]).
  - destruct (mapM _ _); simpl; [by intros [= <-] | done].
  - destruct (mapM _ _); simpl; [by intros [= <-] | done].
  - destruct (decls !! c); simpl; [| done].
    destruct (built _); simpl; [| done].
    destruct (mapM _ _); simpl; [by intros [= <-] | done].
Qed.

Lemma visit_regs_ok {V : Type} `{!visitor V} `{!contract V} (n : nat) (F : shape)
    (st : V * state) :
  regs_ok decls (regs st.2) → regs_ok decls (regs (visit decls n F st).2).
Proof.
  intros Hok.
  by destruct (visit_kept decls (regs st.2) n F st) as [Hok' _].
Qed.

Lemma map_callback_eq {V : Type} `{!visitor V}
    (rec : V * state → V * state) (F : shape)
    (k : string) (v : V) (s : state) (pre : list (string * value)) (dflt : value) :
  tgt s = Some (VMap pre) → value_init decls F = Some dflt →
  (∀ p, p ∈ pre → String.ltb p.1 k = true) →
  map_callback decls rec F k (v, s) =
    ((rec (v, set_tgt (Some dflt) s)).1,
     set_tgt (x' ← tgt (rec (v, set_tgt (Some dflt) s)).2;
              Some (VMap (pre ++ [(k, x')])))
             (rec (v, set_tgt (Some dflt) s)).2).
Proof.
  intros Hs Hinit Hlt. unfold map_callback. simpl. rewrite Hs, Hinit.
  rewrite (map_subscript_append _ _ _ Hlt).
  rewrite (zoom_eq (entry k) _ (VMap (pre ++ [(k, dflt)])) dflt).
  - simpl. destruct (rec _) as [v' s']. simpl. f_equal.
    destruct (tgt s') as [x' |]; simpl; [| done].
    by rewrite (map_set_append _ _ _ _ Hlt).
  - done.
  - simpl. by apply map_find_append.
Qed.

Lemma read_elements (n : nat) (F' : shape) :
  reads_back_all decls n →
  ∀ (l : list value) (ds : list doc),
    Forall2 (fun x d => doc_of decls n F' x = Some d) l ds →
    Forall (transportable decls F') l →
    ∀ (v : reader) (s : state) (vp : list value),
      ok v = true → regs_ok decls (regs s) → tgt s = Some (VVec vp) →
      ok (foldl (reader_child (vector_callback decls (visit decls n F') F'))
                (v, s) ((fun d => (EmptyString, d)) <$> ds)).1 = true ∧
      tgt (foldl (reader_child (vector_callback decls (visit decls n F') F'))
                 (v, s) ((fun d => (EmptyString, d)) <$> ds)).2
        = Some (VVec (vp ++ l)) ∧
      regs_ok decls
        (regs (foldl (reader_child (vector_callback decls (visit decls n F') F'))
                     (v, s) ((fun d => (EmptyString, d)) <$> ds)).2).
Proof.
  intros Hrec l ds Hds. induction Hds as [| x d l ds Hd _ IH];
    intros Htr v s vp Hv Hr Hs.
  - simpl. by rewrite app_nil_r.
  - apply Forall_cons in Htr as [Hx Htr].
    rewrite fmap_cons. cbn [foldl]. rewrite reader_child_eq, Hv.
    destruct (value_init_blank _ _ Hx) as (dflt & Hinit & Hblank).
    rewrite (vector_callback_eq _ _ _ _ _ _ vp dflt) by done.
    destruct (Hrec F' x dflt d (advance [d] v) [] (set_tgt (Some dflt) s))
      as [Hv' Hx']; try done.
    pose proof (visit_regs_ok n F' (advance [d] v, set_tgt (Some dflt) s) Hr) as Hr'.
    destruct (visit decls n F' _) as [v' s']. simpl in *. subst v'.
    rewrite Hx'. simpl.
    rewrite (cons_middle x vp l), app_assoc. by apply IH.
Qed.

Lemma keys_sorted_tail (p : string * value) (mp : list (string * value)) :
  keys_sorted (p :: mp) →
  keys_sorted mp ∧ ∀ q, q ∈ mp → String.ltb p.1 q.1 = true.
Proof.
  intros Hs. split.
  - intros i j a b Hij Ha Hb. by apply (Hs (S i) (S j) a b); [lia | |].
  - intros q [j Hj]%list_elem_of_lookup_1.
    by apply (Hs 0%nat (S j) p q); [lia | |].
Qed.

Lemma read_entries (n : nat) (F' : shape) :
  reads_back_all decls n →
  ∀ (mp : list (string * value)) (kds : list (string * doc)),
    Forall2 (fun p kd => kd.1 = p.1 ∧ doc_of decls n F' p.2 = Some kd.2) mp kds →
    Forall (fun p => transportable decls F' p.2) mp →
    keys_sorted mp →
    ∀ (v : reader) (s : state) (pre : list (string * value)),
      (∀ p q, p ∈ pre → q ∈ mp → String.ltb p.1 q.1 = true) →
      ok v = true → regs_ok decls (regs s) → tgt s = Some (VMap pre) →
      ok (foldl (reader_child (map_callback decls (visit decls n F') F'))
                (v, s) kds).1 = true ∧
      tgt (foldl (reader_child (map_callback decls (visit decls n F') F'))
                 (v, s) kds).2
        = Some (VMap (pre ++ mp)) ∧
      regs_ok decls
        (regs (foldl (reader_child (map_callback decls (visit decls n F') F'))
                     (v, s) kds).2).
Proof.
  intros Hrec mp kds Hkds.
  induction Hkds as [| [k x] [k' d] mp kds [Hk Hd] _ IH];
    intros Htr Hsorted v s pre Hpre Hv Hr Hs.
  - simpl. by rewrite app_nil_r.
  - simpl in Hk, Hd. subst k'.
    apply Forall_cons in Htr as [Hx Htr]. simpl in Hx.
    apply keys_sorted_tail in Hsorted as [Hsorted Hfirst].
    cbn [foldl]. rewrite reader_child_eq, Hv.
    destruct (value_init_blank _ _ Hx) as (dflt & Hinit & Hblank).
    rewrite (map_callback_eq _ _ _ _ _ pre dflt); [| done | done |].
    2: { intros p Hp. apply (Hpre p (k, x)); [done | left]. }
    destruct (Hrec F' x dflt d (advance [d] v) [] (set_tgt (Some dflt) s))
      as [Hv' Hx']; try done.
    pose proof (visit_regs_ok n F' (advance [d] v, set_tgt (Some dflt) s) Hr) as Hr'.
    destruct (visit decls n F' _) as [v' s']. simpl in *. subst v'.
    rewrite Hx'. simpl.
    rewrite (cons_middle (k, x) pre mp), app_assoc. apply IH; try done.
    intros p q [Hp | ->%list_elem_of_singleton]%elem_of_app Hq.
    + apply Hpre; [done | by right].
    + by apply Hfirst.
Qed.

Lemma read_members (n : nat) (c : string) (ti : type_info) (sx : list value) :
  reads_back_all decls n →
  ∀ (ms : list member) (kds : list (string * doc)),
    Forall2 (fun m kd =>
               kd.1 = m_name m ∧
               ∃ x, sx !! m_offset m = Some x ∧
                    transportable decls (m_type m) x ∧
                    doc_of decls n (m_type m) x = Some kd.2) ms kds →
    NoDup (m_offset <$> ms) →
    (∀ m, m ∈ ms → ∃ j, m_named_fields ti !! m_name m = Some (Some j) ∧
                        fields ti !! j = Some m) →
    ∀ (v : reader) (s : state) (cur : list value),
      ok v = true → regs_kept decls {[ c := ti ]} s → tgt s = Some (VObj cur) →
      (∀ m, m ∈ ms → ∃ y, cur !! m_offset m = Some y ∧ blank decls (m_type m) y) →
      ok (foldl (reader_child (class_callback (visit decls n) (visit_niltarget n) c))
                (v, s) kds).1 = true ∧
      tgt (foldl (reader_child (class_callback (visit decls n) (visit_niltarget n) c))
                 (v, s) kds).2
        = Some (VObj (overlay ms sx cur)) ∧
      regs_kept decls {[ c := ti ]}
        (foldl (reader_child (class_callback (visit decls n) (visit_niltarget n) c))
               (v, s) kds).2.
Proof.
  intros Hrec ms kds Hkds.
  induction Hkds as [| m [k d] ms kds (Hk & x & Hx & Htr & Hd) _ IH];
    intros Hnodup Hres v s cur Hv Hkept Hs Hblank; [done |].
  simpl in Hk, Hd. subst k.
  rewrite fmap_cons in Hnodup. apply NoDup_cons in Hnodup as [Hnotin Hnodup].
  destruct (Hres m) as (j & Hlook & Hj); [left |].
  destruct (Hblank m) as (y & Hy & Hby); [left |].
  assert (regs s !! c = Some ti) as Hc.
  { destruct Hkept as [_ Hsub].
    by apply (lookup_weaken _ _ _ _ (lookup_singleton_eq c ti) Hsub). }
  rewrite overlay_cons, Hx.
  cbn [foldl]. rewrite reader_child_eq, Hv.
  rewrite (class_callback_known _ _ c (m_name m) ti j m) by eauto.
  unfold field_visit.
  rewrite (zoom_eq (slot (m_offset m)) _ (VObj cur) y) by done.
  destruct Hkept as [Hr Hsub].
  destruct (Hrec (m_type m) x y d (advance [d] v) [] (set_tgt (Some y) s))
    as [Hv' Hx']; try done.
  pose proof (visit_kept decls {[ c := ti ]} n (m_type m)
                (advance [d] v, set_tgt (Some y) s)) as Hkept'.
  destruct (visit decls n (m_type m) _) as [v' s']. cbn [fst snd] in *. subst v'.
  rewrite Hx'. simpl.
  apply IH; try done.
  - intros m' Hm'. apply Hres. by right.
  - by apply Hkept'.
  - intros m' Hm'. destruct (Hblank m') as (y' & Hy' & Hby'); [by right |].
    exists y'. split; [| done].
    rewrite list_lookup_insert_ne; [done |].
    intros Heq. apply Hnotin. rewrite Heq. by apply list_elem_of_fmap_2.
Qed.

Lemma overlay_all (ms : list member) (sx sy : list value) :
  length sy = length sx →
  (∀ i, i ∉ m_offset <$> ms → sy !! i = sx !! i) →
  overlay ms sx sy = sx.
Proof.
  intros Hlen Hrest. apply list_eq. intros i.
  rewrite overlay_lookup by done.
  destruct (decide _); [done | by apply Hrest].
Qed.

Lemma declared_offsets (d : class_decl) :
  (length (c_members d) ≤ length (extract_macro_names (c_args d)))%nat →
  m_offset <$> declared d = (c_members d).*1.
Proof.
  unfold declared. generalize (extract_macro_names (c_args d)).
  induction (c_members d) as [| [off H] ms IH]; intros names Hlen.
  - by rewrite zip_with_nil_r.
  - destruct names as [| name names]; simpl in *; [lia |].
    f_equal. apply IH. lia.
Qed.

Lemma declared_names (d : class_decl) :
  m_name <$> declared d =
  take (length (c_members d)) (extract_macro_names (c_args d)).
Proof.
  unfold declared. generalize (extract_macro_names (c_args d)).
  induction (c_members d) as [| [off H] ms IH]; intros names.
  - by rewrite zip_with_nil_r.
  - destruct names as [| name names]; simpl in *; [done |].
    f_equal. apply IH.
Qed.

(** With distinct names, every declared member is the one its name
    resolves to. *)
Lemma declared_resolve (c : string) (d : class_decl) (ti : type_info) (m : member) :
  class_ok decls c d → built d = Some ti → m ∈ declared d →
  ∃ j, m_named_fields ti !! m_name m = Some (Some j) ∧ fields ti !! j = Some m.
Proof.
  intros Hok (Hf & _ & _ & Hres)%built_spec [j Hj]%list_elem_of_lookup_1.
  exists j. rewrite Hf. split; [| done].
  rewrite Hres, Hf. erewrite last_named_unique; [done | done | done |].
  intros k m' Hjk Hm' Hname.
  pose proof (ok_names_distinct _ _ _ Hok) as Hnd. rewrite <- declared_names in Hnd.
  assert (j = k); [| lia].
  eapply NoDup_lookup; [done | |].
  - by rewrite list_lookup_fmap, Hj.
  - rewrite list_lookup_fmap, Hm'. simpl. by rewrite Hname.
Qed.

Lemma Forall2_impl_elem {A B : Type} (P Q : A → B → Prop) (l : list A) (k : list B) :
  Forall2 P l k → (∀ a b, a ∈ l → P a b → Q a b) → Forall2 Q l k.
Proof.
  induction 1 as [| a b l k Hab _ IH]; intros Himpl; constructor.
  - apply Himpl; [left | done].
  - apply IH. intros. apply Himpl; [by right | done].
Qed.

Lemma reader_peek_opaque (v : reader) (d : doc) (r : list doc) :
  ok v = true → input v = d :: r → d ≠ DNull →
  reader_peek v ≠ vt_null ∧ reader_peek v ≠ vt_none.
Proof.
  intros Hv Hin Hd. unfold reader_peek. rewrite Hv, Hin. by destruct d.
Qed.

Lemma advance_ok (r : list doc) (v v' : reader) :
  ok v' = ok v → advance r v' = advance r v.
Proof. intros Hok. unfold advance. by rewrite Hok. Qed.

Lemma reader_consume_eq {T : Type} (vt : visit_type)
    (out : string → reader * T → reader * T) (v : reader) (t : T) (d : doc)
    (r : list doc) (kds : list (string * doc)) :
  ok v = true → input v = d :: r → children vt d = Some kds →
  consume vt out (v, t) =
    (true, (advance r (foldl (reader_child out) (v, t) kds).1,
            (foldl (reader_child out) (v, t) kds).2)).
Proof.
  intros Hv Hin Hkds. simpl. unfold reader_consume. simpl.
  by rewrite Hv, Hin, Hkds.
Qed.

(** Reading what was produced: for transportable values and blank
    targets the reading visit takes exactly the produced document and
    leaves the produced value. *)
Lemma read_back (n : nat) : reads_back_all decls n.
Proof.
  induction n as [| n IH]; intros F x y d v r s Htr Hbl Hd Hr Hs Hv Hin; [done |].
  unfold reads_back. cbn [visit]. cbn [fst snd]. rewrite Hs.
  inversion Htr as [i | x0 | s0 | sz b Hb | F' l Hl | F' mp Hsorted Hmp
                    | k F' Hop | k F' x' Hop Hx'
                    | c dc sx Hdc Hlen Hmem Hund]; subst;
    inversion Hbl as [| | | | | | | c' dc' sy Hdc' Hlen' Hmem' Hund']; subst;
    cbn [doc_of] in Hd.
  - injection Hd as <-. unfold visit_leaf_int. cbn [fst snd]. rewrite Hs.
    simpl. unfold reader_leaf. by rewrite Hv, Hin.
  - injection Hd as <-. unfold visit_leaf_double. cbn [fst snd]. rewrite Hs.
    simpl. unfold reader_leaf. by rewrite Hv, Hin.
  - injection Hd as <-. unfold visit_leaf_string. cbn [fst snd]. rewrite Hs.
    simpl. unfold reader_leaf. by rewrite Hv, Hin.
  - injection Hd as <-. unfold visit_leaf_chars. cbn [fst snd]. rewrite Hs.
    simpl. unfold reader_leaf. rewrite Hv, Hin.
    rewrite length_string_of_list_byte, bool_decide_eq_true_2 by done.
    simpl. by rewrite list_byte_of_string_of_list_byte.
  - (* vector *)
    destruct (mapM (doc_of decls n F') l) as [ds |] eqn:Hds; [| done].
    injection Hd as <-. apply mapM_Some in Hds.
    unfold visit_vector. cbn [fst snd]. rewrite Hs.
    rewrite (reader_consume_eq vt_array _ v s (DArray ds) r
               ((fun d => (EmptyString, d)) <$> ds)) by done.
    destruct (read_elements n F' IH l ds Hds Hl v s [] Hv Hr Hs) as (Hok & Hres & _).
    split; [by apply advance_ok; rewrite Hok | done].
  - (* map *)
    destruct (mapM _ mp) as [kds |] eqn:Hkds; [| done].
    injection Hd as <-. apply mapM_Some in Hkds.
    unfold visit_map. cbn [fst snd]. rewrite Hs.
    rewrite (reader_consume_eq vt_object _ v s (DObject kds) r kds) by done.
    destruct (read_entries n F' IH mp kds) with (v := v) (s := s) (pre := @nil (string * value))
      as (Hok & Hres & _); try done.
    { eapply Forall2_impl; [done |]. intros [k0 x0] [k1 d1]. simpl.
      destruct (doc_of decls n F' x0); simpl; [| done]. by intros [= <- <-]. }
    { intros p q Hp. by apply not_elem_of_nil in Hp. }
    split; [by apply advance_ok; rewrite Hok | done].
  - (* null *)
    injection Hd as <-. unfold visit_pointer. cbn [fst snd]. rewrite Hs.
    simpl. unfold reader_peek. rewrite Hv, Hin. simpl. rewrite Hs.
    simpl. unfold reader_leaf. by rewrite Hv, Hin.
  - (* set pointer *)
    pose proof (doc_of_opaque n F' x' d Hop Hd) as Hnn.
    destruct (reader_peek_opaque v d r Hv Hin Hnn) as [Hp1 Hp2].
    destruct (value_init_blank _ _ Hx') as (y0 & Hinit & Hy0).
    rewrite (visit_pointer_alloc decls _ F' v v v (reader_peek v) (reader_peek v)
               s y0) by done.
    destruct (IH F' x' y0 d v r
                {| regs := regs s; news := S (news s); tgt := Some y0 |})
      as [Hv' Hres]; try done.
    split; [done |]. simpl. by rewrite Hres.
  - (* class *)
    assert (dc' = dc) as -> by congruence.
    pose proof (Hdecls c dc Hdc) as Hok.
    destruct (built_total dc (ok_names _ _ _ Hok)) as [ti Hb].
    pose proof (built_spec dc ti Hb) as (Hf & _ & _ & _).
    pose proof (declared_length dc (ok_names _ _ _ Hok)) as Hdl.
    rewrite Hdc in Hd. cbn [mbind option_bind] in Hd. rewrite Hb in Hd.
    cbn [mbind option_bind] in Hd.
    rewrite size_small in Hd
      by (rewrite Hf, Hdl; apply (ok_size _ _ _ Hok)).
    rewrite take_ge in Hd by done.
    destruct (mapM _ (fields ti)) as [kds |] eqn:Hkds; [| done].
    injection Hd as <-. apply mapM_Some in Hkds.
    destruct (regs_ok_lookup decls _ _ _ _ Hr Hdc Hb) as (Hget & Hr1 & Hsub1).
    unfold visit_class. cbn [fst snd]. rewrite Hs, Hdc.
    cbn [mbind option_bind]. rewrite Hget.
    rewrite (reader_consume_eq vt_object _ v _ (DObject kds) r kds) by done.
    destruct (read_members n c ti sx IH (fields ti) kds) with
        (v := v) (s := set_regs (<[c := ti]> (regs s)) s) (cur := sy)
      as (Hokv & Hres & _); try done.
    + eapply Forall2_impl_elem; [done |]. intros m [k1 d1] Hm. simpl.
      destruct (sx !! m_offset m) as [xm |] eqn:Hxm; simpl; [| done].
      destruct (doc_of decls n (m_type m) xm) as [dm |] eqn:Hdm; simpl; [| done].
      intros [= <- <-]. split; [done |]. exists xm. split; [done |]. split; [| done].
      rewrite Hf in Hm. apply list_elem_of_lookup_1 in Hm as [j Hj].
      apply declared_lookup in Hj as (off & H' & _ & Hmem_j & Heq).
      destruct (Hmem off H') as (xm' & Hxm' & Htr').
      { by eapply list_elem_of_lookup_2. }
      rewrite Heq in Hxm. simpl in Hxm. rewrite Heq. simpl. congruence.
    + rewrite Hf, declared_offsets by apply (ok_names _ _ _ Hok).
      apply (ok_members_distinct _ _ _ Hok).
    + intros m Hm. rewrite Hf in Hm. by eapply declared_resolve.
    + split; [done |]. simpl. apply insert_mono, map_empty_subseteq.
    + intros m Hm. rewrite Hf in Hm. apply list_elem_of_lookup_1 in Hm as [j Hj].
      apply declared_lookup in Hj as (off & H' & _ & Hmem_j & Heq).
      destruct (Hmem' off H') as (ym & Hym & Hbl').
      { by eapply list_elem_of_lookup_2. }
      rewrite Heq. simpl. eauto.
    + assert (overlay (fields ti) sx sy = sx) as Hov.
      { apply overlay_all; [congruence |].
        intros i Hi.
        rewrite Hf, declared_offsets in Hi by apply (ok_names _ _ _ Hok).
        rewrite Hund, Hund' by done. done. }
      rewrite Hov in Hres.
      split; [by apply advance_ok; rewrite Hokv | exact Hres].
Qed.

End reading.

(** ** The round trip *)

(** Enough depth gives the document: a transportable value has a document
    at every depth from its own nesting depth on. *)
Lemma doc_of_total (decls : gmap string class_decl) (n : nat) :
  decls_ok decls →
  ∀ F x, transportable decls F x → (value_depth x ≤ n)%nat →
         is_Some (doc_of decls n F x).
Proof.
  intros Hdecls. induction n as [| n IH]; intros F x Htr Hn.
  { destruct x as [| | | | | | [] | |]; simpl in Hn; lia. }
  inversion Htr as [i | x0 | s0 | sz b Hb | F' l Hl | F' mp Hsorted Hmp
                    | k F' Hop | k F' x' Hop Hx'
                    | c dc sx Hdc Hlen Hmem Hund]; subst;
    cbn [doc_of]; try done.
  - apply fmap_is_Some, mapM_is_Some, Forall_forall. intros x Hx. simpl.
    apply IH; [by eapply Forall_forall in Hl |].
    eapply value_depth_elem; [| done]. simpl in Hn. lia.
  - apply fmap_is_Some, mapM_is_Some, Forall_forall. intros p Hp. simpl.
    destruct (IH F' p.2) as [d Hd].
    + by eapply Forall_forall in Hmp.
    + eapply value_depth_entry; [| done]. simpl in Hn. lia.
    + by rewrite Hd.
  - apply IH; [done |]. simpl in Hn. lia.
  - rewrite Hdc. cbn [mbind option_bind].
    destruct (built_total dc (ok_names _ _ _ (Hdecls c dc Hdc))) as [ti Hb].
    rewrite Hb. cbn [mbind option_bind].
    pose proof (built_spec dc ti Hb) as (Hf & _).
    apply fmap_is_Some, mapM_is_Some, Forall_forall. intros m Hm. simpl.
    apply elem_of_take in Hm as (j & Hj & _). rewrite Hf in Hj.
    apply declared_lookup in Hj as (off & H' & _ & Hmem_j & Heq).
    destruct (Hmem off H') as (xm & Hxm & Htrm); [by eapply list_elem_of_lookup_2 |].
    rewrite Heq. simpl. rewrite Hxm. simpl.
    destruct (IH H' xm) as [d Hd]; [done | |].
    + eapply value_depth_elem; [| by eapply list_elem_of_lookup_2].
      simpl in Hn. lia.
    + by rewrite Hd.
Qed.

(** *** Members outside the macro *)






(** The classes of test.cpp meet the conditions. *)
Lemma test_decls_ok : decls_ok test_decls.
Proof.
  assert (∀ (l : list (nat * shape)) (P : nat → shape → Prop),
            Forall (fun p => P p.1 p.2) l → ∀ off F, (off, F) ∈ l → P off F) as Hall.
  { intros l P Hl off F Hin. by apply (proj1 (Forall_forall _ _) Hl (off, F)). }
  assert (blank test_decls (SClass "Ser1") (VObj [VInt 0])) as Hb1.
  { apply (blank_class _ _ Ser1); [done | done | |].
    - apply Hall. repeat constructor. simpl. eexists. split; [done | constructor].
    - intros i Hi. destruct i as [| i]; [| done]. destruct Hi. by left. }
  intros c d Hc. unfold test_decls in Hc.
  repeat (apply lookup_insert_Some in Hc as [[<- <-] | [_ Hc]]);
    [| | | | by rewrite lookup_empty in Hc].
  - split; [vm_compute; lia | done | | | done].
    + apply (bool_decide_unpack _). by vm_compute.
    + apply (bool_decide_unpack _). by vm_compute.
  - split; [vm_compute; lia | done | | |].
    + apply (bool_decide_unpack _). by vm_compute.
    + apply (bool_decide_unpack _). by vm_compute.
    + apply (blank_class _ _ Ser2); [done | done | |].
      * apply Hall. repeat constructor; simpl; eexists; (split; [done |]);
          [constructor | done].
      * intros i Hi. destruct i as [| [| i]]; [| | done]; destruct Hi; set_solver.
  - split; [vm_compute; lia | done | | |].
    + apply (bool_decide_unpack _). by vm_compute.
    + apply (bool_decide_unpack _). by vm_compute.
    + apply (blank_class _ _ Ser2P); [done | done | |].
      * apply Hall. repeat constructor; simpl; eexists; (split; [done |]);
          constructor.
      * intros i Hi. destruct i as [| [| i]]; [| | done]; destruct Hi; set_solver.
  - split; [vm_compute; lia | done | | |].
    + apply (bool_decide_unpack _). by vm_compute.
    + apply (bool_decide_unpack _). by vm_compute.
    + apply (blank_class _ _ SerVI); [done | done | |].
      * apply Hall. repeat constructor; simpl; eexists; (split; [done |]);
          constructor.
      * intros i Hi. destruct i as [| i]; [| done]. destruct Hi. by left.
Qed.



(** ** Vectors *)

(** The trace of a vector: the array bracket around the calls of the
    elements, in container order. *)
Lemma trace_vector (decls : gmap string class_decl) (F : shape) (n : nat)
    (l : list value) (cs : list call) :
  trace decls (S n) (SVec F) (VVec l) = Some cs →
  cs =
    [CStart vt_array] ++
    concat ((fun x => (calls decls n F x).1) <$> l) ++
    [CEnd vt_array] ∧
  ∀ x, x ∈ l → tgt (calls decls n F x).2 = Some x.
Proof.
  intros Htr. cbn [trace] in Htr.
  destruct (mapM _ l) as [css |] eqn:Hcss; simpl in Htr; [| done].
  injection Htr as <-. apply mapM_Some in Hcss. split.
  - simpl. do 2 f_equal. clear -Hcss.
    induction Hcss as [| x cs xs css Hx _ IH]; [done |].
    rewrite fmap_cons, !concat_cons. f_equal; [| done].
    by destruct (calls_trace _ _ _ _ _ Hx) as [-> _].
  - intros x Hx. apply list_elem_of_lookup in Hx as [i Hi].
    destruct (Forall2_lookup_l _ _ _ _ _ Hcss Hi) as (cx & _ & Hcx).
    by destruct (calls_trace _ _ _ _ _ Hcx) as [_ ->].
Qed.

(** C8: the vector visit.  (1) Each run of the consuming callback, that is
    each array item the visitor discovers, appends exactly one
    value-initialised element to the end of the vector and populates it by
    the visit of the element type; the elements already there are not
    touched.  (2) Read from an array of the documents of the values [xs],
    the vector is the one before with [xs] appended, one element per item
    and in the order of the items, and the reader has read the array and
    nothing more.  (3) Producing a vector hands the visitor the array
    bracket and, in between, the calls of its elements in container
    order, and returns with the vector as it was; so does the production
    of every element.  In (2) the classes are as the round trip needs
    them, in (3) the vector is laid out as its type says and nested no
    deeper than the recursion budget. *)
Theorem vector_semantics (decls : gmap string class_decl) (F : shape) (n : nat) :
  (∀ (V : Type) (H : visitor V) (rec : V * state → V * state) (x : string)
     (v : V) (s : state) (vp : list value) (dflt : value),
      tgt s = Some (VVec vp) → value_init decls F = Some dflt →
      ∃ st', st' = rec (v, set_tgt (Some dflt) s) ∧
             vector_callback decls rec F x (v, s) =
               (st'.1, set_tgt (x' ← tgt st'.2; Some (VVec (vp ++ [x']))) st'.2)) ∧
  (∀ (xs : list value) (items r : list doc) (vp : list value) (s : state),
      decls_ok decls →
      Forall (transportable decls F) xs →
      Forall2 (fun x d => doc_of decls n F x = Some d) xs items →
      regs_ok decls (regs s) → tgt s = Some (VVec vp) →
      (visit decls (S n) (SVec F) (reader_of (DArray items :: r), s)).1 =
        reader_of r ∧
      tgt (visit decls (S n) (SVec F) (reader_of (DArray items :: r), s)).2 =
        Some (VVec (vp ++ xs)) ∧
      length xs = length items) ∧
  (∀ (V : Type) (H : visitor V) (P : producer V) (l : list value) (v : V)
     (s : state),
      decls_cover decls →
      typed decls (SVec F) (VVec l) →
      (value_depth (VVec l) ≤ n)%nat →
      regs_ok decls (regs s) → tgt s = Some (VVec l) →
      (visit decls (S n) (SVec F) (v, s)).1 =
        play ([CStart vt_array] ++
              concat ((fun x => (calls decls n F x).1) <$> l) ++
              [CEnd vt_array]) v ∧
      tgt (visit decls (S n) (SVec F) (v, s)).2 = Some (VVec l) ∧
      (∀ x, x ∈ l → tgt (calls decls n F x).2 = Some x)).
Proof.
  split; [| split].
  - intros V H rec x v s vp dflt Hs Hinit. eexists. split; [done |].
    by apply vector_callback_eq.
  - intros xs items r vp s Hdecls Hxs Hitems Hr Hs.
    cbn [visit]. cbn [fst snd]. rewrite Hs.
    unfold visit_vector. cbn [fst snd]. rewrite Hs.
    rewrite (reader_consume_eq vt_array _ (reader_of (DArray items :: r)) s
               (DArray items) r ((fun d => (EmptyString, d)) <$> items))
      by done.
    destruct (read_elements decls Hdecls n F (read_back decls Hdecls n) xs items
                Hitems Hxs (reader_of (DArray items :: r)) s vp)
      as (Hok & Hres & _); try done.
    split; [| split; [done | by eapply Forall2_length]].
    change (reader_of r) with (advance r (reader_of (DArray items :: r))).
    by apply advance_ok; rewrite Hok.
  - intros V H P l v s Hdecls Hty Hn Hr Hs.
    destruct (trace_total decls (S n) Hdecls _ _ Hty) as [cs Htr]; [lia |].
    pose proof (visit_produces decls (S n) (SVec F) (VVec l) v s Hr Hs) as Hp.
    rewrite Htr in Hp. destruct Hp as (r' & -> & _ & _).
    destruct (trace_vector decls F n l cs Htr) as [-> Hall].
    by destruct s.
Qed.

Lemma vector_semantics_witness :
  (visit test_decls 2 (SVec SInt)
     (reader_of [DArray [DInt 7; DInt 8]; DString "next"],
      start (VVec [VInt 1]))).1 = reader_of [DString "next"] ∧
  tgt (visit test_decls 2 (SVec SInt)
         (reader_of [DArray [DInt 7; DInt 8]; DString "next"],
          start (VVec [VInt 1]))).2
    = Some (VVec [VInt 1; VInt 7; VInt 8]) ∧
  (calls test_decls 3 (SVec SInt) (VVec [VInt 1; VInt 23])).1 =
    [CStart vt_array; CInt 1; CInt 23; CEnd vt_array] ∧
  tgt (calls test_decls 3 (SVec SInt) (VVec [VInt 1; VInt 23])).2 =
    Some (VVec [VInt 1; VInt 23]).
Proof.
  destruct (vector_semantics test_decls SInt 1) as (_ & Hread & _).
  destruct (vector_semantics test_decls SInt 2) as (_ & _ & Hprod).
  destruct (Hread [VInt 7; VInt 8] [DInt 7; DInt 8] [DString "next"] [VInt 1]
              (start (VVec [VInt 1]))) as (Hv & Hx & _).
  - apply test_decls_ok.
  - repeat constructor.
  - by repeat constructor.
  - apply regs_ok_empty.
  - reflexivity.
  - destruct (Hprod recorder _ _ [VInt 1; VInt 23] [] (start (VVec [VInt 1; VInt 23])))
      as (Hcalls & Hres & _).
    + apply test_decls_cover.
    + repeat constructor.
    + simpl. lia.
    + apply regs_ok_empty.
    + reflexivity.
    + split; [exact Hv |]. split; [exact Hx |]. split; [| exact Hres].
      unfold calls. rewrite Hcalls. reflexivity.
Defined.
(** ** Unknown fields are tolerated *)




(** ** Concurrent first use *)

Lemma lookup_goto (ths : list thread_pc) (t t' : nat) (pc new pc' : thread_pc) :
  ths !! t = Some pc → <[t := new]> ths !! t' = Some pc' →
  (t' = t ∧ pc' = new) ∨ (t' ≠ t ∧ ths !! t' = Some pc').
Proof.
  intros Hpc Ht'. destruct (decide (t' = t)) as [-> | Hne].
  - left. split; [done |].
    rewrite list_lookup_insert_eq in Ht' by (by eapply lookup_lt_Some).
    congruence.
  - right. by rewrite list_lookup_insert_ne in Ht'.
Qed.

Lemma goto_lookup (ths : list thread_pc) (t : nat) (pc new : thread_pc) :
  ths !! t = Some pc → <[t := new]> ths !! t = Some new.
Proof. intros Hpc. apply list_lookup_insert_eq. by eapply lookup_lt_Some. Qed.

Lemma other_holder (d : class_decl) (σ : machine) (t t' : nat) (pc pc' : thread_pc) :
  machine_inv d σ → threads σ !! t = Some pc → holds_mutex pc = true →
  t' ≠ t → threads σ !! t' = Some pc' → holds_mutex pc' = false.
Proof.
  intros Hinv Hpc Hh Hne Hpc'. destruct (holds_mutex pc') eqn:Hh'; [| done].
  pose proof (inv_holder _ _ Hinv t pc Hpc Hh) as H1.
  pose proof (inv_holder _ _ Hinv t' pc' Hpc' Hh') as H2. congruence.
Qed.

Lemma expand_snoc (names : list string) (heads : list (nat * shape)) :
  ∀ (ti ti' : type_info) (idx : nat) (off : nat) (H : shape) (name : string),
    rpoco_type_info_expand ti names idx heads = Some ti' →
    names !! (idx + length heads)%nat = Some name →
    rpoco_type_info_expand ti names idx (heads ++ [(off, H)]) =
      Some (add {| m_name := name; m_offset := off; m_type := H |} ti').
Proof.
  induction heads as [| [off0 H0] heads IH]; intros ti ti' idx off H name; simpl.
  - intros [= <-]. rewrite Nat.add_0_r. by intros ->.
  - destruct (names !! idx) as [name0 |]; simpl; [| done].
    intros Hrest Hname. apply IH; [done |].
    by replace (S idx + length heads)%nat with (idx + S (length heads))%nat by lia.
Qed.

Lemma machine_inv_start (d : class_decl) (N : nat) :
  machine_inv d (machine_start N).
Proof.
  split; simpl; try done; try (by left); try lia.
  all: intros;
    repeat match goal with
           | H : replicate _ _ !! _ = Some _ |- _ =>
               apply lookup_replicate_1 in H as [? ?]
           end; by simplify_eq.
Qed.

(** Every step of every thread keeps the invariant. *)
Lemma machine_inv_step (d : class_decl) (t : nat) (σ σ' : machine) :
  machine_inv d σ → thread_step d t σ = Some σ' → machine_inv d σ'.
Proof.
  intros Hinv Hstep. unfold thread_step in Hstep.
  destruct (threads σ !! t) as [pc |] eqn:Hpc; simpl in Hstep; [| done].
  pose proof (lookup_goto (threads σ) t) as Hgoto.
  destruct pc as [| | | idx | | |].
  - (* the first load of the flag *)
    injection Hstep as <-. destruct Hinv as [Iholder Imutex Iflag Iruns Ibuilt Idone Iunlock Iexpand Istore Iidle Irecheck].
    split; simpl; try done.
    + intros t' pc' [[-> ->] | [Hne Hold]]%(Hgoto _ _ _ _ Hpc) Hh; [| eauto].
      by case_bool_decide.
    + intros t' Hm. destruct (Imutex t' Hm) as (pc' & Hpc' & Hh).
      exists pc'. split; [| done]. rewrite list_lookup_insert_ne; [done |].
      intros ->. by simplify_eq.
    + intros t' [[-> Hnew] | [Hne Hold]]%(Hgoto _ _ _ _ Hpc); [| eauto].
      unfold is_init in *. case_bool_decide; [done | lia].
    + intros t' [[-> Hnew] | [Hne Hold]]%(Hgoto _ _ _ _ Hpc); [| eauto].
      by case_bool_decide.
    + intros t' idx [[-> Hnew] | [Hne Hold]]%(Hgoto _ _ _ _ Hpc); [| eauto].
      by case_bool_decide.
    + intros t' [[-> Hnew] | [Hne Hold]]%(Hgoto _ _ _ _ Hpc); [| eauto].
      by case_bool_decide.
    + intros t' [[-> Hnew] | [Hne Hold]]%(Hgoto _ _ _ _ Hpc); [| eauto].
      by case_bool_decide.
  - (* taking the mutex *)
    destruct (mutex σ) as [holder |] eqn:Hm; [done |].
    injection Hstep as <-.
    assert (∀ t' pc', t' ≠ t → threads σ !! t' = Some pc' →
                      holds_mutex pc' = false) as Hfree.
    { intros t' pc' _ Hpc'. destruct (holds_mutex pc') eqn:Hh; [| done].
      pose proof (inv_holder _ _ Hinv t' pc' Hpc' Hh). congruence. }
    destruct Hinv as [Iholder Imutex Iflag Iruns Ibuilt Idone Iunlock Iexpand Istore Iidle Irecheck].
    split; simpl; try done.
    + intros t' pc' [[-> ->] | [Hne Hold]]%(Hgoto _ _ _ _ Hpc) Hh; [done |].
      rewrite (Hfree t' pc') in Hh; done.
    + intros t' [= <-]. exists pc_recheck. split; [| done].
      by eapply goto_lookup.
    + intros t' [[-> Hnew] | [Hne Hold]]%(Hgoto _ _ _ _ Hpc); [done | eauto].
    + intros t' [[-> Hnew] | [Hne Hold]]%(Hgoto _ _ _ _ Hpc); [done | eauto].
    + intros t' idx [[-> Hnew] | [Hne Hold]]%(Hgoto _ _ _ _ Hpc); [done | eauto].
    + intros t' [[-> Hnew] | [Hne Hold]]%(Hgoto _ _ _ _ Hpc); [done | eauto].
    + intros t' _ Hflag. by apply Iidle.
  - (* the second load of the flag *)
    pose proof (fun t' pc' => other_holder d σ t t' _ pc' Hinv Hpc eq_refl) as Hother.
    case_bool_decide as Hflag; injection Hstep as <-.
    + destruct (inv_recheck _ _ Hinv t Hpc Hflag) as [Hfresh Hruns].
      destruct Hinv as [Iholder Imutex Iflag Iruns Ibuilt Idone Iunlock Iexpand Istore Iidle Irecheck].
    split; simpl; try done.
      * intros t' pc' [[-> ->] | [Hne Hold]]%(Hgoto _ _ _ _ Hpc) Hh; eauto.
      * intros t' Hm. destruct (Imutex t' Hm) as (pc' & Hpc' & Hh).
        destruct (decide (t' = t)) as [-> | Hne].
        -- exists (pc_expand 0). split; [by eapply goto_lookup | done].
        -- exists pc'. by rewrite list_lookup_insert_ne.
      * lia.
      * intros Hone. lia.
      * intros t' [[-> Hnew] | [Hne Hold]]%(Hgoto _ _ _ _ Hpc); [done | eauto].
      * intros t' [[-> Hnew] | [Hne Hold]]%(Hgoto _ _ _ _ Hpc); [done | eauto].
      * intros t' idx [[-> Hnew] | [Hne Hold]]%(Hgoto _ _ _ _ Hpc).
        -- injection Hnew as ->. rewrite Hfresh, Hruns. by rewrite take_0.
        -- by pose proof (Hother t' _ Hne Hold).
      * intros t' [[-> Hnew] | [Hne Hold]]%(Hgoto _ _ _ _ Hpc); [done |].
        by pose proof (Hother t' _ Hne Hold).
      * intros Hm. by rewrite (Iholder t pc_recheck) in Hm.
      * intros t' [[-> Hnew] | [Hne Hold]]%(Hgoto _ _ _ _ Hpc); [done |].
        by pose proof (Hother t' _ Hne Hold).
    + assert (m_is_init (shared_ti σ) = 1) as Hone.
      { by destruct (inv_flag _ _ Hinv). }
      destruct Hinv as [Iholder Imutex Iflag Iruns Ibuilt Idone Iunlock Iexpand Istore Iidle Irecheck].
    split; simpl; try done.
      * intros t' pc' [[-> ->] | [Hne Hold]]%(Hgoto _ _ _ _ Hpc) Hh; eauto.
      * intros t' Hm. destruct (Imutex t' Hm) as (pc' & Hpc' & Hh).
        destruct (decide (t' = t)) as [-> | Hne].
        -- exists pc_unlock. split; [by eapply goto_lookup | done].
        -- exists pc'. by rewrite list_lookup_insert_ne.
      * intros t' idx [[-> Hnew] | [Hne Hold]]%(Hgoto _ _ _ _ Hpc); [done | eauto].
      * intros t' [[-> Hnew] | [Hne Hold]]%(Hgoto _ _ _ _ Hpc); [done | eauto].
  - (* one [add] of the initialiser *)
    pose proof (fun t' pc' => other_holder d σ t t' _ pc' Hinv Hpc eq_refl) as Hother.
    destruct (inv_expand _ _ Hinv t idx Hpc) as (Hflag & Hruns & Hexp).
    destruct (c_members d !! idx) as [[off H] |] eqn:Hidx.
    + destruct (extract_macro_names (c_args d) !! idx) as [name |] eqn:Hname;
        simpl in Hstep; [| done].
      injection Hstep as <-.
      destruct Hinv as [Iholder Imutex Iflag Iruns Ibuilt Idone Iunlock Iexpand Istore Iidle Irecheck].
    split; simpl; try done.
      * intros t' pc' [[-> ->] | [Hne Hold]]%(Hgoto _ _ _ _ Hpc) Hh; eauto.
      * intros t' Hm. destruct (Imutex t' Hm) as (pc' & Hpc' & Hh).
        destruct (decide (t' = t)) as [-> | Hne].
        -- exists (pc_expand (S idx)). split; [by eapply goto_lookup | done].
        -- exists pc'. by rewrite list_lookup_insert_ne.
      * intros Hone. lia.
      * intros t' [[-> Hnew] | [Hne Hold]]%(Hgoto _ _ _ _ Hpc); [done |].
        pose proof (Idone t' Hold). lia.
      * intros t' [[-> Hnew] | [Hne Hold]]%(Hgoto _ _ _ _ Hpc); [done |].
        by pose proof (Hother t' _ Hne Hold).
      * intros t' idx' [[-> Hnew] | [Hne Hold]]%(Hgoto _ _ _ _ Hpc).
        -- injection Hnew as ->. split; [done |]. split; [done |].
           rewrite (take_S_r _ _ _ Hidx).
           apply expand_snoc; [done |]. simpl.
           rewrite length_take_le; [done |]. apply lookup_lt_Some in Hidx. lia.
        -- by pose proof (Hother t' _ Hne Hold).
      * intros t' [[-> Hnew] | [Hne Hold]]%(Hgoto _ _ _ _ Hpc); [done |].
        by pose proof (Hother t' _ Hne Hold).
      * intros Hm. by rewrite (Iholder t (pc_expand idx)) in Hm.
      * intros t' [[-> Hnew] | [Hne Hold]]%(Hgoto _ _ _ _ Hpc); [done |].
        by pose proof (Hother t' _ Hne Hold).
    + injection Hstep as <-.
      destruct Hinv as [Iholder Imutex Iflag Iruns Ibuilt Idone Iunlock Iexpand Istore Iidle Irecheck].
    split; simpl; try done.
      * intros t' pc' [[-> ->] | [Hne Hold]]%(Hgoto _ _ _ _ Hpc) Hh; eauto.
      * intros t' Hm. destruct (Imutex t' Hm) as (pc' & Hpc' & Hh).
        destruct (decide (t' = t)) as [-> | Hne].
        -- exists pc_store. split; [by eapply goto_lookup | done].
        -- exists pc'. by rewrite list_lookup_insert_ne.
      * intros t' [[-> Hnew] | [Hne Hold]]%(Hgoto _ _ _ _ Hpc); [done | eauto].
      * intros t' [[-> Hnew] | [Hne Hold]]%(Hgoto _ _ _ _ Hpc); [done | eauto].
      * intros t' idx' [[-> Hnew] | [Hne Hold]]%(Hgoto _ _ _ _ Hpc); [done | eauto].
      * intros t' [[-> Hnew] | [Hne Hold]]%(Hgoto _ _ _ _ Hpc); [| eauto].
        split; [done |]. split; [done |].
        by rewrite take_ge in Hexp by (by apply lookup_ge_None_1).
      * intros t' [[-> Hnew] | [Hne Hold]]%(Hgoto _ _ _ _ Hpc); [done | eauto].
  - (* the store of the flag *)
    pose proof (fun t' pc' => other_holder d σ t t' _ pc' Hinv Hpc eq_refl) as Hother.
    destruct (inv_store _ _ Hinv t Hpc) as (Hflag & Hruns & Hexp).
    injection Hstep as <-.
    destruct Hinv as [Iholder Imutex Iflag Iruns Ibuilt Idone Iunlock Iexpand Istore Iidle Irecheck].
    split; simpl; try done.
    + intros t' pc' [[-> ->] | [Hne Hold]]%(Hgoto _ _ _ _ Hpc) Hh; eauto.
    + intros t' Hm. destruct (Imutex t' Hm) as (pc' & Hpc' & Hh).
      destruct (decide (t' = t)) as [-> | Hne].
      * exists pc_unlock. split; [by eapply goto_lookup | done].
      * exists pc'. by rewrite list_lookup_insert_ne.
    + by right.
    + intros _. split; [| done].
      unfold built, rpoco_type_info_get, init, rpoco_initfun. simpl.
      by rewrite Hexp.
    + intros t' idx [[-> Hnew] | [Hne Hold]]%(Hgoto _ _ _ _ Hpc); [done |].
      by pose proof (Hother t' _ Hne Hold).
    + intros t' [[-> Hnew] | [Hne Hold]]%(Hgoto _ _ _ _ Hpc); [done |].
      by pose proof (Hother t' _ Hne Hold).
  - (* releasing the mutex *)
    pose proof (fun t' pc' => other_holder d σ t t' _ pc' Hinv Hpc eq_refl) as Hother.
    pose proof (inv_unlock _ _ Hinv t Hpc) as Hone.
    injection Hstep as <-.
    destruct Hinv as [Iholder Imutex Iflag Iruns Ibuilt Idone Iunlock Iexpand Istore Iidle Irecheck].
    split; simpl; try done.
    + intros t' pc' [[-> ->] | [Hne Hold]]%(Hgoto _ _ _ _ Hpc) Hh; [done |].
      by rewrite (Hother t' pc' Hne Hold) in Hh.
    + intros t' idx [[-> Hnew] | [Hne Hold]]%(Hgoto _ _ _ _ Hpc); [done | eauto].
    + intros t' [[-> Hnew] | [Hne Hold]]%(Hgoto _ _ _ _ Hpc); [done | eauto].
    + intros _ Hflag. lia.
    + intros t' [[-> Hnew] | [Hne Hold]]%(Hgoto _ _ _ _ Hpc); [done | eauto].
  - done.
Qed.

Lemma machine_inv_run (d : class_decl) (sched : list nat) :
  ∀ σ, machine_inv d σ → machine_inv d (run_schedule d sched σ).
Proof.
  unfold run_schedule.
  induction sched as [| t sched IH]; intros σ Hinv; simpl; [done |].
  apply IH. destruct (thread_step d t σ) as [σ' |] eqn:Hstep; simpl; [| done].
  by eapply machine_inv_step.
Qed.

Lemma run_schedule_app (d : class_decl) (s1 s2 : list nat) (σ : machine) :
  run_schedule d (s1 ++ s2) σ = run_schedule d s2 (run_schedule d s1 σ).
Proof. unfold run_schedule. apply foldl_app. Qed.

(** Once the flag is set no step touches the table or enters [initfun]. *)
Lemma built_step_stable (d : class_decl) (t : nat) (σ σ' : machine) :
  machine_inv d σ → m_is_init (shared_ti σ) = 1 →
  thread_step d t σ = Some σ' →
  shared_ti σ' = shared_ti σ ∧ init_runs σ' = init_runs σ.
Proof.
  intros Hinv Hone Hstep. unfold thread_step in Hstep.
  destruct (threads σ !! t) as [pc |] eqn:Hpc; simpl in Hstep; [| done].
  destruct pc as [| | | idx | | |].
  - by injection Hstep as <-.
  - destruct (mutex σ); [done |]. by injection Hstep as <-.
  - rewrite bool_decide_eq_false_2 in Hstep by lia. by injection Hstep as <-.
  - destruct (inv_expand _ _ Hinv t idx Hpc) as (Hzero & _). lia.
  - destruct (inv_store _ _ Hinv t Hpc) as (Hzero & _). lia.
  - by injection Hstep as <-.
  - done.
Qed.

Lemma built_run_stable (d : class_decl) (sched : list nat) :
  ∀ σ, machine_inv d σ → m_is_init (shared_ti σ) = 1 →
       shared_ti (run_schedule d sched σ) = shared_ti σ ∧
       init_runs (run_schedule d sched σ) = init_runs σ.
Proof.
  unfold run_schedule.
  induction sched as [| t sched IH]; intros σ Hinv Hone; simpl; [done |].
  destruct (thread_step d t σ) as [σ' |] eqn:Hstep; simpl; [| by apply IH].
  destruct (built_step_stable d t σ σ' Hinv Hone Hstep) as [Hti Hruns].
  destruct (IH σ') as [Hti' Hruns'].
  - by eapply machine_inv_step.
  - by rewrite Hti.
  - split; congruence.
Qed.

Lemma sum_list_goto (f : thread_pc → nat) (ths : list thread_pc) :
  ∀ (t : nat) (pc new : thread_pc),
    ths !! t = Some pc →
    (sum_list (f <$> <[t := new]> ths) + f pc = sum_list (f <$> ths) + f new)%nat.
Proof.
  induction ths as [| pc0 ths IH]; intros t pc new Hpc; [done |].
  destruct t as [| t]; simpl in *.
  - injection Hpc as ->. lia.
  - specialize (IH t pc new Hpc). unfold fmap in IH. lia.
Qed.

(** Every step uses up some of the work that is left. *)
Lemma step_decreases (d : class_decl) (t : nat) (σ σ' : machine) :
  thread_step d t σ = Some σ' → (work_left d σ' < work_left d σ)%nat.
Proof.
  intros Hstep. unfold thread_step in Hstep.
  destruct (threads σ !! t) as [pc |] eqn:Hpc; simpl in Hstep; [| done].
  pose proof (fun new => sum_list_goto (steps_left d) (threads σ) t pc new Hpc)
    as Hsum.
  unfold work_left.
  destruct pc as [| | | idx | | |].
  - injection Hstep as <-. simpl.
    specialize (Hsum (if bool_decide (is_init (shared_ti σ) = 0)
                      then pc_lock else pc_done)).
    case_bool_decide; simpl in Hsum; lia.
  - destruct (mutex σ); [done |]. injection Hstep as <-. simpl.
    specialize (Hsum pc_recheck). simpl in Hsum. lia.
  - case_bool_decide; injection Hstep as <-; simpl.
    + specialize (Hsum (pc_expand 0)). simpl in Hsum. lia.
    + specialize (Hsum pc_unlock). simpl in Hsum. lia.
  - destruct (c_members d !! idx) as [[off H] |] eqn:Hidx.
    + destruct (extract_macro_names (c_args d) !! idx); simpl in Hstep; [| done].
      injection Hstep as <-. simpl.
      specialize (Hsum (pc_expand (S idx))). simpl in Hsum.
      apply lookup_lt_Some in Hidx. lia.
    + injection Hstep as <-. simpl.
      specialize (Hsum pc_store). simpl in Hsum. lia.
  - injection Hstep as <-. simpl.
    specialize (Hsum pc_unlock). simpl in Hsum. lia.
  - injection Hstep as <-. simpl.
    specialize (Hsum pc_done). simpl in Hsum. lia.
  - done.
Qed.

(** No deadlock: while a thread has not returned, some thread can step. *)
Lemma progress (d : class_decl) (σ : machine) :
  (length (c_members d) ≤ length (extract_macro_names (c_args d)))%nat →
  machine_inv d σ → ¬ finished σ →
  ∃ t σ', thread_step d t σ = Some σ'.
Proof.
  intros Hnames Hinv Hnot.
  assert (∀ t pc, threads σ !! t = Some pc → holds_mutex pc = true →
                  ∃ σ', thread_step d t σ = Some σ') as Hholder.
  { intros t pc Hpc Hh. unfold thread_step. rewrite Hpc. simpl.
    destruct pc as [| | | idx | | |]; try done; eauto.
    - case_bool_decide; eauto.
    - destruct (c_members d !! idx) as [[off H] |] eqn:Hidx; [| eauto].
      apply lookup_lt_Some in Hidx.
      destruct (lookup_lt_is_Some_2 (extract_macro_names (c_args d)) idx)
        as [name Hname]; [lia |].
      rewrite Hname. simpl. eauto. }
  destruct (mutex σ) as [holder |] eqn:Hm.
  - destruct (inv_mutex _ _ Hinv holder Hm) as (pc & Hpc & Hh).
    exists holder. eauto.
  - apply not_Forall_Exists in Hnot; [| intros pc; apply _].
    apply Exists_exists in Hnot as (pc & Hin & Hpc).
    apply list_elem_of_lookup_1 in Hin as [t Ht].
    exists t. unfold thread_step. rewrite Ht. simpl.
    destruct pc as [| | | idx | | |]; try done; eauto.
    all: try (pose proof (inv_holder _ _ Hinv t _ Ht eq_refl); congruence).
    + rewrite Hm. eauto.
    + by destruct Hpc.
Qed.

(** From every reachable state some schedule lets all the threads return. *)
Lemma can_finish (d : class_decl) :
  (length (c_members d) ≤ length (extract_macro_names (c_args d)))%nat →
  ∀ (w : nat) (σ : machine),
    (work_left d σ < w)%nat → machine_inv d σ →
    ∃ sched, finished (run_schedule d sched σ).
Proof.
  intros Hnames. induction w as [| w IH]; intros σ Hw Hinv; [lia |].
  destruct (decide (finished σ)) as [Hfin | Hnot].
  - by exists [].
  - destruct (progress d σ Hnames Hinv Hnot) as (t & σ' & Hstep).
    destruct (IH σ') as [sched Hsched].
    + pose proof (step_decreases d t σ σ' Hstep). lia.
    + by eapply machine_inv_step.
    + exists (t :: sched). unfold run_schedule in *. simpl. by rewrite Hstep.
Qed.

Lemma step_threads_length (d : class_decl) (t : nat) (σ σ' : machine) :
  thread_step d t σ = Some σ' → length (threads σ') = length (threads σ).
Proof.
  intros Hstep. unfold thread_step in Hstep.
  destruct (threads σ !! t) as [pc |]; simpl in Hstep; [| done].
  destruct pc as [| | | idx | | |]; repeat case_match;
    simplify_option_eq; simpl; by rewrite ?length_insert.
Qed.

Lemma reached_threads_length (d : class_decl) (N : nat) (sched : list nat) :
  length (threads (reached d N sched)) = N.
Proof.
  unfold reached, run_schedule.
  assert (length (threads (machine_start N)) = N) as Hstart.
  { simpl. apply length_replicate. }
  revert Hstart. generalize (machine_start N) as σ.
  induction sched as [| t sched IH]; intros σ Hlen; simpl; [done |].
  apply IH. destruct (thread_step d t σ) as [σ' |] eqn:Hstep; simpl; [| done].
  by rewrite (step_threads_length d t σ σ' Hstep).
Qed.

Lemma reached_inv (d : class_decl) (N : nat) (sched : list nat) :
  machine_inv d (reached d N sched).
Proof. apply machine_inv_run, machine_inv_start. Qed.

(** C2: for every class and every interleaving of [N] threads that call
    [rpoco_type_info_get] for the first time, [initfun] is entered at most
    once; a thread returns only after the flag is set; once the flag is set
    [initfun] has run exactly once, the shared registry is the one a single
    call builds (all the members, in declaration order), no further step of
    any thread changes it or runs [initfun] again, and later calls of
    [rpoco_type_info_get] and of [init] return it as it is.  With at least
    one thread, all threads returned means exactly one run.  When the names
    cover the members the threads never block each other for good: every
    reachable state can be continued until all have returned, and a state in
    which no thread can step is one in which all have. *)
Theorem registry_built_once (d : class_decl) (N : nat) (sched : list nat) :
  (init_runs (reached d N sched) ≤ 1)%nat ∧
  (∀ t, threads (reached d N sched) !! t = Some pc_done →
        m_is_init (shared_ti (reached d N sched)) = 1) ∧
  (m_is_init (shared_ti (reached d N sched)) = 1 →
     init_runs (reached d N sched) = 1%nat ∧
     built d = Some (shared_ti (reached d N sched)) ∧
     fields (shared_ti (reached d N sched)) = declared d ∧
     (∀ more, shared_ti (reached d N (sched ++ more)) =
                shared_ti (reached d N sched) ∧
              init_runs (reached d N (sched ++ more)) = 1%nat) ∧
     rpoco_type_info_get d (shared_ti (reached d N sched)) =
       Some (shared_ti (reached d N sched)) ∧
     (∀ initfun, init initfun (shared_ti (reached d N sched)) =
                   Some (shared_ti (reached d N sched)))) ∧
  ((0 < N)%nat → finished (reached d N sched) →
     init_runs (reached d N sched) = 1%nat) ∧
  ((length (c_members d) ≤ length (extract_macro_names (c_args d)))%nat →
     (∃ more, finished (reached d N (sched ++ more))) ∧
     ((∀ t, thread_step d t (reached d N sched) = None) →
      finished (reached d N sched))).
Proof.
  pose proof (reached_inv d N sched) as Hinv.
  split; [apply (inv_runs _ _ Hinv) |].
  split; [apply (inv_done _ _ Hinv) |].
  split; [| split].
  - intros Hone. destruct (inv_built _ _ Hinv Hone) as [Hbuilt Hruns].
    split; [done |]. split; [done |].
    split; [by destruct (built_spec _ _ Hbuilt) |].
    split; [| split].
    + intros more. unfold reached. rewrite run_schedule_app.
      destruct (built_run_stable d more _ Hinv Hone) as [Hti Hr].
      unfold reached in *. split; congruence.
    + apply get_initialised. lia.
    + intros initfun. apply init_initialised. lia.
  - intros HN Hfin.
    destruct (lookup_lt_is_Some_2 (threads (reached d N sched)) 0) as [pc Hpc].
    { rewrite reached_threads_length. lia. }
    assert (pc = pc_done) as ->.
    { unfold finished in Hfin. rewrite Forall_lookup in Hfin. by eapply Hfin. }
    by destruct (inv_built _ _ Hinv (inv_done _ _ Hinv 0%nat Hpc)).
  - intros Hnames. split.
    + destruct (can_finish d Hnames (S (work_left d (reached d N sched)))
                  (reached d N sched)) as [more Hmore]; [lia | done |].
      exists more. unfold reached. by rewrite run_schedule_app.
    + intros Hstuck. destruct (decide (finished (reached d N sched)))
        as [Hfin | Hnot]; [done |].
      destruct (progress d _ Hnames Hinv Hnot) as (t & σ' & Hstep).
      by rewrite Hstuck in Hstep.
Qed.

Lemma registry_built_once_witness :
  threads (reached Ser2 3 three_threads) = [pc_done; pc_done; pc_done] ∧
  init_runs (reached Ser2 3 three_threads) = 1%nat ∧
  fields (shared_ti (reached Ser2 3 three_threads)) = declared Ser2.
Proof.
  destruct (registry_built_once Ser2 3 three_threads)
    as (_ & Hdone & Hbuilt & _).
  assert (threads (reached Ser2 3 three_threads) = [pc_done; pc_done; pc_done])
    as Hthreads by (vm_compute; reflexivity).
  assert (m_is_init (shared_ti (reached Ser2 3 three_threads)) = 1) as Hone.
  { apply (Hdone 0%nat). rewrite Hthreads. reflexivity. }
  destruct (Hbuilt Hone) as (Hruns & _ & Hfields & _).
  exact (conj Hthreads (conj Hruns Hfields)).
Defined.

(** ** The argument list of [RPOCO] ([extract_macro_names]) *)

Lemma append_nil (b : string) : EmptyString +:+ b = b.
Proof. reflexivity. Qed.

Lemma append_cons (c : ascii) (a b : string) :
  String c a +:+ b = String c (a +:+ b).
Proof. reflexivity. Qed.

Lemma skip_seps_head (t : string) :
  match skip_seps t with
  | String c _ => is_sep c = false
  | EmptyString => True
  end.
Proof.
  induction t as [| c r IH]; simpl; [done |].
  destruct (is_sep c) eqn:Hc; [done |]. simpl. done.
Qed.

Lemma skip_seps_all (t : string) : all_seps t = true → skip_seps t = EmptyString.
Proof.
  induction t as [| c r IH]; simpl; [done |].
  destruct (is_sep c); simpl; [done | done].
Qed.

Lemma skip_seps_run (seps rest : string) :
  all_seps seps = true → skip_seps (seps +:+ rest) = skip_seps rest.
Proof.
  induction seps as [| c r IH]; rewrite ?append_nil, ?append_cons; simpl; [done |].
  destruct (is_sep c); simpl; [done | done].
Qed.

Lemma sep_free_app (a b : string) :
  sep_free (a +:+ b) = sep_free a && sep_free b.
Proof.
  induction a as [| c r IH]; rewrite ?append_nil, ?append_cons; simpl; [done |].
  rewrite IH. by rewrite andb_assoc.
Qed.

Lemma app_not_empty (a : string) (c : ascii) :
  a +:+ String c EmptyString ≠ EmptyString.
Proof. by destruct a. Qed.

Lemma string_app_assoc (a b c : string) : (a +:+ b) +:+ c = a +:+ (b +:+ c).
Proof.
  induction a as [| x a IH]; rewrite ?append_nil, ?append_cons; [done |].
  by rewrite IH.
Qed.

Lemma string_app_empty_r (a : string) : a +:+ EmptyString = a.
Proof.
  induction a as [| x a IH]; rewrite ?append_nil, ?append_cons; [done |].
  by rewrite IH.
Qed.

(** The loop only appends to [out], and what it appends are names, as long
    as the token in progress is one or is still empty in front of a
    character that starts one. *)
Lemma extract_loop_names (t : string) :
  ∀ (skipping : bool) (tok : string) (out : list string),
    Forall (fun s => is_name s = true) out →
    sep_free tok = true →
    (skipping = false → tok = EmptyString →
     match t with String c _ => is_sep c = false | EmptyString => True end) →
    Forall (fun s => is_name s = true) (extract_loop t skipping tok out).
Proof.
  induction t as [| c r IH]; intros skipping tok out Hout Htok Hstart; simpl.
  - destruct skipping; [done |]. case_bool_decide as He; [done |].
    apply Forall_app. split; [done |]. apply Forall_singleton.
    unfold is_name. rewrite Htok. by rewrite bool_decide_eq_false_2.
  - destruct skipping.
    + destruct (is_sep c) eqn:Hc.
      * apply IH; done.
      * apply IH; [done | simpl; by rewrite Hc | done].
    + destruct (is_sep c) eqn:Hc.
      * apply IH; [| done | done].
        apply Forall_app. split; [done |]. apply Forall_singleton.
        unfold is_name. rewrite Htok.
        destruct (decide (tok = EmptyString)) as [He | He].
        -- specialize (Hstart eq_refl He). congruence.
        -- by rewrite bool_decide_eq_false_2.
      * apply IH; [done | |].
        -- rewrite sep_free_app, Htok. simpl. by rewrite Hc.
        -- intros _ He. by apply app_not_empty in He.
Qed.

(** X1: every string [extract_macro_names] returns is a name: it is not
    empty and holds no space and no comma, whatever the argument text. *)
Theorem extract_macro_names_are_names (t : string) :
  Forall (fun s => s ≠ EmptyString ∧ sep_free s = true) (extract_macro_names t).
Proof.
  eapply Forall_impl.
  - unfold extract_macro_names.
    apply (extract_loop_names (skip_seps t) false EmptyString []); [done | done |].
    intros _ _. apply skip_seps_head.
  - intros s Hs. unfold is_name in Hs. apply andb_prop in Hs as [Hne Hfree].
    split; [| done]. intros ->. done.
Qed.

(** The characters of a name extend the token in progress. *)
Lemma extract_loop_name (name : string) :
  ∀ (rest tok : string) (out : list string),
    sep_free name = true →
    extract_loop (name +:+ rest) false tok out =
    extract_loop rest false (tok +:+ name) out.
Proof.
  induction name as [| c r IH]; intros rest tok out Hfree;
    rewrite ?append_nil, ?append_cons; simpl.
  - by rewrite string_app_empty_r.
  - simpl in Hfree. apply andb_prop in Hfree as [Hc Hr].
    apply negb_true_iff in Hc. rewrite Hc, IH by done.
    by rewrite string_app_assoc, append_cons, append_nil.
Qed.

(** A run of separators is skipped. *)
Lemma extract_loop_skip (seps : string) :
  ∀ (rest : string) (out : list string),
    all_seps seps = true →
    extract_loop (seps +:+ rest) true EmptyString out =
    extract_loop rest true EmptyString out.
Proof.
  induction seps as [| c r IH]; intros rest out Hs;
    rewrite ?append_nil, ?append_cons; simpl; [done |].
  simpl in Hs. apply andb_prop in Hs as [Hc Hr]. rewrite Hc. by apply IH.
Qed.

(** After the skipping the next token starts where the cursor stands. *)
Lemma extract_loop_resume (t : string) (out : list string) :
  match t with String c _ => is_sep c = false | EmptyString => True end →
  extract_loop t true EmptyString out = extract_loop t false EmptyString out.
Proof.
  destruct t as [| c r]; simpl; [done |]. intros ->. by rewrite append_nil.
Qed.

Lemma joined_head (items : list (string * string)) :
  well_joined items = true →
  match joined items with
  | String c _ => is_sep c = false
  | EmptyString => True
  end.
Proof.
  destruct items as [| [name seps] rest]; simpl; [done |].
  intros Hw. do 3 (apply andb_prop in Hw as [Hw _]).
  unfold is_name in Hw. apply andb_prop in Hw as [Hne Hfree].
  destruct name as [| c r]; [done |]. rewrite append_cons. simpl in Hfree.
  apply andb_prop in Hfree as [Hc _]. by apply negb_true_iff in Hc.
Qed.

Lemma extract_loop_joined (items : list (string * string)) :
  ∀ out : list string,
    well_joined items = true →
    extract_loop (joined items) false EmptyString out = out ++ items.*1.
Proof.
  induction items as [| [name seps] rest IH]; intros out Hw; simpl.
  - by rewrite app_nil_r.
  - simpl in Hw. apply andb_prop in Hw as [Hw Hrest].
    apply andb_prop in Hw as [Hw Hlast]. apply andb_prop in Hw as [Hname Hseps].
    unfold is_name in Hname. apply andb_prop in Hname as [Hne Hfree].
    apply negb_true_iff, bool_decide_eq_false in Hne.
    rewrite extract_loop_name by done. rewrite append_nil.
    destruct seps as [| c s]; rewrite ?append_nil, ?append_cons; simpl.
    + simpl in Hlast. apply bool_decide_eq_true in Hlast as ->. simpl.
      by rewrite bool_decide_eq_false_2.
    + simpl in Hseps. apply andb_prop in Hseps as [Hc Hs]. rewrite Hc.
      rewrite extract_loop_skip by done.
      rewrite extract_loop_resume by (by apply joined_head).
      rewrite IH by done. by rewrite <- app_assoc.
Qed.

Lemma extract_of_joined (lead : string) (items : list (string * string)) :
  all_seps lead = true → well_joined items = true →
  extract_macro_names (lead +:+ joined items) = items.*1.
Proof.
  intros Hlead Hw. unfold extract_macro_names.
  rewrite skip_seps_run by done.
  assert (skip_seps (joined items) = joined items) as ->.
  { pose proof (joined_head items Hw) as Hh.
    destruct (joined items) as [| c r]; simpl; [done |]. by rewrite Hh. }
  by rewrite extract_loop_joined.
Qed.

(** X2: an argument list written as names separated by non-empty runs of
    spaces and commas, with any such run before the first and after the
    last name, is split into exactly those names, in order. *)
Theorem extract_macro_names_joined (lead : string) (items : list (string * string)) :
  all_seps lead = true → well_joined items = true →
  extract_macro_names (lead +:+ joined items) = items.*1.
Proof.
  intros Hlead Hw. unfold extract_macro_names.
  rewrite skip_seps_run by done.
  pose proof (joined_head items Hw) as Hhead.
  assert (skip_seps (joined items) = joined items) as Hstart.
  { destruct (joined items) as [| c r]; simpl; [done |]. by rewrite Hhead. }
  rewrite Hstart. by apply extract_loop_joined.
Qed.

Lemma extract_macro_names_joined_witness :
  extract_macro_names "  a,sub , ints  " = ["a"; "sub"; "ints"].
Proof.
  apply (extract_macro_names_joined
           "  " [("a", ","); ("sub", " , "); ("ints", "  ")]); reflexivity.
Defined.

Lemma extract_loop_grows (t : string) :
  ∀ (skipping : bool) (tok : string) (out : list string),
    (length out ≤ length (extract_loop t skipping tok out))%nat ∧
    (skipping = false → tok ≠ EmptyString →
     (length out < length (extract_loop t skipping tok out))%nat).
Proof.
  induction t as [| c r IH]; intros skipping tok out; simpl.
  - destruct skipping; [split; [done | done] |].
    case_bool_decide; [split; [done | done] |].
    rewrite length_app. simpl. split; [lia | intros; lia].
  - destruct skipping.
    + split; [| done]. destruct (is_sep c); apply IH.
    + destruct (is_sep c).
      * destruct (IH true EmptyString (out ++ [tok])) as [Hle _].
        rewrite length_app in Hle. simpl in Hle. split; [lia | intros; lia].
      * destruct (IH false (tok +:+ String c EmptyString) out) as [Hle Hlt].
        split; [done |]. intros _ _. apply Hlt; [done |]. apply app_not_empty.
Qed.

(** X3: [extract_macro_names] returns no name exactly when the argument
    text holds nothing but spaces and commas (the empty text included). *)
Theorem extract_macro_names_none (t : string) :
  extract_macro_names t = [] ↔ all_seps t = true.
Proof.
  unfold extract_macro_names. split.
  - intros Hnil. induction t as [| c r IH]; simpl; [done |].
    simpl in Hnil. destruct (is_sep c) eqn:Hc; simpl; [by apply IH |].
    simpl in Hnil. rewrite Hc, append_nil in Hnil.
    destruct (extract_loop_grows r false (String c EmptyString) []) as [_ Hlt].
    rewrite Hnil in Hlt. simpl in Hlt.
    assert (String c EmptyString ≠ EmptyString) as Hne by done.
    specialize (Hlt eq_refl Hne). lia.
  - intros Hall. by rewrite skip_seps_all.
Qed.

(** ** More on the registry *)

(** X4: [add] on a registry with room for one more member: [size] grows by
    one; the new member is found at the last position and under its name,
    and the lookup by name leaves the registry as it is; the members added
    before keep their positions, the other names keep their entries, and
    the flag is not touched. *)
Theorem add_then_lookup (fb : member) (t : type_info) :
  Z.of_nat (length (fields t)) < 2 ^ 31 - 1 →
  size (add fb t) = size t + 1 ∧
  (index_int (size t) (add fb t) ≫= fun p => deref p (add fb t)) = Some fb ∧
  has (m_name fb) (add fb t) = true ∧
  index_name (m_name fb) (add fb t) = (Some (length (fields t)), add fb t) ∧
  deref (Some (length (fields t))) (add fb t) = Some fb ∧
  (∀ i m, fields t !! i = Some m → fields (add fb t) !! i = Some m) ∧
  (∀ n, n ≠ m_name fb →
        m_named_fields (add fb t) !! n = m_named_fields t !! n) ∧
  m_is_init (add fb t) = m_is_init t.
Proof.
  intros Hlen.
  assert (size t = Z.of_nat (length (fields t))) as Hsize.
  { unfold size. apply to_int_small. lia. }
  assert (deref (Some (length (fields t))) (add fb t) = Some fb) as Hder.
  { simpl. rewrite lookup_app_r by done. by rewrite Nat.sub_diag. }
  split.
  { unfold size at 1. simpl. rewrite length_app. simpl.
    rewrite to_int_small by lia. lia. }
  split.
  { rewrite Hsize, index_int_lt; [done |]. simpl. rewrite length_app. simpl. lia. }
  split.
  { apply has_true. simpl. rewrite lookup_insert_eq. eauto. }
  split.
  { unfold index_name. simpl. by rewrite lookup_insert_eq. }
  split; [done |]. split.
  { intros i m Hm. simpl. by apply lookup_app_l_Some. }
  split; [| done].
  intros n Hn. simpl. by rewrite lookup_insert_ne.
Qed.

Lemma add_then_lookup_witness :
  size (add {| m_name := "sub"; m_offset := 1; m_type := SClass "Ser1" |}
            (add {| m_name := "a"; m_offset := 0; m_type := SInt |}
                 fresh_type_info)) = 2 ∧
  has "sub" (add {| m_name := "sub"; m_offset := 1; m_type := SClass "Ser1" |}
                 (add {| m_name := "a"; m_offset := 0; m_type := SInt |}
                      fresh_type_info)) = true.
Proof.
  destruct (add_then_lookup
              {| m_name := "sub"; m_offset := 1; m_type := SClass "Ser1" |}
              (add {| m_name := "a"; m_offset := 0; m_type := SInt |}
                   fresh_type_info))
    as (Hsize & _ & Hhas & _).
  - vm_compute. reflexivity.
  - split; [| exact Hhas]. rewrite Hsize. reflexivity.
Defined.

(** X5: the first [rpoco_type_info_get] of a class stays within the
    bounds of [names] exactly when the argument text yields at least as
    many names as the macro has arguments.  It then leaves the declared
    members in declaration order, a name table that points every name at
    the last member carrying it, and the flag set. *)
Theorem build_defined_iff (d : class_decl) :
  (is_Some (built d) ↔
   (length (c_members d) ≤ length (extract_macro_names (c_args d)))%nat) ∧
  (∀ ti, built d = Some ti →
         fields ti = declared d ∧
         length (fields ti) = length (c_members d) ∧
         is_init ti = 1 ∧
         names_resolve ti).
Proof.
  split.
  - split.
    + intros [ti Hti]. by destruct (built_spec d ti Hti) as (_ & Hlen & _).
    + apply built_total.
  - intros ti Hti. destruct (built_spec d ti Hti) as (Hf & Hlen & Hi & Hr).
    split; [done |]. split; [| done].
    rewrite Hf. by apply declared_length.
Qed.

(** X6: in the registry a class builds, [has] answers true exactly for
    the names of the declared members, and the lookup of such a name
    returns the last declared member of that name without changing the
    registry. *)
Theorem built_lookup (d : class_decl) (ti : type_info) (n : string) :
  built d = Some ti →
  (has n ti = true ↔ n ∈ m_name <$> declared d) ∧
  (has n ti = true →
   ∃ j m, index_name n ti = (Some j, ti) ∧
          deref (Some j) ti = Some m ∧
          declared d !! j = Some m ∧ m_name m = n ∧
          ∀ k m', (j < k)%nat → declared d !! k = Some m' → m_name m' ≠ n).
Proof.
  intros Hb. destruct (built_spec d ti Hb) as (Hf & _ & _ & Hr).
  specialize (Hr n). rewrite Hf in Hr.
  assert (has n ti = true → ∃ j, m_named_fields ti !! n = Some (Some j) ∧
                                 last_named n (declared d) 0 = Some j) as Hfound.
  { intros [p Hp]%has_true. rewrite Hp in Hr.
    destruct (last_named n (declared d) 0) as [j |]; [| done].
    exists j. split; [| done]. by rewrite Hp, Hr. }
  split.
  - split.
    + intros (j & _ & Hj)%Hfound.
      apply last_named_Some in Hj as (_ & (m & Hm & Hn) & _).
      apply list_elem_of_fmap. exists m. split; [done |].
      by eapply list_elem_of_lookup_2.
    + intros (m & -> & Hm)%list_elem_of_fmap. apply has_true. rewrite Hr.
      destruct (last_named (m_name m) (declared d) 0) as [j |] eqn:Hl; [eauto |].
      rewrite last_named_None in Hl. by destruct (Hl m Hm).
  - intros (j & Hj & Hl)%Hfound.
    apply last_named_Some in Hl as (_ & (m & Hm & Hn) & Hlast).
    rewrite Nat.sub_0_r in Hm, Hlast.
    exists j, m. split; [unfold index_name; by rewrite Hj |].
    split; [simpl; by rewrite Hf |]. eauto.
Qed.

Lemma built_lookup_witness :
  ∃ ti, built Ser2 = Some ti ∧ has "sub" ti = true ∧ has "x" ti = false.
Proof.
  destruct (built Ser2) as [ti |] eqn:Hb; [| by vm_compute in Hb].
  exists ti. split; [done |].
  destruct (built_lookup Ser2 ti "sub" Hb) as [Hsub _].
  destruct (built_lookup Ser2 ti "x" Hb) as [Hx _].
  split.
  - apply Hsub. apply (bool_decide_unpack _). by vm_compute.
  - destruct (has "x" ti); [| done].
    destruct Hx as [Hx _]. specialize (Hx eq_refl).
    apply (bool_decide_pack _) in Hx. by vm_compute in Hx.
Defined.

(** X7: once the name-indexed [operator[]] was applied to a name the class
    does not declare (which inserts a null entry), the consuming callback
    of the class no longer hands a child of that name to the discard sink:
    it takes the entry for a member and calls [visit] through the null
    pointer, so the run has no defined result.  Before the lookup the same
    child goes to the sink and the record is kept. *)
Theorem null_entry_is_dereferenced {V : Type} `{!visitor V}
    (rec : shape → V * state → V * state)
    (nil : V * option niltarget → V * option niltarget)
    (c n : string) (v : V) (s : state) :
  is_Some (tgt s) → has n (registry c (regs s)) = false →
  (is_Some (nil (v, Some Niltarget)).2 →
   (class_callback rec nil c n (v, s)).2 = s) ∧
  class_callback rec nil c n
    (v, set_regs (<[c := (index_name n (registry c (regs s))).2]> (regs s)) s) =
  (v, fail (set_regs (<[c := (index_name n (registry c (regs s))).2]> (regs s)) s)).
Proof.
  intros Hs Hhas. split.
  - intros [nt Hnt]. rewrite class_callback_unknown by done. simpl.
    by rewrite Hnt.
  - destruct Hs as [x Hx].
    pose proof (proj1 (has_false _ _) Hhas) as Hnone.
    set (ti' := (index_name n (registry c (regs s))).2).
    assert (m_named_fields ti' !! n = Some None) as Hentry.
    { unfold ti', index_name. rewrite Hnone. simpl. by rewrite lookup_insert_eq. }
    assert (registry c (<[c := ti']> (regs s)) = ti') as Hreg.
    { unfold registry. by rewrite lookup_insert_eq. }
    assert (has n ti' = true) as Hnow by (apply has_true; eauto).
    assert (index_name n ti' = (None, ti')) as Hidx.
    { unfold index_name. by rewrite Hentry. }
    unfold class_callback. cbn [fst snd]. simpl. rewrite Hx, Hreg, Hnow, Hidx.
    simpl. by rewrite insert_insert_eq.
Qed.

Lemma null_entry_is_dereferenced_witness :
  ∃ ti, built Ser1 = Some ti ∧
        tgt (class_callback (visit test_decls 2) (visit_niltarget 2) "Ser1" "y"
               (reader_of [DInt 7],
                set_regs (<["Ser1" := (index_name "y" ti).2]> {[ "Ser1" := ti ]})
                         (start (VObj [VInt 0])))).2 = None.
Proof.
  destruct (built Ser1) as [ti |] eqn:Hb; [| by vm_compute in Hb].
  exists ti. split; [done |].
  assert (registry "Ser1" {[ "Ser1" := ti ]} = ti) as Hreg.
  { unfold registry. by rewrite lookup_singleton_eq. }
  destruct (null_entry_is_dereferenced
              (visit test_decls 2) (visit_niltarget 2) "Ser1" "y"
              (reader_of [DInt 7])
              (set_regs {[ "Ser1" := ti ]} (start (VObj [VInt 0]))))
    as [_ Heq].
  - simpl. eauto.
  - simpl. rewrite Hreg. vm_compute in Hb. injection Hb as <-. by vm_compute.
  - simpl in Heq. rewrite Hreg in Heq.
    exact (f_equal (fun st => tgt st.2) Heq).
Defined.

(** ** The map visit *)

Lemma string_ltb_trans (a b c : string) :
  String.ltb a b = true → String.ltb b c = true → String.ltb a c = true.
Proof.
  unfold String.ltb. intros Hab Hbc.
  assert (OrdersEx.String_as_OT.lt a b) as H1.
  { unfold OrdersEx.String_as_OT.lt.
    change (OrdersEx.String_as_OT.compare a b) with (a ?= b)%string.
    by destruct (a ?= b)%string. }
  assert (OrdersEx.String_as_OT.lt b c) as H2.
  { unfold OrdersEx.String_as_OT.lt.
    change (OrdersEx.String_as_OT.compare b c) with (b ?= c)%string.
    by destruct (b ?= c)%string. }
  pose proof (StrictOrder_Transitive (R := OrdersEx.String_as_OT.lt) a b c H1 H2)
    as H3.
  unfold OrdersEx.String_as_OT.lt in H3.
  change (OrdersEx.String_as_OT.compare a c) with (a ?= c)%string in H3.
  by rewrite H3.
Qed.

Lemma string_ltb_total (a b : string) :
  String.eqb a b = false → String.ltb b a = false → String.ltb a b = true.
Proof.
  unfold String.ltb. intros Hne%String.eqb_neq Hba.
  rewrite (String.compare_antisym b a) in Hba.
  destruct (a ?= b)%string eqn:Hc; simpl in Hba; [| done | done].
  by apply String.compare_eq_iff in Hc.
Qed.

Lemma keys_sorted_cons (p : string * value) (mp : list (string * value)) :
  (∀ q, q ∈ mp → String.ltb p.1 q.1 = true) → keys_sorted mp →
  keys_sorted (p :: mp).
Proof.
  intros Hp Hs i j a b Hij Ha Hb.
  destruct j as [| j]; [lia |]. simpl in Hb.
  destruct i as [| i]; simpl in Ha.
  - injection Ha as <-. apply Hp. by eapply list_elem_of_lookup_2.
  - apply (Hs i j a b); [lia | done | done].
Qed.

Lemma keys_sorted_keys (mp mp' : list (string * value)) :
  mp'.*1 = mp.*1 → keys_sorted mp → keys_sorted mp'.
Proof.
  intros Hk Hs i j a b Hij Ha Hb.
  assert (∀ i p, mp' !! i = Some p → ∃ q, mp !! i = Some q ∧ q.1 = p.1) as Hsame.
  { intros i' p Hp.
    assert (mp.*1 !! i' = Some p.1) as Hq.
    { rewrite <- Hk, list_lookup_fmap, Hp. done. }
    rewrite list_lookup_fmap in Hq.
    destruct (mp !! i') as [q |]; simpl in Hq; [| done].
    exists q. split; [done | congruence]. }
  destruct (Hsame _ _ Ha) as (a' & Ha' & <-).
  destruct (Hsame _ _ Hb) as (b' & Hb' & <-).
  by apply (Hs i j).
Qed.

Lemma map_find_elem (k : string) (y : value) (mp : list (string * value)) :
  map_find k mp = Some y → (k, y) ∈ mp.
Proof.
  induction mp as [| [k' x] mp IH]; simpl; [done |].
  destruct (String.eqb k' k) eqn:He.
  - apply String.eqb_eq in He as ->. intros [= ->]. left.
  - intros Hf. right. by apply IH.
Qed.

(** [mp[k]] on a key that is there leaves the map alone. *)
Lemma map_subscript_present (k : string) (dflt y : value)
    (mp : list (string * value)) :
  keys_sorted mp → map_find k mp = Some y → map_subscript k dflt mp = mp.
Proof.
  induction mp as [| [k' x] mp IH]; simpl; [done |].
  intros [Hs Hlt]%keys_sorted_tail. destruct (String.eqb k' k) eqn:He; [done |].
  intros Hf. pose proof (map_find_elem _ _ _ Hf) as Hin.
  destruct (string_ltb_neq k' k) as [_ ->]; [apply (Hlt _ Hin) |].
  by rewrite IH.
Qed.

(** [mp[k]] on a key that is not there inserts it in key order. *)
Lemma map_subscript_absent (k : string) (dflt : value)
    (mp : list (string * value)) :
  keys_sorted mp → map_find k mp = None →
  keys_sorted (map_subscript k dflt mp) ∧
  length (map_subscript k dflt mp) = S (length mp) ∧
  (∀ q, q ∈ map_subscript k dflt mp → q = (k, dflt) ∨ q ∈ mp).
Proof.
  induction mp as [| [k' x] mp IH]; simpl.
  - intros _ _. split; [| split; [done |]].
    + intros i j a b Hij Ha Hb. destruct j as [| j]; [lia | done].
    + intros q Hq%list_elem_of_singleton. by left.
  - intros Hall Hf. pose proof Hall as [Hs Hlt]%keys_sorted_tail.
    destruct (String.eqb k' k) eqn:He; [done |].
    destruct (String.ltb k k') eqn:Hk.
    + split; [| split; [done |]].
      * apply keys_sorted_cons; [| done].
        intros q [-> | Hq]%elem_of_cons; [done |]. simpl.
        apply (string_ltb_trans _ k'); [done |]. by apply (Hlt q).
      * intros q [-> | Hq]%elem_of_cons; [by left | by right].
    + destruct (IH Hs Hf) as (Hs' & Hlen & Hin).
      split; [| split].
      * apply keys_sorted_cons; [| done].
        intros q [-> | Hq]%Hin; simpl.
        -- by apply string_ltb_total.
        -- by apply (Hlt q).
      * simpl. by rewrite Hlen.
      * intros q [-> | Hq]%elem_of_cons; [right; left |].
        destruct (Hin q Hq) as [-> | Hq']; [by left | right; by right].
Qed.

Lemma map_find_subscript_same (k : string) (dflt : value)
    (mp : list (string * value)) :
  map_find k mp = None → map_find k (map_subscript k dflt mp) = Some dflt.
Proof.
  induction mp as [| [k' x] mp IH]; simpl.
  - by rewrite String.eqb_refl.
  - destruct (String.eqb k' k) eqn:He; [done |]. intros Hf.
    destruct (String.ltb k k'); simpl.
    + by rewrite String.eqb_refl.
    + rewrite He. by apply IH.
Qed.

Lemma map_find_subscript_other (k k0 : string) (dflt : value)
    (mp : list (string * value)) :
  k0 ≠ k → map_find k0 (map_subscript k dflt mp) = map_find k0 mp.
Proof.
  intros Hne. induction mp as [| [k' x] mp IH]; simpl.
  - by rewrite (proj2 (String.eqb_neq k k0)).
  - destruct (String.eqb k' k) eqn:He; [done |].
    destruct (String.ltb k k'); simpl.
    + by rewrite (proj2 (String.eqb_neq k k0)).
    + by rewrite IH.
Qed.

Lemma map_find_set_same (k : string) (y : value) (mp : list (string * value)) :
  is_Some (map_find k mp) → map_find k (map_set k y mp) = Some y.
Proof.
  induction mp as [| [k' x] mp IH]; simpl; [by intros [? ?] |].
  destruct (String.eqb k' k) eqn:He; simpl; rewrite He; [done | apply IH].
Qed.

Lemma map_find_set_other (k k0 : string) (y : value)
    (mp : list (string * value)) :
  k0 ≠ k → map_find k0 (map_set k y mp) = map_find k0 mp.
Proof.
  intros Hne. induction mp as [| [k' x] mp IH]; simpl; [done |].
  destruct (String.eqb k' k) eqn:He; simpl.
  - apply String.eqb_eq in He as ->.
    by rewrite (proj2 (String.eqb_neq k k0)).
  - by rewrite IH.
Qed.

Lemma map_set_keys (k : string) (y : value) (mp : list (string * value)) :
  (map_set k y mp).*1 = mp.*1.
Proof.
  induction mp as [| [k' x] mp IH]; [done |]. cbn [map_set].
  destruct (String.eqb k' k); [done |]. rewrite !fmap_cons. by rewrite IH.
Qed.

(** X8: the consuming callback of the map visit, for any visitor, on a
    map whose keys are in order.  The entry under the announced key is
    visited by the visit of the mapped type, starting from the value it
    holds, or from a value-initialised one that is inserted when the key
    is new.  Afterwards the key maps to what that visit left, every other
    key maps to what it did, the keys are still in order, and the map has
    grown by one entry exactly when the key was new. *)
Theorem map_entry_semantics {V : Type} `{!visitor V}
    (decls : gmap string class_decl) (rec : V * state → V * state) (F : shape)
    (x : string) (v : V) (s : state) (mp : list (string * value)) (dflt : value) :
  tgt s = Some (VMap mp) → keys_sorted mp → value_init decls F = Some dflt →
  ∃ st',
    st' = rec (v, set_tgt (Some (default dflt (map_find x mp))) s) ∧
    map_callback decls rec F x (v, s) =
      (st'.1,
       set_tgt (y' ← tgt st'.2;
                Some (VMap (map_set x y' (map_subscript x dflt mp)))) st'.2) ∧
    ∀ y',
      map_find x (map_set x y' (map_subscript x dflt mp)) = Some y' ∧
      (∀ k, k ≠ x →
            map_find k (map_set x y' (map_subscript x dflt mp)) = map_find k mp) ∧
      keys_sorted (map_set x y' (map_subscript x dflt mp)) ∧
      length (map_set x y' (map_subscript x dflt mp)) =
        match map_find x mp with
        | Some _ => length mp
        | None => S (length mp)
        end.
Proof.
  intros Hs Hsorted Hinit.
  assert (map_find x (map_subscript x dflt mp) = Some (default dflt (map_find x mp)))
    as Hfound.
  { destruct (map_find x mp) as [y |] eqn:Hf; simpl.
    - by rewrite (map_subscript_present _ _ _ _ Hsorted Hf).
    - by apply map_find_subscript_same. }
  eexists. split; [done |]. split.
  - unfold map_callback. simpl. rewrite Hs, Hinit.
    by rewrite (zoom_eq (entry x) _ (VMap (map_subscript x dflt mp))
                  (default dflt (map_find x mp))).
  - intros y'. split; [apply map_find_set_same; by rewrite Hfound |].
    split.
    { intros k Hk. rewrite map_find_set_other by done.
      by apply map_find_subscript_other. }
    split.
    + apply (keys_sorted_keys (map_subscript x dflt mp)); [apply map_set_keys |].
      destruct (map_find x mp) as [y |] eqn:Hf.
      * by rewrite (map_subscript_present _ _ _ _ Hsorted Hf).
      * by destruct (map_subscript_absent x dflt mp Hsorted Hf).
    + rewrite <- (length_fmap fst), map_set_keys, length_fmap.
      destruct (map_find x mp) as [y |] eqn:Hf.
      * by rewrite (map_subscript_present _ _ _ _ Hsorted Hf).
      * by destruct (map_subscript_absent x dflt mp Hsorted Hf) as (_ & ? & _).
Qed.

Lemma map_entry_semantics_witness :
  tgt (map_callback test_decls (visit test_decls 1 SInt) SInt "b"
         (reader_of [DInt 5], start (VMap [("a", VInt 1)]))).2 =
    Some (VMap [("a", VInt 1); ("b", VInt 5)]) ∧
  tgt (map_callback test_decls (visit test_decls 1 SInt) SInt "a"
         (reader_of [DInt 5], start (VMap [("a", VInt 1)]))).2 =
    Some (VMap [("a", VInt 5)]).
Proof.
  assert (keys_sorted [("a", VInt 1)]) as Hsorted.
  { intros i j a b Hij Ha Hb. destruct j as [| j]; [lia | done]. }
  split.
  - destruct (map_entry_semantics test_decls (visit test_decls 1 SInt) SInt "b"
                (reader_of [DInt 5]) (start (VMap [("a", VInt 1)]))
                [("a", VInt 1)] (VInt 0) eq_refl Hsorted eq_refl)
      as (st' & -> & -> & _).
    reflexivity.
  - destruct (map_entry_semantics test_decls (visit test_decls 1 SInt) SInt "a"
                (reader_of [DInt 5]) (start (VMap [("a", VInt 1)]))
                [("a", VInt 1)] (VInt 0) eq_refl Hsorted eq_refl)
      as (st' & -> & -> & _).
    reflexivity.
Defined.

(** The trace of a map: the object bracket around, for each entry in the
    order the map holds them, the key and the calls of the mapped
    value. *)
Lemma trace_map (decls : gmap string class_decl) (F : shape) (n : nat)
    (mp : list (string * value)) (cs : list call) :
  trace decls (S n) (SMap F) (VMap mp) = Some cs →
  cs =
    [CStart vt_object] ++
    concat ((fun p => CString p.1 :: (calls decls n F p.2).1) <$> mp) ++
    [CEnd vt_object] ∧
  ∀ p, p ∈ mp → tgt (calls decls n F p.2).2 = Some p.2.
Proof.
  intros Htr. cbn [trace] in Htr.
  destruct (mapM _ mp) as [css |] eqn:Hcss; simpl in Htr; [| done].
  injection Htr as <-. apply mapM_Some in Hcss. split.
  - simpl. do 2 f_equal. clear -Hcss.
    induction Hcss as [| p cs ps css Hp _ IH]; [done |].
    rewrite fmap_cons, !concat_cons. f_equal; [| done].
    destruct (trace decls n F p.2) as [c |] eqn:Hc; simpl in Hp; [| done].
    injection Hp as <-. by destruct (calls_trace _ _ _ _ _ Hc) as [-> _].
  - intros p Hp. apply list_elem_of_lookup in Hp as [i Hi].
    destruct (Forall2_lookup_l _ _ _ _ _ Hcss Hi) as (cp & _ & Hcp).
    destruct (trace decls n F p.2) as [c |] eqn:Hc; simpl in Hcp; [| done].
    by destruct (calls_trace _ _ _ _ _ Hc) as [_ ->].
Qed.

(** X9: producing a map that is laid out as its type says, with enough
    recursion budget for its nesting, hands any querying visitor the
    object bracket and, for each entry in the order the map holds them
    (key order), the key as a string followed by the calls that produce
    the mapped value; the production returns with the map as it was, and
    so does the production of every mapped value. *)
Theorem map_production_order {V : Type} `{!visitor V} `{!producer V}
    (decls : gmap string class_decl) (F : shape) (n : nat)
    (mp : list (string * value)) (v : V) (s : state) :
  decls_cover decls →
  typed decls (SMap F) (VMap mp) →
  (value_depth (VMap mp) ≤ n)%nat →
  regs_ok decls (regs s) → tgt s = Some (VMap mp) →
  (visit decls (S n) (SMap F) (v, s)).1 =
    play ([CStart vt_object] ++
          concat ((fun p => CString p.1 :: (calls decls n F p.2).1) <$> mp) ++
          [CEnd vt_object]) v ∧
  tgt (visit decls (S n) (SMap F) (v, s)).2 = Some (VMap mp) ∧
  (∀ p, p ∈ mp → tgt (calls decls n F p.2).2 = Some p.2).
Proof.
  intros Hdecls Hty Hn Hr Hs.
  destruct (trace_total decls (S n) Hdecls _ _ Hty) as [cs Htr]; [lia |].
  pose proof (visit_produces decls (S n) (SMap F) (VMap mp) v s Hr Hs) as Hp.
  rewrite Htr in Hp. destruct Hp as (r' & -> & _ & _).
  destruct (trace_map decls F n mp cs Htr) as [-> Hall].
  by destruct s.
Qed.

Lemma map_production_order_witness :
  (calls test_decls 3 (SMap SInt) (VMap [("a", VInt 1); ("b", VInt 2)])).1 =
    [CStart vt_object; CString "a"; CInt 1; CString "b"; CInt 2; CEnd vt_object] ∧
  tgt (calls test_decls 3 (SMap SInt) (VMap [("a", VInt 1); ("b", VInt 2)])).2 =
    Some (VMap [("a", VInt 1); ("b", VInt 2)]).
Proof.
  destruct (map_production_order test_decls SInt 2 [("a", VInt 1); ("b", VInt 2)]
              ([] : recorder) (start (VMap [("a", VInt 1); ("b", VInt 2)])))
    as (Hcalls & Hres & _).
  - apply test_decls_cover.
  - constructor; [| by repeat constructor].
    intros i j p q Hij Hp Hq.
    destruct i as [| [| i]], j as [| [| j]]; try lia; try done.
    by injection Hp as <-; injection Hq as <-.
  - simpl. lia.
  - apply regs_ok_empty.
  - reflexivity.
  - split; [| exact Hres]. unfold calls. rewrite Hcalls. reflexivity.
Defined.

(** A value without a set pointer shares nothing with its copy. *)
Lemma share_pointer_free : ∀ x y : value, pointer_free x = true → share x y = x.
Proof.
  fix IH 1.
  intros [i | d | s | b | l | m | [x |] | l |] y Hpf; simpl in *; try done.
  - destruct y as [| | | | l' | | | |]; try done. f_equal.
    revert l'. induction l as [| x r IHr]; intros l'; [done |].
    apply andb_prop in Hpf as [Hx Hr]. destruct l' as [| x' r']; [done |].
    by rewrite IH, IHr.
  - destruct y as [| | | | | m' | | |]; try done. f_equal.
    revert m'. induction m as [| [k x] r IHr]; intros m'; [done |].
    simpl in Hpf. apply andb_prop in Hpf as [Hx Hr].
    destruct (map_seek k m') as [[x' r'] |]; by rewrite ?IH, IHr.
  - destruct y as [| | | | | | | l' |]; try done. f_equal.
    revert l'. induction l as [| x r IHr]; intros l'; [done |].
    apply andb_prop in Hpf as [Hx Hr]. destruct l' as [| x' r']; [done |].
    by rewrite IH, IHr.
Qed.

(** One iteration of the map production loop: the key is shown to the
    visitor, the mapped value of the copy is visited, and the entry keeps
    its key and is left as the original shared with the visited copy. *)
Lemma map_produce_entry_eq {V : Type} `{!visitor V}
    (rec : V * state → V * state) (i : nat) (k : string) (y : value)
    (v : V) (s : state) (m : list (string * value)) :
  tgt s = Some (VMap m) → m !! i = Some (k, y) →
  map_produce_entry rec i (v, s) =
    ((rec ((visit_string k v).2, set_tgt (Some y) s)).1,
     set_tgt (y' ← tgt (rec ((visit_string k v).2, set_tgt (Some y) s)).2;
              Some (VMap (<[i := (k, share y y')]> m)))
             (rec ((visit_string k v).2, set_tgt (Some y) s)).2).
Proof.
  intros Hs Hi. unfold map_produce_entry. cbn [fst snd]. rewrite Hs, Hi.
  cbn [fst snd].
  rewrite (zoom_eq (entry_copy i) _ (VMap m) y); [| done | by simpl; rewrite Hi].
  destruct (rec _) as [v1 s1]. cbn [fst snd]. f_equal. f_equal.
  destruct (tgt s1) as [y' |]; [| done]. simpl. do 2 f_equal.
  apply list_eq. intros j. destruct (decide (i = j)) as [<- | Hne].
  - rewrite list_lookup_alter_eq, Hi. simpl.
    by rewrite list_lookup_insert_eq by (by eapply lookup_lt_Some).
  - by rewrite list_lookup_alter_ne, list_lookup_insert_ne.
Qed.

Lemma map_loop_keeps {V : Type} `{!visitor V} (rec : V * state → V * state)
    (mp : list (string * value)) (k : nat) (st : V * state) :
  (k ≤ length mp)%nat → map_loop_inv mp 0 st.2 →
  map_loop_inv mp k (foldl (fun st i => map_produce_entry rec i st) st (seq 0 k)).2.
Proof.
  intros Hk Hst. induction k as [| k IH]; [done |].
  rewrite seq_S, foldl_app. simpl.
  destruct (foldl _ st (seq 0 k)) as [v1 s1] eqn:Hloop.
  specialize (IH ltac:(lia)). simpl in IH.
  destruct IH as [Hnone | (mp' & Hs1 & Hlen & Hall)].
  { left. unfold map_produce_entry. simpl. by rewrite Hnone. }
  destruct (lookup_lt_is_Some_2 mp k) as [[k0 y0] Hp]; [lia |].
  destruct (Hall k _ Hp) as ([k1 y1] & Hp' & Hkey & _ & Hsame).
  simpl in Hkey, Hsame. subst k1. rewrite (Hsame ltac:(lia)) in Hp'.
  rewrite (map_produce_entry_eq rec k k0 y0 v1 s1 mp') by done.
  destruct (rec _) as [v2 s2]. simpl.
  destruct (tgt s2) as [y' |]; simpl; [right | by left].
  eexists. split; [done |]. split; [by rewrite length_insert |].
  intros j p Hj. destruct (decide (k = j)) as [<- | Hne].
  - rewrite list_lookup_insert_eq by lia. eexists. split; [done |].
    assert (p = (k0, y0)) as -> by congruence. simpl.
    split; [done |]. split; [eauto | lia].
  - rewrite list_lookup_insert_ne by done.
    destruct (Hall j p Hj) as (p' & Hp'' & Hkey' & Hlt & Hge).
    exists p'. split; [done |]. split; [done |].
    split; [intros; apply Hlt; lia | intros; apply Hge; lia].
Qed.

(** X10: producing a map with a visitor that declines [consume].  The
    loop variable is a copy of the entry, so (1) an iteration shows the
    visitor the key and visits the copy, and leaves the entry with its
    key and as the original shared with the visited copy: what the
    visitor wrote into the copy itself is lost, what it wrote through a
    pointer of the copy is in the map.  (2) After the loop the map has
    its size and its keys, every entry is the original shared with some
    copy, and an entry whose mapped value holds no set pointer is
    unchanged.  (The vector loop visits in place.) *)
Theorem map_production_keeps_map {V : Type} `{!visitor V}
    (decls : gmap string class_decl) (n : nat) (F : shape)
    (v v' : V) (s : state) (mp : list (string * value)) :
  tgt s = Some (VMap mp) →
  consume vt_object (map_callback decls (visit decls n F) F) (v, s) =
    (false, (v', s)) →
  (∀ (i : nat) (k : string) (y : value) (v0 : V) (s0 : state)
     (m : list (string * value)),
      tgt s0 = Some (VMap m) → m !! i = Some (k, y) →
      ∃ st', st' = visit decls n F ((visit_string k v0).2, set_tgt (Some y) s0) ∧
             map_produce_entry (visit decls n F) i (v0, s0) =
               (st'.1,
                set_tgt (y' ← tgt st'.2;
                         Some (VMap (<[i := (k, share y y')]> m))) st'.2)) ∧
  (tgt (visit decls (S n) (SMap F) (v, s)).2 = None ∨
   ∃ mp', tgt (visit decls (S n) (SMap F) (v, s)).2 = Some (VMap mp') ∧
          length mp' = length mp ∧
          ∀ j p, mp !! j = Some p →
                 ∃ p' y', mp' !! j = Some p' ∧ p'.1 = p.1 ∧
                          p'.2 = share p.2 y' ∧
                          (pointer_free p.2 = true → p'.2 = p.2)).
Proof.
  intros Hs Hdecl. split.
  { intros i k y v0 s0 m Hs0 Hi. eexists. split; [done |].
    by apply map_produce_entry_eq. }
  cbn [visit]. simpl. rewrite Hs.
  unfold visit_map. simpl. rewrite Hs, Hdecl. simpl. rewrite Hs.
  destruct (map_loop_keeps (visit decls n F) mp (length mp)
              (produce_start vt_object v', s)) as [Hnone | (mp' & Hres & Hlen & Hall)].
  - done.
  - right. exists mp. split; [done |]. split; [done |].
    intros j p Hj. exists p. split; [done |]. split; [done |]. split; [lia | done].
  - by left.
  - right. exists mp'. split; [done |]. split; [done |].
    intros j p Hj. destruct (Hall j p Hj) as (p' & Hp' & Hkey & Hlt & _).
    destruct Hlt as [y' Hy']; [by eapply lookup_lt_Some |].
    exists p', y'. split; [done |]. split; [done |]. split; [done |].
    intros Hpf. by rewrite Hy', share_pointer_free.
Qed.

Lemma map_production_keeps_map_witness :
  tgt (visit test_decls 2 (SMap SString)
         ((tt : scribbler), start (VMap [("k", VString "a")]))).2 =
    Some (VMap [("k", VString "a")]) ∧
  tgt (visit test_decls 3 (SMap (SPtr raw_ptr SString))
         ((tt : scribbler), start (VMap [("k", VPtr (Some (VString "a")))]))).2 =
    Some (VMap [("k", VPtr (Some (VString "scribble")))]) ∧
  tgt (visit test_decls 2 (SVec SString)
         ((tt : scribbler), start (VVec [VString "a"]))).2 =
    Some (VVec [VString "scribble"]).
Proof.
  split; [| split; reflexivity].
  destruct (@map_production_keeps_map scribbler scribbler_visitor
              test_decls 1 SString tt tt (start (VMap [("k", VString "a")]))
              [("k", VString "a")] eq_refl eq_refl)
    as [_ [Hnone | (mp' & Hres & Hlen & Hall)]].
  - by vm_compute in Hnone.
  - destruct (Hall 0%nat ("k", VString "a") eq_refl)
      as (p' & y' & Hp' & Hkey & _ & Hsame).
    rewrite Hres. do 2 f_equal.
    destruct mp' as [| q [| q' r]]; try done.
    simpl in Hp'. injection Hp' as ->. destruct p' as [k1 y1]. simpl in *.
    by rewrite Hkey, (Hsame eq_refl).
Defined.

(** ** Production as a whole *)

(** X11: production is read-only and does not depend on the visitor.  A
    visitor that behaves as the header asks of a queried one ([peek]
    answers [vt_none], [consume] declines, leaf operations leave their
    argument alone) is driven through exactly the calls that the call
    recorder notes for the same value; the run has a result for the one
    exactly when it has for the other; and the visited value comes back
    unchanged, with nothing allocated. *)
Theorem production_is_read_only {V : Type} `{!visitor V} `{!producer V}
    (decls : gmap string class_decl) (n : nat) (F : shape) (x : value) (v : V) :
  (is_Some (tgt (visit decls n F (v, start x)).2) ↔
   is_Some (tgt (calls decls n F x).2)) ∧
  (is_Some (tgt (visit decls n F (v, start x)).2) →
   (visit decls n F (v, start x)).1 = play (calls decls n F x).1 v ∧
   tgt (visit decls n F (v, start x)).2 = Some x ∧
   news (visit decls n F (v, start x)).2 = 0%nat).
Proof.
  pose proof (visit_produces decls n F x v (start x) (regs_ok_empty decls) eq_refl)
    as Hp.
  destruct (trace decls n F x) as [cs |] eqn:Htr.
  - destruct Hp as (r' & -> & _ & _).
    destruct (calls_trace _ _ _ _ _ Htr) as [-> ->]. simpl.
    split; [split; eauto |]. done.
  - simpl in Hp. pose proof (calls_no_trace _ _ _ _ Htr) as Hc.
    rewrite Hp, Hc. split; [split |]; by intros [? ?].
Qed.

Lemma production_is_read_only_witness :
  (produce test_decls 3 (SClass "Ser2") (VObj [VInt 2; VObj [VInt 1]])).1 =
    play (calls test_decls 3 (SClass "Ser2") (VObj [VInt 2; VObj [VInt 1]])).1
         doc_writer_init ∧
  tgt (produce test_decls 3 (SClass "Ser2") (VObj [VInt 2; VObj [VInt 1]])).2 =
    Some (VObj [VInt 2; VObj [VInt 1]]).
Proof.
  destruct (production_is_read_only test_decls 3 (SClass "Ser2")
              (VObj [VInt 2; VObj [VInt 1]]) doc_writer_init) as [_ Hres].
  destruct Hres as (Hcalls & Htgt & _).
  - vm_compute. eauto.
  - split; [exact Hcalls | exact Htgt].
Defined.

(** X12: the registry of a class whose [RPOCO] argument text is a list of
    as many names as the macro has arguments (separated by commas and
    spaces) is built without fault, and its members carry exactly those
    names, in the order written, each with the offset of the argument at
    the same position. *)
Theorem registry_names_from_arguments (d : class_decl) (lead : string)
    (items : list (string * string)) :
  c_args d = lead +:+ joined items →
  all_seps lead = true → well_joined items = true →
  length items = length (c_members d) →
  ∃ ti, built d = Some ti ∧
        m_name <$> fields ti = items.*1 ∧
        m_offset <$> fields ti = (c_members d).*1 ∧
        length (fields ti) = length items.
Proof.
  intros Hargs Hlead Hw Hlen.
  assert (extract_macro_names (c_args d) = items.*1) as Hnames.
  { rewrite Hargs. by apply extract_of_joined. }
  assert (length (c_members d) ≤ length (extract_macro_names (c_args d)))%nat
    as Hcover.
  { rewrite Hnames, length_fmap. lia. }
  destruct (built_total d Hcover) as [ti Hb]. exists ti. split; [done |].
  destruct (built_spec d ti Hb) as (Hf & _). rewrite Hf.
  split; [| split].
  - rewrite declared_names, Hnames. apply take_ge. rewrite length_fmap. lia.
  - by apply declared_offsets.
  - rewrite declared_length by done. lia.
Qed.

Lemma registry_names_from_arguments_witness :
  ∃ ti, built Ser2 = Some ti ∧ m_name <$> fields ti = ["a"; "sub"].
Proof.
  destruct (registry_names_from_arguments Ser2 "" [("a", ","); ("sub", "")])
    as (ti & Hb & Hnames & _); try reflexivity.
  exists ti. split; [exact Hb | exact Hnames].
Defined.

(** ** More on concurrent first use *)

Lemma take_declared (d : class_decl) (idx : nat) :
  zip_with (fun name '(off, H) => {| m_name := name; m_offset := off; m_type := H |})
           (extract_macro_names (c_args d)) (take idx (c_members d)) =
  take idx (declared d).
Proof.
  unfold declared. generalize (extract_macro_names (c_args d)). revert idx.
  induction (c_members d) as [| [off H] ms IH]; intros idx names.
  - by rewrite take_nil, !zip_with_nil_r, take_nil.
  - destruct idx as [| idx]; [by rewrite !take_0, zip_with_nil_r |].
    destruct names as [| name names]; [done |]. simpl. f_equal. apply IH.
Qed.

(** X13: in every state that [N] threads reach, at most one thread is
    between taking and releasing [init_mutex].  While a thread is adding
    members, the table holds exactly the declared members added so far,
    the flag is clear and no thread has returned: an incomplete table is
    never visible to a caller.  The same holds between the last [add] and
    the store of the flag, with the table complete. *)
Theorem build_is_exclusive (d : class_decl) (N : nat) (sched : list nat) :
  (∀ t t' pc pc',
      threads (reached d N sched) !! t = Some pc →
      threads (reached d N sched) !! t' = Some pc' →
      holds_mutex pc = true → holds_mutex pc' = true → t = t') ∧
  (∀ t idx,
      threads (reached d N sched) !! t = Some (pc_expand idx) →
      fields (shared_ti (reached d N sched)) = take idx (declared d) ∧
      m_is_init (shared_ti (reached d N sched)) = 0 ∧
      ∀ t', threads (reached d N sched) !! t' ≠ Some pc_done) ∧
  (∀ t,
      threads (reached d N sched) !! t = Some pc_store →
      fields (shared_ti (reached d N sched)) = declared d ∧
      m_is_init (shared_ti (reached d N sched)) = 0 ∧
      ∀ t', threads (reached d N sched) !! t' ≠ Some pc_done).
Proof.
  pose proof (reached_inv d N sched) as Hinv.
  split; [| split].
  - intros t t' pc pc' Ht Ht' Hh Hh'.
    pose proof (inv_holder _ _ Hinv t pc Ht Hh) as H1.
    pose proof (inv_holder _ _ Hinv t' pc' Ht' Hh') as H2. congruence.
  - intros t idx Ht.
    destruct (inv_expand _ _ Hinv t idx Ht) as (Hflag & _ & Hexp).
    destruct (expand_spec _ _ _ _ _ Hexp) as (Hf & _).
    rewrite drop_0 in Hf. simpl in Hf. rewrite take_declared in Hf.
    split; [done |]. split; [done |].
    intros t' Hdone. pose proof (inv_done _ _ Hinv t' Hdone). lia.
  - intros t Ht.
    destruct (inv_store _ _ Hinv t Ht) as (Hflag & _ & Hexp).
    destruct (expand_spec _ _ _ _ _ Hexp) as (Hf & _).
    rewrite drop_0 in Hf. simpl in Hf.
    split; [done |]. split; [done |].
    intros t' Hdone. pose proof (inv_done _ _ Hinv t' Hdone). lia.
Qed.

Lemma build_is_exclusive_witness :
  threads (reached Ser2 3 (take 8 three_threads)) !! 0%nat = Some (pc_expand 2) ∧
  fields (shared_ti (reached Ser2 3 (take 8 three_threads))) = take 2 (declared Ser2).
Proof.
  destruct (build_is_exclusive Ser2 3 (take 8 three_threads)) as (_ & Hexp & _).
  assert (threads (reached Ser2 3 (take 8 three_threads)) !! 0%nat
          = Some (pc_expand 2)) as Ht by (vm_compute; reflexivity).
  destruct (Hexp 0%nat 2%nat Ht) as (Hf & _).
  exact (conj Ht Hf).
Defined.

Lemma work_left_start (d : class_decl) (N : nat) :
  work_left d (machine_start N) = (N * (length (c_members d) + 6))%nat.
Proof.
  unfold work_left, machine_start. cbn [threads].
  by rewrite fmap_replicate, sum_list_replicate.
Qed.

Lemma steps_bounded (d : class_decl) (sched : list nat) :
  ∀ σ, (steps_taken d sched σ + work_left d (run_schedule d sched σ)
        ≤ work_left d σ)%nat.
Proof.
  unfold run_schedule.
  induction sched as [| t sched IH]; intros σ; simpl; [done |].
  destruct (thread_step d t σ) as [σ' |] eqn:Hstep; simpl; [| apply IH].
  pose proof (step_decreases d t σ σ' Hstep). specialize (IH σ'). lia.
Qed.

(** X14: the first use ends.  Whatever the schedule, the [N] threads take
    no more than [N * (M + 6)] steps in all, [M] the number of arguments
    of the macro: a thread that lost its turn at the mutex took no step,
    and every step taken brings the threads closer to their return. *)
Theorem first_use_steps_bounded (d : class_decl) (N : nat) (sched : list nat) :
  (steps_taken d sched (machine_start N) + work_left d (reached d N sched)
   ≤ N * (length (c_members d) + 6))%nat ∧
  (finished (reached d N sched) → work_left d (reached d N sched) = 0%nat) ∧
  (∀ t σ', thread_step d t (reached d N sched) = Some σ' →
           (work_left d σ' < work_left d (reached d N sched))%nat).
Proof.
  split; [| split].
  - rewrite <- work_left_start. apply steps_bounded.
  - unfold finished, work_left. generalize (threads (reached d N sched)).
    induction 1 as [| pc l -> _ IH]; simpl; [done |]. exact IH.
  - intros t σ'. apply step_decreases.
Qed.

(** ** Members outside the [RPOCO] list are left alone *)

Lemma set_name_offsets (j : nat) (name : string) (t : type_info) :
  m_offset <$> fields (set_name j name t) = m_offset <$> fields t.
Proof.
  unfold set_name. simpl. apply list_eq. intros i.
  rewrite !list_lookup_fmap. destruct (decide (j = i)) as [<- | Hne].
  - rewrite list_lookup_alter_eq. by destruct (fields t !! j).
  - by rewrite list_lookup_alter_ne.
Qed.

Lemma zoom_slot_outside {V : Type} (offs : list nat) (slots : list value)
    (off : nat) (body : V * state → V * state) (st : V * state) :
  off ∈ offs → outside_kept offs slots st.2 →
  outside_kept offs slots (zoom (slot off) body st).2.
Proof.
  intros Hoff Hst. unfold zoom, outside_kept in *.
  destruct (tgt st.2) as [whole |] eqn:Hw; [| by rewrite Hw].
  destruct whole as [| | | | | | | slots' |]; try done.
  destruct Hst as [Hlen Hout]. simpl.
  destruct (slots' !! off) as [part |]; simpl; [| done].
  destruct (tgt (body _).2) as [part' |]; simpl; [| done].
  split; [by rewrite length_insert |].
  intros i Hi. rewrite list_lookup_insert_ne; [by apply Hout |].
  intros ->. done.
Qed.

Section framing.
Context {V : Type} `{!visitor V} `{!contract V}.
Variable decls : gmap string class_decl.
Variables (c : string) (d : class_decl) (ti : type_info) (slots : list value).
Hypothesis Hbuilt : built d = Some ti.

Lemma built_offsets : m_offset <$> fields ti = (c_members d).*1.
Proof.
  destruct (built_spec d ti Hbuilt) as (Hf & Hlen & _).
  rewrite Hf. by apply declared_offsets.
Qed.

Lemma member_offset_listed (j : nat) (m : member) (t : type_info) :
  m_offset <$> fields t = (c_members d).*1 →
  fields t !! j = Some m → m_offset m ∈ (c_members d).*1.
Proof.
  intros Hoffs Hm. rewrite <- Hoffs. apply list_elem_of_fmap.
  exists m. split; [done |]. by eapply list_elem_of_lookup_2.
Qed.

Lemma class_callback_outside (rec : shape → V * state → V * state)
    (nil : V * option niltarget → V * option niltarget) (n : string)
    (st : V * state) :
  regs st.2 !! c = Some ti →
  outside_kept (c_members d).*1 slots st.2 →
  outside_kept (c_members d).*1 slots (class_callback rec nil c n st).2.
Proof.
  intros Hc Hst. unfold class_callback.
  destruct (tgt st.2) as [whole |] eqn:Hw; [| done].
  assert (registry c (regs st.2) = ti) as Hreg.
  { unfold registry. by rewrite Hc. }
  rewrite Hreg.
  destruct (has n ti) eqn:Hhas; simpl.
  - destruct (index_name_has _ _ Hhas) as (p & Hp & ->).
    rewrite (insert_id _ _ _ Hc), set_regs_same.
    destruct p as [j |]; simpl.
    + destruct (fields ti !! j) as [m |] eqn:Hm; simpl.
      * unfold field_visit. apply zoom_slot_outside; [| done].
        by apply (member_offset_listed j m ti built_offsets).
      * unfold outside_kept. done.
    + unfold outside_kept. done.
  - destruct (nil _).2; simpl; [done |]. unfold outside_kept. done.
Qed.

Lemma class_produce_member_outside (rec : shape → V * state → V * state)
    (i : nat) (st : V * state) :
  regs st.2 !! c = Some ti →
  outside_kept (c_members d).*1 slots st.2 →
  outside_kept (c_members d).*1 slots (class_produce_member rec c i st).2.
Proof.
  intros Hc Hst. unfold class_produce_member.
  destruct (tgt st.2) as [whole |] eqn:Hw; [| done].
  assert (registry c (regs st.2) = ti) as Hreg.
  { unfold registry. by rewrite Hc. }
  rewrite Hreg.
  destruct (index_int _ _) as [[j |] |] eqn:Hidx; [| by unfold outside_kept ..].
  destruct (fields ti !! j) as [m |] eqn:Hm; [| by unfold outside_kept].
  destruct (visit_string (m_name m) st.1) as [name' v'].
  destruct (index_int (Z.of_nat i) (set_name j name' ti)) as [[j' |] |];
    cbn [mbind option_bind deref]; [| by unfold outside_kept ..].
  destruct (fields (set_name j name' ti) !! j') as [m' |] eqn:Hm';
    [| by unfold outside_kept].
  unfold field_visit. apply zoom_slot_outside; [| done].
  apply (member_offset_listed j' m' (set_name j name' ti)); [| done].
  rewrite set_name_offsets. apply built_offsets.
Qed.

End framing.

(** X15: in a record that owns what its pointers point at (values are
    trees: no pointer of the record points at one of its own members or
    shares a pointee with another), a visit in either direction and by
    any visitor that keeps the contract leaves every member that the
    [RPOCO] list does not name exactly as it was: the object keeps its
    size, and only members at the offsets of listed arguments can differ
    afterwards. *)
Theorem unlisted_members_untouched {V : Type} `{!visitor V} `{!contract V}
    (decls : gmap string class_decl) (n : nat) (c : string) (d : class_decl)
    (slots : list value) (v : V) (s : state) :
  decls !! c = Some d → regs_ok decls (regs s) → tgt s = Some (VObj slots) →
  outside_kept (c_members d).*1 slots (visit decls (S n) (SClass c) (v, s)).2.
Proof.
  intros Hd Hok Hs. cbn [visit]. simpl. rewrite Hs.
  unfold visit_class. simpl. rewrite Hs, Hd. simpl.
  destruct (rpoco_type_info_get d _) as [ti |] eqn:Hget; [| by unfold outside_kept].
  destruct (built d) as [ti' |] eqn:Hb.
  2: { by rewrite (regs_ok_lookup_fail decls _ _ _ Hok Hd Hb) in Hget. }
  destruct (regs_ok_lookup decls _ _ _ _ Hok Hd Hb) as (Hget' & Hok' & Hsub').
  assert (ti' = ti) as -> by congruence.
  set (r0 := <[c := ti]> (regs s)).
  set (Q := fun s' : state =>
              regs_kept decls r0 s' ∧ outside_kept (c_members d).*1 slots s').
  assert (∀ s' : state, Q s' → regs s' !! c = Some ti) as Hreg.
  { intros s' [[_ Hsub] _]. eapply lookup_weaken; [| done].
    unfold r0. by rewrite lookup_insert_eq. }
  assert (Q (set_regs r0 s)) as HQ0.
  { split; [by split |]. unfold outside_kept. simpl. by rewrite Hs. }
  pose proof (contract_consume state Q vt_object
                (class_callback (visit decls n) (visit_niltarget n) c)
                (v, set_regs r0 s) HQ0) as Hcons.
  destruct (consume _ _ _) as [reading st2] eqn:Hc. simpl in Hcons.
  assert (Q st2.2) as HQ2.
  { apply Hcons. intros k st' HQ. split.
    - apply class_callback_kept; [| by destruct HQ].
      intros. by apply visit_kept.
    - apply (class_callback_outside c d ti slots Hb); [by apply Hreg | by destruct HQ]. }
  destruct reading; [by destruct HQ2 |]. simpl.
  destruct contract_direction as [Hread | Hstr].
  { specialize (Hread state vt_object
                  (class_callback (visit decls n) (visit_niltarget n) c)
                  (v, set_regs r0 s)).
    rewrite Hc in Hread. done. }
  assert (∀ (l : list nat) (st : V * state),
            Q st.2 →
            Q (foldl (fun st i => class_produce_member (visit decls n) c i st)
                     st l).2) as Hloop.
  { induction l as [| i l IH]; intros st HQ; [done |]. simpl. apply IH. split.
    - apply class_produce_member_kept; [done | | by destruct HQ].
      intros. by apply visit_kept.
    - apply (class_produce_member_outside c d ti slots Hb);
        [by apply Hreg | by destruct HQ]. }
  by apply Hloop.
Qed.

Lemma unlisted_members_untouched_witness :
  outside_kept [0%nat] [VInt 1; VInt 7]
    (consume_into partial_decls 2 (SClass "Partial") (DObject [("x", DInt 5)])
       (VObj [VInt 1; VInt 7])).2 ∧
  tgt (consume_into partial_decls 2 (SClass "Partial") (DObject [("x", DInt 5)])
         (VObj [VInt 1; VInt 7])).2 =
    Some (VObj [VInt 5; VInt 7]).
Proof.
  split; [| reflexivity].
  apply (unlisted_members_untouched (V := reader) partial_decls 1 "Partial"
           Partial [VInt 1; VInt 7] (reader_of [DObject [("x", DInt 5)]])
           (start (VObj [VInt 1; VInt 7]))).
  - reflexivity.
  - apply regs_ok_empty.
  - reflexivity.
Defined.
